(** * soundsync: the audio chunk stream pipeline of [src/utils/audio/chunk_stream.ts]

    A shallow embedding of the five stream classes of [chunk_stream.ts]
    ([AudioChunkStream], [AudioChunkStreamEncoder], [AudioChunkStreamDecoder],
    [AudioChunkStreamOrderer], [AudioChunkStreamResampler]) and the properties
    of the pipeline they form.

    Conventions.
    - A JavaScript [number] holding an index, a length or an offset is a [Z].
    - A byte is a [Z] in [0, 256): the four bytes of an index are computed
      modulo 256, and every other byte is copied from an array as it is.
    - [super.write(x)] of a Minipass stage is an emission: every [write]
      returns the new state of the stage together with the list of objects it
      pushed downstream, in order. *)

From Stdlib Require Import ZArith List Lia Bool Sorting.Permutation Sorting.Sorted.
Import ListNotations.
Open Scope Z_scope.

(** [interface AudioChunkStreamOutput { i: number; chunk: Buffer }].
    The representation [B] of the [Buffer] is a parameter: the stages whose
    behaviour depends only on the bytes use [list Z]; the framing stages,
    where copying and aliasing matter, use a view into a store of
    [ArrayBuffer]s. *)
Record AudioChunkStreamOutput (B : Type) : Type := mkOutput {
  i : Z;
  chunk : B
}.
Arguments mkOutput {B} _ _.
Arguments i {B} _.
Arguments chunk {B} _.

(** An indexed chunk whose buffer is given by its bytes. *)
Definition Chunk : Type := AudioChunkStreamOutput (list Z).

(** * AudioChunkStreamOrderer *)

Module Orderer.

Record t : Type := mk {
  maxUnorderedChunks : Z;
  buffer : list Chunk;
  nextEmittableChunkIndex : Z
}.

(** [new AudioChunkStreamOrderer(maxUnorderedChunks)]: empty buffer,
    [nextEmittableChunkIndex = -1]. *)
Definition create (maxUnordered : Z) : t :=
  mk maxUnordered [] (-1).

(** [this.buffer.sort((a, b) => a.i - b.i)]: a stable sort on the index. *)
Fixpoint insert_by_i (c : Chunk) (l : list Chunk)
  : list Chunk :=
  match l with
  | [] => [c]
  | h :: tl => if i c <=? i h then c :: h :: tl else h :: insert_by_i c tl
  end.

Fixpoint sort_by_i (l : list Chunk) : list Chunk :=
  match l with
  | [] => []
  | c :: tl => insert_by_i c (sort_by_i tl)
  end.

(** [emitNextChunksInBuffer]: while the head of the buffer carries the next
    emittable index, emit it ([emitChunk] moves the next index to [i + 1])
    and splice it off.  Returns the emitted chunks, the remaining buffer and
    the next emittable index. *)
Fixpoint emitNextChunksInBuffer (buf : list Chunk) (next : Z)
  : list Chunk * (list Chunk * Z) :=
  match buf with
  | [] => ([], ([], next))
  | c :: tl =>
      if i c =? next then
        let '(out, rest) := emitNextChunksInBuffer tl (i c + 1) in
        (c :: out, rest)
      else ([], (buf, next))
  end.

(** The forced restart of lines 195-211, run on the buffer and next index
    left by the first drain. *)
Definition overflow (maxUnordered : Z) (buf : list Chunk) (next : Z)
  : list Chunk * (list Chunk * Z) :=
  match buf with
  | [] => ([], (buf, next))
  | head :: _ =>
      if Z.of_nat (length buf) >=? maxUnordered then
        (* one chunk missing: an empty packet lets OPUS conceal it *)
        let '(conceal, next1) :=
          if i head - next =? 1
          then ([mkOutput next []], next + 1)
          else ([], next) in
        (* force consuming the buffer starting from the oldest chunk *)
        let next2 := i head in
        let '(out, rest) := emitNextChunksInBuffer buf next2 in
        (conceal ++ out, rest)
      else ([], (buf, next))
  end.

(** [write(d)] *)
Definition write (o : t) (d : Chunk) : t * list Chunk :=
  let next0 := if nextEmittableChunkIndex o =? -1 then i d else nextEmittableChunkIndex o in
  if i d <? next0 then
    (* late chunk, ignored *)
    (mk (maxUnorderedChunks o) (buffer o) next0, [])
  else
    let '(out1, (buf1, next1)) :=
      if next0 =? i d
      then ([d], (buffer o, i d + 1))          (* ordered chunk: passthrough *)
      else ([], (buffer o ++ [d], next0)) in   (* unordered chunk: stored *)
    let buf2 := sort_by_i buf1 in
    let '(out2, (buf3, next3)) := emitNextChunksInBuffer buf2 next1 in
    let '(out3, (buf4, next4)) := overflow (maxUnorderedChunks o) buf3 next3 in
    (mk (maxUnorderedChunks o) buf4 next4, out1 ++ out2 ++ out3).

(** Feeding a sequence of frames: final state and everything emitted. *)
Fixpoint run (o : t) (ds : list Chunk) : t * list Chunk :=
  match ds with
  | [] => (o, [])
  | d :: tl =>
      let '(o1, out1) := write o d in
      let '(o2, out2) := run o1 tl in
      (o2, out1 ++ out2)
  end.

Definition emitted (maxUnordered : Z) (ds : list Chunk) : list Chunk :=
  snd (run (create maxUnordered) ds).

Definition final (maxUnordered : Z) (ds : list Chunk) : t :=
  fst (run (create maxUnordered) ds).

(** Frames with the given indices and a payload chosen per index. *)
Definition frames (payload : Z -> list Z) (idxs : list Z) : list Chunk :=
  map (fun k => mkOutput k (payload k)) idxs.

(** [k; k + 1; ...], [n] indices. *)
Fixpoint consecutive (k : Z) (n : nat) : list Z :=
  match n with
  | O => []
  | S n' => k :: consecutive (k + 1) n'
  end.

(** Each index is below all the later ones. *)
Definition strictly_increasing (l : list Z) : Prop := StronglySorted Z.lt l.

(** The buffer is ordered by index. *)
Definition sorted_by_i (l : list Chunk) : Prop :=
  StronglySorted (fun a b => i a <= i b) l.

(** Between two writes the head of the buffer is not the next emittable
    index: the drain has taken it. *)
Definition settled (buf : list Chunk) (next : Z) : Prop :=
  forall c, hd_error buf = Some c -> i c <> next.

(** No two frames of the buffer carry the same index. *)
Definition strictly_sorted (l : list Chunk) : Prop :=
  StronglySorted (fun a b => i a < i b) l.

(** All the frames of the buffer are beyond [next]. *)
Definition above (next : Z) (l : list Chunk) : Prop :=
  Forall (fun c => next < i c) l.

(** Indices in increasing order, from [lo] on and below [hi]. *)
Definition increasing_within (lo : Z) (l : list Z) (hi : Z) : Prop :=
  strictly_increasing l /\ Forall (fun j => lo <= j < hi) l /\ lo <= hi.

(** What holds of the orderer between two writes when no index is received
    twice, [seen] being the indices received: the buffer holds each index
    once, only indices received, and only indices beyond the next one. *)
Definition orderer_inv_distinct (o : t) (seen : list Z) : Prop :=
  strictly_sorted (buffer o) /\
  Forall (fun c => In (i c) seen) (buffer o) /\
  ((nextEmittableChunkIndex o = -1 /\ buffer o = []) \/
   (0 <= nextEmittableChunkIndex o /\ above (nextEmittableChunkIndex o) (buffer o))).

(** The index from which the orderer emits: the next index, or the index of
    the first frame while none is known. *)
Definition first_index (o : t) (ds : list Chunk) : Z :=
  if nextEmittableChunkIndex o =? -1
  then match ds with d :: _ => i d | [] => 0 end
  else nextEmittableChunkIndex o.

(** What holds of the orderer between two writes. *)
Definition orderer_inv (o : t) : Prop :=
  sorted_by_i (buffer o) /\
  settled (buffer o) (nextEmittableChunkIndex o) /\
  Z.of_nat (length (buffer o)) <= Z.max 0 (maxUnorderedChunks o - 1).

End Orderer.

(** * Typed arrays over a store of ArrayBuffers

    The framing stages build and read [Uint8Array]s.  Whether two arrays
    share their bytes is observable (the decoder's comment insists on a copy),
    so the [ArrayBuffer]s live in a store and an array is a window into one
    of them. *)

Module TypedArray.

(** A JavaScript exception leaving the current call. *)
Inductive exn : Type := RangeError.

Inductive result (A : Type) : Type :=
| Ok (a : A)
| Throw (e : exn).
Arguments Ok {A} _.
Arguments Throw {A} _.

(** The store: the n-th [ArrayBuffer] ever allocated, with its bytes. *)
Definition store : Type := list (list Z).

(** A [Uint8Array] (or a Node [Buffer], its subclass): a window of [length]
    bytes starting at [byteOffset] in the ArrayBuffer [buffer]. *)
Record view : Type := mkView {
  buffer : nat;
  byteOffset : nat;
  length : nat
}.

Definition bufferBytes (s : store) (b : nat) : list Z := nth b s [].

(** The bytes seen through a view. *)
Definition contents (s : store) (v : view) : list Z :=
  firstn (length v) (skipn (byteOffset v) (bufferBytes s (buffer v))).

(** A view lies inside an allocated ArrayBuffer. *)
Definition valid (s : store) (v : view) : Prop :=
  (buffer v < List.length s)%nat /\
  (byteOffset v + length v <= List.length (bufferBytes s (buffer v)))%nat.

(** Replace the bytes of one ArrayBuffer. *)
Fixpoint setBuffer (s : store) (b : nat) (bytes : list Z) : store :=
  match s, b with
  | [], _ => []
  | _ :: tl, O => bytes :: tl
  | x :: tl, S b' => x :: setBuffer tl b' bytes
  end.

(** Overwrite [data] into [l] from position [pos] on (the caller checks
    that it fits). *)
Definition blit (l : list Z) (pos : nat) (data : list Z) : list Z :=
  firstn pos l ++ data ++ skipn (pos + List.length data) l.

(** [new Uint8Array(n)]: a fresh zero-filled ArrayBuffer and the array over
    the whole of it. *)
Definition newUint8Array (s : store) (n : nat) : store * view :=
  (s ++ [repeat 0 n], mkView (List.length s) 0 n).

(** The four bytes of [ToUint32(v)], most significant first. *)
Definition be32 (v : Z) : list Z :=
  [ (v / 2 ^ 24) mod 256; (v / 2 ^ 16) mod 256; (v / 2 ^ 8) mod 256; v mod 256 ].

Definition of_be32 (bs : list Z) : Z :=
  nth 0 bs 0 * 2 ^ 24 + nth 1 bs 0 * 2 ^ 16 + nth 2 bs 0 * 2 ^ 8 + nth 3 bs 0.

(** [new DataView(buffer, byteOffset).setUint32(pos, value)] (big-endian by
    default).  The DataView spans from [byteOffset] to the end of the
    ArrayBuffer; a write that does not fit throws a [RangeError]. *)
Definition DataView_setUint32 (s : store) (b byteOff pos : nat) (value : Z) : result store :=
  let bytes := bufferBytes s b in
  if (byteOff <=? List.length bytes)%nat && (pos + 4 <=? List.length bytes - byteOff)%nat
  then Ok (setBuffer s b (blit bytes (byteOff + pos) (be32 value)))
  else Throw RangeError.

(** [new DataView(buffer, byteOffset).getUint32(pos)] *)
Definition DataView_getUint32 (s : store) (b byteOff pos : nat) : result Z :=
  let bytes := bufferBytes s b in
  if (byteOff <=? List.length bytes)%nat && (pos + 4 <=? List.length bytes - byteOff)%nat
  then Ok (of_be32 (firstn 4 (skipn (byteOff + pos) bytes)))
  else Throw RangeError.

(** [target.set(source, offset)]: copy the bytes of [source] into [target]
    from [offset] on; a source that does not fit throws a [RangeError]. *)
Definition set (s : store) (target source : view) (offset : nat) : result store :=
  let data := contents s source in
  if (offset + length source <=? length target)%nat
  then Ok (setBuffer s (buffer target)
             (blit (bufferBytes s (buffer target)) (byteOffset target + offset) data))
  else Throw RangeError.

(** [input.slice(start)]: a new array over a new ArrayBuffer holding a copy
    of the bytes from [start] on. *)
Definition slice (s : store) (input : view) (start : nat) : store * view :=
  let data := skipn start (contents s input) in
  (s ++ [data], mkView (List.length s) 0 (List.length data)).

End TypedArray.

(** * AudioChunkStreamEncoder and AudioChunkStreamDecoder *)

Module Framing.
Import TypedArray.

(** An indexed frame whose buffer is a typed array in the store. *)
Definition Frame : Type := AudioChunkStreamOutput view.

(** What the decoder is handed: a Node [Buffer] or a plain [Uint8Array]. *)
Inductive record : Type :=
| IsBuffer (v : view)
| IsUint8Array (v : view).

(** [AudioChunkStreamEncoder.write(d)].  [Uint32Array.BYTES_PER_ELEMENT] is
    4, and [d.chunk.byteLength] is the length of the byte array [d.chunk].
    Emits the encoded chunk. *)
Definition encoder_write (s : store) (d : Frame) : result (store * list view) :=
  let '(s1, encodedChunk) := newUint8Array s (4 + length (chunk d)) in
  match DataView_setUint32 s1 (buffer encodedChunk) (byteOffset encodedChunk) 0 (i d) with
  | Throw e => Throw e
  | Ok s2 =>
      match set s2 encodedChunk (chunk d) 4 with
      | Throw e => Throw e
      | Ok s3 => Ok (s3, [encodedChunk])
      end
  end.

(** The array of a record. *)
Definition record_view (d : record) : view :=
  match d with
  | IsBuffer v => v
  | IsUint8Array v => v
  end.

(** [d instanceof Buffer ? new Uint8Array(d.buffer) : d]: for a [Buffer] the
    input is a new array over the whole ArrayBuffer behind it; for a
    [Uint8Array] it is the array itself. *)
Definition decoder_input (s : store) (d : record) : view :=
  match d with
  | IsBuffer v => mkView (buffer v) 0 (List.length (bufferBytes s (buffer v)))
  | IsUint8Array v => v
  end.

(** [AudioChunkStreamDecoder.write(d)].  There is no check of the record's
    length: a read of the index that does not fit in the ArrayBuffer
    throws. *)
Definition decoder_write (s : store) (d : record) : result (store * list Frame) :=
  let input := decoder_input s d in
  match DataView_getUint32 s (buffer input) (byteOffset input) 0 with
  | Throw e => Throw e
  | Ok idx =>
      (* a copy of the bytes, not a view on the same data *)
      let '(s1, payload) := slice s input 4 in
      Ok (s1, [mkOutput idx payload])
  end.

(** The pipe from the encoder to the decoder: each encoded chunk is handed
    to the decoder as it is. *)
Fixpoint decode_each (s : store) (wires : list view) : result (store * list Frame) :=
  match wires with
  | [] => Ok (s, [])
  | w :: tl =>
      match decoder_write s (IsUint8Array w) with
      | Throw e => Throw e
      | Ok (s1, out1) =>
          match decode_each s1 tl with
          | Throw e => Throw e
          | Ok (s2, out2) => Ok (s2, out1 ++ out2)
          end
      end
  end.

Definition encode_then_decode (s : store) (d : Frame) : result (store * list Frame) :=
  match encoder_write s d with
  | Throw e => Throw e
  | Ok (s1, wires) => decode_each s1 wires
  end.

(** A record is discarded: nothing is emitted, nothing is thrown and the
    store is left as it was. *)
Definition discards (s : store) (d : record) : Prop :=
  decoder_write s d = Ok (s, []).

End Framing.

(** * Byte arrays by value

    The chunker and the resampler only depend on the bytes of the arrays they
    fill, so there an array is the list of its bytes. *)

Module Bytes.

(** [Buffer.alloc(n)] / [new Uint8Array(n)]: [n] zero bytes; a negative
    length is refused. *)
Definition alloc (n : Z) : option (list Z) :=
  if n <? 0 then None else Some (repeat 0 (Z.to_nat n)).

(** [target.set(source, offset)]: [None] stands for the [RangeError] of a
    source that does not fit. *)
Definition set (target source : list Z) (offset : Z) : option (list Z) :=
  if (offset <? 0) || (offset + Z.of_nat (length source) >? Z.of_nat (length target))
  then None
  else Some (firstn (Z.to_nat offset) target ++ source
             ++ skipn (Z.to_nat offset + length source) target).

(** A relative position of [subarray]: counted from the end when negative,
    clamped to the array. *)
Definition clamp (len k : Z) : Z :=
  if k <? 0 then Z.max (len + k) 0 else Z.min k len.

(** [a.subarray(b, e)] *)
Definition subarray (a : list Z) (b e : Z) : list Z :=
  let len := Z.of_nat (length a) in
  let b' := clamp len b in
  let e' := clamp len e in
  firstn (Z.to_nat (e' - b')) (skipn (Z.to_nat b') a).

End Bytes.

(** * AudioChunkStreamResampler *)

Module Resampler.

(** Modelled from the spec: [rollover] of [../misc] is not among the sources.
    The spec gives the read offset as
    [(write_offset - buffered_bytes) mod capacity], so [rollover v min max]
    brings [v] into [min, max) modulo the width of the range. *)
Definition rollover (value min max : Z) : Z :=
  min + (value - min) mod (max - min).

Record t : Type := mk {
  channels : Z;
  inRate : Z;
  outRate : Z;
  alignementBuffer : list Z;
  bufferOffset : Z;
  bufferSize : Z;
  chunkIndexToEmit : list Z;
  outputChunkTargetLength : Z
}.

(** The length of the circular alignement buffer. *)
Definition capacity (r : t) : Z := Z.of_nat (length (alignementBuffer r)).

(** What one [super.write] of the resampler hands downstream: the indexed
    chunk (the bytes seen through the [subarray] view when it is emitted)
    and the offset of that view in the alignement buffer. *)
Record emission : Type := mkEmission {
  frame : Chunk;
  offset : Z
}.

(** One call of [write]: the chunk, and what the soxr module answers during
    the call: whether it is loaded ([this.resampler.soxrModule]) and the
    bytes [processChunk] returns. *)
Record call : Type := mkCall {
  d : Chunk;
  soxrModule : bool;
  outputChunk : list Z
}.

Inductive completion : Type := Returned | Thrown.

Section Constants.

(** Constants of [../constants], not among the sources. *)
Variables OPUS_ENCODER_CHUNK_SAMPLES_COUNT MAX_LATENCY : Z.

(** Modelled from the spec: [assert] of [../misc] is not among the sources;
    the spec says the multiple-of-frame condition is asserted at
    construction, so a failing [assert] aborts the constructor.

    The constructor.  [MAX_LATENCY * (outRate / 1000)] is taken exactly:
    it is [MAX_LATENCY * outRate / 1000] when 1000 divides the product,
    and otherwise not an integer, hence not a multiple of the target
    length.  [Float32Array.BYTES_PER_ELEMENT] is 4.  JavaScript's [%] is
    [Z.rem], and [x % 0] is [NaN]. *)
Definition create (channels inRate outRate : Z) : option t :=
  let target := OPUS_ENCODER_CHUNK_SAMPLES_COUNT * channels * 4 in
  let scaled := MAX_LATENCY * outRate in
  match Bytes.alloc (scaled / 1000) with
  | None => None
  | Some buf =>
      if (scaled mod 1000 =? 0) && negb (target =? 0)
         && (Z.rem (scaled / 1000) target =? 0)
      then
        match Bytes.alloc (target * 3) with
        | None => None
        | Some _ => Some (mk channels inRate outRate buf 0 0 [] target)
        end
      else None
  end.

(** The emitting loop at the end of [write]: while a whole output chunk is
    buffered and an index is waiting, emit the chunk under the oldest
    waiting index.  Returns the emissions, the remaining [bufferSize] and
    the remaining queue. *)
Fixpoint emitLoop (buf : list Z) (target bufOffset : Z) (size : Z) (queue : list Z)
  : list emission * (Z * list Z) :=
  match queue with
  | [] => ([], (size, []))
  | chunkIndex :: rest =>
      if size >=? target then
        let off := rollover (bufOffset - size) 0 (Z.of_nat (length buf)) in
        let e := mkEmission (mkOutput chunkIndex (Bytes.subarray buf off (off + target))) off in
        let '(out, st) := emitLoop buf target bufOffset (size - target) rest in
        (e :: out, st)
      else ([], (size, queue))
  end.

(** Copying the resampled data into the alignement buffer, in two passes
    when it runs over the end.  [inl] is the buffer as left by a [set]
    that threw, [inr] the buffer after a complete copy. *)
Definition store (buf : list Z) (bufOffset : Z) (out : list Z) : list Z + list Z :=
  let len := Z.of_nat (length out) in
  let cap := Z.of_nat (length buf) in
  if bufOffset + len >? cap then
    let overflow := (bufOffset + len) - cap in
    match Bytes.set buf (Bytes.subarray out 0 (len - overflow)) bufOffset with
    | None => inl buf
    | Some buf1 =>
        match Bytes.set buf1 (Bytes.subarray out (len - overflow) len) 0 with
        | None => inl buf1
        | Some buf2 => inr buf2
        end
    end
  else
    match Bytes.set buf out bufOffset with
    | None => inl buf
    | Some buf1 => inr buf1
    end.

(** [write(d)] *)
Definition write (r : t) (c : call) : t * list emission * completion :=
  if negb (soxrModule c) then
    (* the resampler is not yet initialized: the chunk is dropped *)
    (r, [], Returned)
  else
    let queue := chunkIndexToEmit r ++ [i (d c)] in
    let out := outputChunk c in
    let len := Z.of_nat (length out) in
    if len =? 0 then
      (mk (channels r) (inRate r) (outRate r) (alignementBuffer r)
          (bufferOffset r) (bufferSize r) queue (outputChunkTargetLength r),
       [], Returned)
    else
      match store (alignementBuffer r) (bufferOffset r) out with
      | inl buf =>
          (mk (channels r) (inRate r) (outRate r) buf
              (bufferOffset r) (bufferSize r) queue (outputChunkTargetLength r),
           [], Thrown)
      | inr buf =>
          let size := bufferSize r + len in
          let bufOffset := Z.rem (bufferOffset r + len) (Z.of_nat (length buf)) in
          let '(emitted, (size', queue')) :=
            emitLoop buf (outputChunkTargetLength r) bufOffset size queue in
          (mk (channels r) (inRate r) (outRate r) buf
              bufOffset size' queue' (outputChunkTargetLength r),
           emitted, Returned)
      end.

(** A sequence of calls; a call that throws leaves the state as the
    exception found it and the stream goes on with the next call. *)
Fixpoint run (r : t) (cs : list call) : t * list emission :=
  match cs with
  | [] => (r, [])
  | c :: tl =>
      let '(r1, out1, _) := write r c in
      let '(r2, out2) := run r1 tl in
      (r2, out1 ++ out2)
  end.

End Constants.

(** The indices the resampler took in: those of the calls it did not drop. *)
Definition consumed (cs : list call) : list Z :=
  map (fun c => i (d c)) (filter soxrModule cs).

Definition emitted_indices (es : list emission) : list Z :=
  map (fun e => i (frame e)) es.

(** The indices of all the chunks written to the resampler. *)
Definition written (cs : list call) : list Z :=
  map (fun c => i (d c)) cs.

(** What holds of a resampler between two writes, given the length [cap] of
    its alignement buffer and the length [target] of an output chunk: the
    buffer keeps its length, the write offset stays inside it, and the
    buffered bytes start at a multiple of [target]. *)
Definition aligned (cap target : Z) (r : t) : Prop :=
  capacity r = cap /\
  outputChunkTargetLength r = target /\
  0 <= bufferOffset r < cap /\
  (target | bufferOffset r - bufferSize r).

(** An emitted view is a whole output chunk inside the alignement buffer. *)
Definition whole_frame (cap target : Z) (e : emission) : Prop :=
  0 <= offset e /\
  offset e + target <= cap /\
  Z.of_nat (length (chunk (frame e))) = target.

End Resampler.

(** * AudioChunkStream (the chunker) *)

Module Chunker.

Definition MIN_LOOP_ITERATION_WITHOUT_DATA_TO_STOP_READING : Z := 5.

(** The fields of the stream.  [readInterval] is [true] while the interval
    timer is set.  Times are milliseconds on the clock of [now()] of
    [../misc] (not among the sources), taken as integers. *)
Record t : Type := mk {
  startTime : Z;
  chunkDuration : Z;
  chunkSize : Z;
  readInterval : bool;
  lastEmittedChunkIndex : Z;
  loopIterationWithoutData : Z
}.

(** The constructor; it also subscribes [startReadLoop] to ['readable']. *)
Definition create (startTime chunkDuration chunkSize : Z) : t :=
  mk startTime chunkDuration chunkSize false (-1) 0.

(** What the environment answers during one iteration of the loop of
    [_pushNecessaryChunks]: the clock when the index is computed from the
    time (line 68; read only when the sequence is restarted), the clock when
    the latency is computed (line 70), and the result of
    [sourceStream.read(chunkSize)] (line 74; [None] is [null]). *)
Record observation : Type := mkObs {
  now_index : Z;
  now_latency : Z;
  read : option (list Z)
}.

(** What happens, in order: the ['readable'] notifications, the reads that
    found no data, the stops of the read loop, and the chunks written
    downstream, each with the observation of the iteration that wrote it. *)
Inductive entry : Type :=
| Readable
| NoData
| Stopped
| Emitted (out : Chunk) (o : observation).

(** How a handler ends: it returned, leaving the rest of the environment's
    answers; or it threw; or the recorded answers ran out while the loop was
    still going, in which case what was recorded is a prefix of the run. *)
Inductive ending : Type :=
| Returned (rest : list observation)
| Thrown
| Unfinished.

(** [stopReadLoop] *)
Definition stopReadLoop (c : t) : t :=
  mk (startTime c) (chunkDuration c) (chunkSize c) false (-1) 0.

(** Lines 89-96: an incomplete chunk is completed with zeros. *)
Definition complete (size : Z) (chunk0 : list Z) : option (list Z) :=
  if Z.of_nat (length chunk0) =? size then Some chunk0
  else
    match Bytes.alloc size with
    | None => None
    | Some zeros => Bytes.set zeros chunk0 0
    end.

(** [_pushNecessaryChunks], by recursion on the answers of the
    environment, one per iteration of [while (true)]. *)
Fixpoint _pushNecessaryChunks (c : t) (env : list observation) : t * list entry * ending :=
  match env with
  | [] => (c, [], Unfinished)
  | o :: env' =>
      let currentChunkIndex :=
        if lastEmittedChunkIndex c =? -1
        then (now_index o - startTime c) / chunkDuration c
        else lastEmittedChunkIndex c + 1 in
      let currentChunkLatency :=
        (now_latency o - startTime c) - currentChunkIndex * chunkDuration c in
      if currentChunkLatency <? 0 then
        (* this chunk is in the future *)
        (c, [], Returned env')
      else
        match read o with
        | None =>
            let n := loopIterationWithoutData c + 1 in
            let c1 := mk (startTime c) (chunkDuration c) (chunkSize c) (readInterval c)
                         (lastEmittedChunkIndex c) n in
            if n >=? MIN_LOOP_ITERATION_WITHOUT_DATA_TO_STOP_READING
            then (stopReadLoop c1, [NoData; Stopped], Returned env')
            else (c1, [NoData], Returned env')
        | Some chunk0 =>
            match complete (chunkSize c) chunk0 with
            | None =>
                (mk (startTime c) (chunkDuration c) (chunkSize c) (readInterval c)
                    (lastEmittedChunkIndex c) 0,
                 [], Thrown)
            | Some chunk1 =>
                let c1 := mk (startTime c) (chunkDuration c) (chunkSize c) (readInterval c)
                             currentChunkIndex 0 in
                let '(c2, log, e) := _pushNecessaryChunks c1 env' in
                (c2, Emitted (mkOutput currentChunkIndex chunk1) o :: log, e)
            end
        end
  end.

(** [startReadLoop], the handler of ['readable']. *)
Definition startReadLoop (c : t) (env : list observation) : t * list entry * ending :=
  let c0 := mk (startTime c) (chunkDuration c) (chunkSize c) (readInterval c)
               (lastEmittedChunkIndex c) 0 in
  if readInterval c then (c0, [Readable], Returned env)
  else
    let '(c1, log, e) := _pushNecessaryChunks c0 env in
    match e with
    | Returned _ =>
        (mk (startTime c1) (chunkDuration c1) (chunkSize c1) true
            (lastEmittedChunkIndex c1) (loopIterationWithoutData c1),
         Readable :: log, e)
    | _ => (c1, Readable :: log, e)
    end.

(** What drives the stream: a ['readable'] of the source or a tick of the
    interval timer. *)
Inductive event : Type := OnReadable | OnTick.

(** A tick is delivered only while the timer is set. *)
Definition handle (c : t) (ev : event) (env : list observation) : t * list entry * ending :=
  match ev with
  | OnReadable => startReadLoop c env
  | OnTick => if readInterval c then _pushNecessaryChunks c env else (c, [], Returned env)
  end.

(** A run: the events in order, the environment's answers consumed along
    the way.  The run ends with the events, with a handler that throws, or
    with the recorded answers. *)
Fixpoint run (c : t) (evs : list event) (env : list observation) : t * list entry :=
  match evs with
  | [] => (c, [])
  | ev :: evs' =>
      let '(c1, log1, e) := handle c ev env in
      match e with
      | Returned env' =>
          let '(c2, log2) := run c1 evs' env' in
          (c2, log1 ++ log2)
      | _ => (c1, log1)
      end
  end.

Definition history (startTime chunkDuration chunkSize : Z)
           (evs : list event) (env : list observation) : list entry :=
  snd (run (create startTime chunkDuration chunkSize) evs env).

(** The chunks written downstream, in order. *)
Fixpoint outputs (h : list entry) : list Chunk :=
  match h with
  | [] => []
  | Emitted out _ :: tl => out :: outputs tl
  | _ :: tl => outputs tl
  end.


(** The successive readings of the clock in a list of answers. *)
Fixpoint readings (env : list observation) : list Z :=
  match env with
  | [] => []
  | o :: tl => now_index o :: now_latency o :: readings tl
  end.

Fixpoint nondecreasing_from (lo : Z) (ts : list Z) : Prop :=
  match ts with
  | [] => True
  | x :: tl => lo <= x /\ nondecreasing_from x tl
  end.

(** The clock does not run backwards and does not precede [startTime].  An
    iteration that does not read the clock at line 68 leaves [now_index]
    unused; any time between the neighbouring readings can stand there. *)
Definition clock_ok (start : Z) (env : list observation) : Prop :=
  nondecreasing_from start (readings env).

(** The indices of the chunks written downstream. *)
Definition indices (h : list entry) : list Z := map i (outputs h).

Definition strictly_increasing (l : list Z) : Prop := StronglySorted Z.lt l.

Definition is_stopped (e : entry) : bool :=
  match e with Stopped => true | _ => false end.

(** Reading a history from the left with the number [n] of reads without
    data met in a row since the last ['readable'], chunk or stop: every stop
    comes after at least five of them. *)
Fixpoint stops_after (n : nat) (h : list entry) : Prop :=
  match h with
  | [] => True
  | NoData :: tl => stops_after (S n) tl
  | Stopped :: tl => (5 <= n)%nat /\ stops_after 0 tl
  | _ :: tl => stops_after 0 tl
  end.

(** A chunk written downstream has [size] bytes: the bytes read, completed
    with zeros. *)
Definition padded (size : Z) (e : entry) : Prop :=
  match e with
  | Emitted out o =>
      Z.of_nat (length (chunk out)) = size /\
      exists r, read o = Some r /\
                Z.of_nat (length r) <= size /\
                chunk out = r ++ repeat 0 (Z.to_nat (size - Z.of_nat (length r)))
  | _ => True
  end.

(** Reading a history from the left with the index [prev] of the last chunk
    written, if any, and whether the sequence is to be restarted from the
    clock (at the beginning and after a stop): a chunk that restarts the
    sequence has the index of its time, any other the index after the
    previous one; every index is above the previous one and not in the
    future. *)
Fixpoint follows_index_law (start duration : Z) (prev : option Z) (restart : bool)
         (h : list entry) : Prop :=
  match h with
  | [] => True
  | Emitted out o :: tl =>
      (if restart then i out = (now_index o - start) / duration
       else match prev with Some p => i out = p + 1 | None => False end) /\
      (forall p, prev = Some p -> p < i out) /\
      i out * duration <= now_latency o - start /\
      follows_index_law start duration (Some (i out)) false tl
  | Stopped :: tl => follows_index_law start duration prev true tl
  | _ :: tl => follows_index_law start duration prev restart tl
  end.

(** The idle counter stays below the threshold between two handlers. *)
Definition idle_ok (c : t) : Prop :=
  0 <= loopIterationWithoutData c < MIN_LOOP_ITERATION_WITHOUT_DATA_TO_STOP_READING.

Definition idle (c : t) : nat := Z.to_nat (loopIterationWithoutData c).

(** How the state of the stream stands to such a reading, [T] being a time
    the clock has reached: either the sequence is to be restarted, the last
    index is unset and the chunk after the previous one is due at [T]; or the
    last index is the index of the previous chunk. *)
Definition tracks (c : t) (prev : option Z) (restart : bool) (T : Z) : Prop :=
  startTime c <= T /\
  if restart
  then lastEmittedChunkIndex c = -1 /\
       (forall p, prev = Some p -> (p + 1) * chunkDuration c <= T - startTime c)
  else exists p, prev = Some p /\ lastEmittedChunkIndex c = p /\ 0 <= p.

(** What a handler that ran from a state tracking [prev] and [restart]
    leaves: the same start time and chunk duration, a state that tracks some
    [prev'] and [restart'] at a time before the answers that are left, and a
    record that follows the index law whenever what comes next does. *)
Definition keeps_index_law (start duration : Z) (prev : option Z) (restart : bool)
           (res : t * list entry * ending) : Prop :=
  let '(c', log, e) := res in
  startTime c' = start /\
  chunkDuration c' = duration /\
  exists prev' restart' T',
    tracks c' prev' restart' T' /\
    (forall rest, e = Returned rest -> nondecreasing_from T' (readings rest)) /\
    (forall tail,
        follows_index_law start duration prev' restart' tail ->
        follows_index_law start duration prev restart (log ++ tail)).


End Chunker.

(** * Runs and pipelines

    What is observed of a stage over a run, and the stages piped together as
    the [create...] functions of [chunk_stream.ts] pipe them. *)

Module ResamplerRun.
Import Resampler.

(** How each call of [write] of a run ends. *)
Fixpoint outcomes (r : t) (cs : list call) : list completion :=
  match cs with
  | [] => []
  | c :: tl =>
      let '(r1, _, fin) := write r c in
      fin :: outcomes r1 tl
  end.

Definition returned (fin : completion) : bool :=
  match fin with Returned => true | Thrown => false end.

(** The chunk the resampler is to emit for a call when the soxr module
    returns one output chunk per input chunk: the bytes returned, under the
    index of the input. *)
Definition resampled (c : call) : Chunk := mkOutput (i (d c)) (outputChunk c).

(** The [n] bytes of a circular buffer from the position [start] on, the
    positions being taken modulo the length of the buffer. *)
Definition circular (buf : list Z) (start : Z) (n : nat) : list Z :=
  map (fun k => nth (Z.to_nat ((start + Z.of_nat k) mod Z.of_nat (length buf))) buf 0)
      (seq 0 n).

(** The bytes buffered and not emitted yet: the [bufferSize] bytes that end
    at the write offset. *)
Definition buffered (r : t) : list Z :=
  circular (alignementBuffer r) (bufferOffset r - bufferSize r) (Z.to_nat (bufferSize r)).

(** No call of the run overruns the alignement buffer: what the soxr module
    returns during a call fits beside the bytes buffered at that time. *)
Fixpoint no_overrun (r : t) (cs : list call) : Prop :=
  match cs with
  | [] => True
  | c :: tl =>
      (soxrModule c = true ->
       bufferSize r + Z.of_nat (length (outputChunk c)) <= capacity r) /\
      no_overrun (fst (fst (write r c))) tl
  end.

(** The bytes the soxr module returned over a run, in order; it is not
    called for a chunk that is dropped. *)
Definition resampled_bytes (cs : list call) : list Z :=
  concat (map outputChunk (filter soxrModule cs)).

(** The bytes of the chunks emitted, in order, each as seen through its
    view when it is emitted. *)
Definition emitted_bytes (es : list emission) : list Z :=
  concat (map (fun e => chunk (frame e)) es).

End ResamplerRun.

Module ChunkerRun.
Import Chunker.

(** Reading a history from the left, [stopped] telling whether the entry
    before was a stop: the entry after a stop is a ['readable']. *)
Fixpoint readable_follows_stop (stopped : bool) (h : list entry) : Prop :=
  match h with
  | [] => True
  | e :: tl => (stopped = true -> e = Readable) /\ readable_follows_stop (is_stopped e) tl
  end.

(** Whether a history read from the left ends with a stop, [stopped] telling
    it of the history before. *)
Fixpoint last_stopped (stopped : bool) (h : list entry) : bool :=
  match h with
  | [] => stopped
  | e :: tl => last_stopped (is_stopped e) tl
  end.

(** The chunks written for a row of reads that returned data: numbered from
    [k] on, the bytes read completed with zeros to [size] bytes. *)
Fixpoint numbered (size k : Z) (obs : list observation) : list entry :=
  match obs with
  | [] => []
  | o :: tl =>
      match read o with
      | Some r =>
          Emitted (mkOutput k (r ++ repeat 0 (Z.to_nat (size - Z.of_nat (length r))))) o
          :: numbered size (k + 1) tl
      | None => []
      end
  end.

End ChunkerRun.

Module Pipeline.

(** ** [createAudioChunkStream]: the chunker piped into the resampler *)

Section Constants.

(** Constants of [../constants], not among the sources. *)
Variables OPUS_ENCODER_CHUNK_DURATION OPUS_ENCODER_CHUNKS_PER_SECONDS
          OPUS_ENCODER_RATE OPUS_ENCODER_CHUNK_SAMPLES_COUNT MAX_LATENCY : Z.

(** The size of a chunk in bytes,
    [(sourceRate / OPUS_ENCODER_CHUNKS_PER_SECONDS) * channels
     * Uint16Array.BYTES_PER_ELEMENT], with [Uint16Array.BYTES_PER_ELEMENT = 2].
    The division of JavaScript numbers is not an integer division: at 22050
    Hz, two channels and 100 chunks per second the size is
    [220.5 * 2 * 2 = 882].  The value is taken exactly, as the number
    [sourceRate * channels * 2 / OPUS_ENCODER_CHUNKS_PER_SECONDS]; [None]
    when this is not a whole number (or with no chunk per second, when it is
    [Infinity] or [NaN]): a size that the chunker above, whose [chunkSize] is
    an integer, does not cover. *)
Definition chunkBytes (sourceRate channels : Z) : option Z :=
  let bytes := sourceRate * channels * 2 in
  if (OPUS_ENCODER_CHUNKS_PER_SECONDS =? 0)
     || negb (bytes mod OPUS_ENCODER_CHUNKS_PER_SECONDS =? 0)
  then None
  else Some (bytes / OPUS_ENCODER_CHUNKS_PER_SECONDS).

(** The two stages [createAudioChunkStream] builds: the chunker, when its
    chunk size is a whole number of bytes, and the resampler, when its
    constructor returns. *)
Definition createAudioChunkStream (startTime sourceRate channels : Z)
  : option Chunker.t * option Resampler.t :=
  (match chunkBytes sourceRate channels with
   | Some size => Some (Chunker.create startTime OPUS_ENCODER_CHUNK_DURATION size)
   | None => None
   end,
   Resampler.create OPUS_ENCODER_CHUNK_SAMPLES_COUNT MAX_LATENCY
     channels sourceRate OPUS_ENCODER_RATE).

(** [chunkStream.pipe(audioChunkResampler)]: every chunk the chunker writes
    is a call of [write] of the resampler; [answers] are what the soxr module
    answers during these calls, in order (the calls for which no answer is
    recorded are not part of the run). *)
Definition piped_calls (chunks : list Chunk) (answers : list (bool * list Z))
  : list Resampler.call :=
  map (fun ca => Resampler.mkCall (fst ca) (fst (snd ca)) (snd (snd ca)))
      (combine chunks answers).

(** A run of the stream [createAudioChunkStream] returns: the events and
    the answers of the environment of the chunker, the answers of the soxr
    module, and what comes out of the resampler.  [None] when the chunk size
    is not a whole number of bytes, when the constructor of the resampler
    fails, and when a [write] of the resampler throws: the exception then
    leaves through the loop of the chunker, which is not followed further. *)
Definition chunk_stream_run (startTime sourceRate channels : Z)
           (evs : list Chunker.event) (env : list Chunker.observation)
           (answers : list (bool * list Z)) : option (list Resampler.emission) :=
  match createAudioChunkStream startTime sourceRate channels with
  | (Some chunker, Some r0) =>
      let calls := piped_calls (Chunker.outputs (snd (Chunker.run chunker evs env)))
                               answers in
      if forallb ResamplerRun.returned (ResamplerRun.outcomes r0 calls)
      then Some (snd (Resampler.run r0 calls))
      else None
  | _ => None
  end.

End Constants.

(** ** [createAudioDecodedStream]: the decoder piped into the orderer *)

(** The frame the decoder emits, as the orderer holds it: the index and the
    bytes of the payload. *)
Definition to_chunk (s : TypedArray.store) (f : Framing.Frame) : Chunk :=
  mkOutput (i f) (TypedArray.contents s (chunk f)).

(** [new AudioChunkStreamOrderer(10)] *)
Definition createAudioDecodedStream_orderer : Orderer.t := Orderer.create 10.

(** [chunkDecoderStream.pipe(orderer)]: each record is decoded and what the
    decoder emits is written to the orderer; the result is the store, the
    orderer and what the orderer hands to the opus decoder.  A record on
    which the decoder throws ends the run. *)
Fixpoint receive (s : TypedArray.store) (o : Orderer.t) (records : list Framing.record)
  : TypedArray.result (TypedArray.store * Orderer.t * list Chunk) :=
  match records with
  | [] => TypedArray.Ok (s, o, [])
  | r :: tl =>
      match Framing.decoder_write s r with
      | TypedArray.Throw e => TypedArray.Throw e
      | TypedArray.Ok (s1, frames) =>
          let '(o1, out1) := Orderer.run o (map (to_chunk s1) frames) in
          match receive s1 o1 tl with
          | TypedArray.Throw e => TypedArray.Throw e
          | TypedArray.Ok (s2, o2, out2) => TypedArray.Ok (s2, o2, out1 ++ out2)
          end
      end
  end.

(** A record in the store [s] is the encoding of the frame [f]. *)
Definition encodes (s : TypedArray.store) (v : TypedArray.view) (f : Chunk) : Prop :=
  TypedArray.valid s v /\
  0 <= i f < 2 ^ 32 /\
  TypedArray.contents s v = TypedArray.be32 (i f) ++ chunk f.

End Pipeline.

(** * Properties of the orderer *)

Section OrdererFacts.

Import Orderer.

Lemma insert_by_i_length (c : Chunk) (l : list Chunk) :
  length (insert_by_i c l) = S (length l).
Proof.
  induction l as [|h tl IH]; simpl; [reflexivity|].
  destruct (i c <=? i h); simpl; [reflexivity | now rewrite IH].
Qed.

Lemma sort_by_i_length (l : list Chunk) : length (sort_by_i l) = length l.
Proof.
  induction l as [|c tl IH]; simpl; [reflexivity|].
  now rewrite insert_by_i_length, IH.
Qed.

Lemma insert_by_i_perm (c : Chunk) (l : list Chunk) :
  Permutation (c :: l) (insert_by_i c l).
Proof.
  induction l as [|h tl IH]; simpl; [apply Permutation_refl|].
  destruct (i c <=? i h); [apply Permutation_refl|].
  eapply perm_trans; [apply perm_swap | apply perm_skip, IH].
Qed.

Lemma sort_by_i_perm (l : list Chunk) : Permutation l (sort_by_i l).
Proof.
  induction l as [|c tl IH]; simpl; [constructor|].
  eapply perm_trans; [apply perm_skip, IH | apply insert_by_i_perm].
Qed.

Lemma insert_by_i_sorted (c : Chunk) (l : list Chunk) :
  sorted_by_i l -> sorted_by_i (insert_by_i c l).
Proof.
  unfold sorted_by_i. induction l as [|h tl IH]; intros Hs; simpl.
  - constructor; constructor.
  - inversion Hs as [|? ? Htl Hall]; subst.
    destruct (i c <=? i h) eqn:E.
    + apply Z.leb_le in E. constructor; [assumption|].
      constructor; [assumption|].
      eapply Forall_impl; [|exact Hall]. intros a Ha; simpl in *; lia.
    + apply Z.leb_gt in E. constructor; [apply IH; assumption|].
      eapply Permutation_Forall; [apply insert_by_i_perm|].
      constructor; [lia | assumption].
Qed.

Lemma sort_by_i_sorted (l : list Chunk) : sorted_by_i (sort_by_i l).
Proof.
  induction l as [|c tl IH]; simpl; [constructor|].
  apply insert_by_i_sorted, IH.
Qed.

(** The head of a sorted list carries its smallest index. *)
Lemma sorted_by_i_head (h : Chunk) (tl : list Chunk) :
  sorted_by_i (h :: tl) -> forall c, In c (h :: tl) -> i h <= i c.
Proof.
  intros Hs c [->|Hin]; [lia|].
  inversion Hs as [|? ? _ Hall]; subst.
  rewrite Forall_forall in Hall. now apply Hall.
Qed.

Lemma sorted_by_i_app_r (l1 l2 : list Chunk) :
  sorted_by_i (l1 ++ l2) -> sorted_by_i l2.
Proof.
  induction l1 as [|a l1 IH]; simpl; intros Hs; [assumption|].
  inversion Hs; subst. now apply IH.
Qed.

(** What a drain does: it splits the buffer into the run of consecutive
    indices starting at [next] and the rest, whose head is not the index
    after the run. *)
Lemma emitNextChunksInBuffer_spec (buf : list Chunk) :
  forall next out rest next',
    emitNextChunksInBuffer buf next = (out, (rest, next')) ->
    buf = out ++ rest /\
    map i out = consecutive next (length out) /\
    next' = next + Z.of_nat (length out) /\
    settled rest next'.
Proof.
  induction buf as [|c tl IH]; intros next out rest next' H; simpl in H.
  - inversion H; subst. repeat split; simpl; try lia.
    intros c Hc; discriminate.
  - destruct (i c =? next) eqn:E.
    + apply Z.eqb_eq in E.
      destruct (emitNextChunksInBuffer tl (i c + 1)) as [out0 [rest0 n0]] eqn:E0.
      inversion H; subst out rest next'; clear H.
      destruct (IH _ _ _ _ E0) as (Hb & Hm & Hn & Hh).
      repeat split.
      * simpl. now rewrite <- Hb.
      * simpl. rewrite Hm, E. reflexivity.
      * simpl length. lia.
      * assumption.
    + apply Z.eqb_neq in E. inversion H; subst; clear H.
      repeat split; simpl; try lia.
      intros c' Hc'. inversion Hc'; subst. assumption.
Qed.

(** A drain started on the index of the head takes the head. *)
Lemma emitNextChunksInBuffer_head (c : Chunk) (tl : list Chunk) :
  exists out rest next',
    emitNextChunksInBuffer (c :: tl) (i c) = (c :: out, (rest, next')).
Proof.
  simpl. rewrite Z.eqb_refl.
  destruct (emitNextChunksInBuffer tl (i c + 1)) as [out [rest n]].
  now exists out, rest, n.
Qed.

Lemma emitNextChunksInBuffer_settled (buf : list Chunk) (next : Z) :
  settled buf next -> emitNextChunksInBuffer buf next = ([], (buf, next)).
Proof.
  destruct buf as [|c tl]; intros Hs; simpl; [reflexivity|].
  destruct (i c =? next) eqn:E; [|reflexivity].
  apply Z.eqb_eq in E. exfalso. now apply (Hs c).
Qed.

(** The forced restart leaves a suffix of the buffer, and a proper one when
    the buffer has reached [maxUnordered]. *)
Lemma overflow_spec (maxUnordered : Z) (buf : list Chunk) (next : Z) :
  forall out rest next',
    overflow maxUnordered buf next = (out, (rest, next')) ->
    settled buf next ->
    (exists pre, buf = pre ++ rest) /\
    settled rest next' /\
    (maxUnordered <= Z.of_nat (length buf) -> buf <> [] ->
     (length rest < length buf)%nat).
Proof.
  intros out rest next' H Hs. destruct buf as [|head tl].
  - simpl in H. inversion H; subst. split; [now exists []|].
    split; [assumption|]. intros _ Hne. now elim Hne.
  - unfold overflow in H.
    destruct (Z.of_nat (length (head :: tl)) >=? maxUnordered) eqn:E.
    + destruct (emitNextChunksInBuffer_head head tl) as (out0 & rest0 & n0 & E0).
      assert (Hrest : out = (if i head - next =? 1 then [mkOutput next []] else [])
                            ++ head :: out0 /\ rest = rest0 /\ next' = n0).
      { destruct (i head - next =? 1); rewrite E0 in H; inversion H; auto. }
      destruct Hrest as (_ & -> & ->).
      destruct (emitNextChunksInBuffer_spec _ _ _ _ _ E0) as (Hb & _ & _ & Hset).
      split; [exists (head :: out0); exact Hb|].
      split; [assumption|].
      intros _ _. rewrite Hb. simpl. rewrite length_app. lia.
    + inversion H; subst. split; [now exists []|]. split; [assumption|].
      intros Hle _. rewrite Z.geb_leb in E. apply Z.leb_gt in E. lia.
Qed.

Lemma orderer_inv_create (maxUnordered : Z) : orderer_inv (create maxUnordered).
Proof.
  unfold orderer_inv, create; simpl. split; [constructor|]. split; [|lia].
  intros c Hc; discriminate.
Qed.

Lemma write_maxUnorderedChunks (o : t) (d : Chunk) :
  maxUnorderedChunks (fst (write o d)) = maxUnorderedChunks o.
Proof.
  unfold write. destruct (i d <? _); [reflexivity|].
  destruct (_ =? i d);
    destruct (emitNextChunksInBuffer _ _) as [out2 [buf3 next3]];
    destruct (overflow _ _ _) as [out3 [buf4 next4]]; reflexivity.
Qed.

Lemma write_preserves_inv (o : t) (d : Chunk) :
  orderer_inv o -> orderer_inv (fst (write o d)).
Proof.
  intros (Hsorted & Hset & Hlen). unfold write.
  set (next0 := if nextEmittableChunkIndex o =? -1 then i d else nextEmittableChunkIndex o).
  destruct (i d <? next0) eqn:Elate.
  - (* a late chunk can only be met once the next index is known *)
    apply Z.ltb_lt in Elate. unfold next0 in *.
    destruct (nextEmittableChunkIndex o =? -1) eqn:E1; [lia|].
    unfold orderer_inv; simpl. auto.
  - set (p := if next0 =? i d then ([d], (buffer o, i d + 1))
              else ([], (buffer o ++ [d], next0))).
    assert (Hp : sorted_by_i (sort_by_i (fst (snd p))) /\
                 Z.of_nat (length (sort_by_i (fst (snd p))))
                 <= Z.max 0 (maxUnorderedChunks o - 1) + 1).
    { split; [apply sort_by_i_sorted|]. rewrite sort_by_i_length. unfold p.
      destruct (next0 =? i d); simpl; [lia|]. rewrite length_app. simpl. lia. }
    destruct p as [out1 [buf1 next1]]. simpl in Hp. destruct Hp as (Hs2 & Hl2).
    destruct (emitNextChunksInBuffer (sort_by_i buf1) next1) as [out2 [buf3 next3]] eqn:E2.
    destruct (emitNextChunksInBuffer_spec _ _ _ _ _ E2) as (Hb2 & _ & _ & Hset3).
    destruct (overflow (maxUnorderedChunks o) buf3 next3) as [out3 [buf4 next4]] eqn:E3.
    destruct (overflow_spec _ _ _ _ _ _ E3 Hset3) as ((pre & Hb3) & Hset4 & Hshort).
    unfold orderer_inv; simpl. split; [|split].
    + rewrite Hb2, Hb3 in Hs2.
      now apply sorted_by_i_app_r, sorted_by_i_app_r in Hs2.
    + assumption.
    + assert (Hl3 : (length buf3 <= length (sort_by_i buf1))%nat).
      { rewrite Hb2, length_app. lia. }
      assert (Hl4 : (length buf4 <= length buf3)%nat).
      { rewrite Hb3, length_app. lia. }
      destruct (Z_lt_le_dec (Z.of_nat (length buf3)) (maxUnorderedChunks o)) as [Hlt|Hge];
        [lia|].
      destruct buf3 as [|h3 t3].
      * destruct buf4; simpl in *; lia.
      * assert (length buf4 < length (h3 :: t3))%nat by (apply Hshort; [lia|discriminate]).
        lia.
Qed.

Lemma run_preserves_inv (ds : list Chunk) :
  forall o, orderer_inv o ->
            orderer_inv (fst (run o ds)) /\
            maxUnorderedChunks (fst (run o ds)) = maxUnorderedChunks o.
Proof.
  induction ds as [|d tl IH]; intros o Hinv; simpl; [auto|].
  pose proof (write_preserves_inv o d Hinv) as H1.
  pose proof (write_maxUnorderedChunks o d) as Hm.
  destruct (write o d) as [o1 out1]; simpl in *.
  destruct (IH o1 H1) as (H2 & Hm2).
  destruct (run o1 tl) as [o2 out2]; simpl in *. split; [assumption | congruence].
Qed.

(** C9.  After every write the buffer of the orderer holds at most
    [maxUnorderedChunks] frames: whatever frames have been written, in
    whatever order and however often, the buffer of the state reached has
    length at most [maxUnordered] (a count, so not negative). *)
Theorem orderer_buffer_bounded (maxUnordered : Z) (ds : list Chunk) :
  0 <= maxUnordered ->
  Z.of_nat (length (buffer (final maxUnordered ds))) <= maxUnordered.
Proof.
  intros Hmax. unfold final.
  destruct (run_preserves_inv ds (create maxUnordered) (orderer_inv_create _))
    as ((_ & _ & Hlen) & Hm).
  rewrite Hm in Hlen. simpl in Hlen. lia.
Qed.

Lemma orderer_buffer_bounded_witness :
  0 <= 10 /\
  Z.of_nat (length (buffer (final 10 (frames (fun _ => []) [0; 2; 3; 5])))) <= 10.
Proof.
  split; [lia|]. apply (orderer_buffer_bounded 10 (frames (fun _ => []) [0; 2; 3; 5])). lia.
Defined.

Lemma final_inv (maxUnordered : Z) (ds : list Chunk) :
  orderer_inv (final maxUnordered ds) /\
  maxUnorderedChunks (final maxUnordered ds) = maxUnordered.
Proof.
  unfold final.
  destruct (run_preserves_inv ds (create maxUnordered) (orderer_inv_create _)) as (H & Hm).
  split; [assumption | now rewrite Hm].
Qed.

(** Storing a frame beyond the next index in a settled, sorted buffer
    leaves the sorted buffer settled: the first drain of [write] finds
    nothing to take. *)
Lemma settled_after_store (buf : list Chunk) (next : Z) (d : Chunk) :
  sorted_by_i buf -> settled buf next -> next < i d ->
  settled (sort_by_i (buf ++ [d])) next.
Proof.
  intros Hsorted Hset Hlt h Hh.
  pose proof (sort_by_i_sorted (buf ++ [d])) as Hs.
  pose proof (sort_by_i_perm (buf ++ [d])) as Hperm.
  destruct (sort_by_i (buf ++ [d])) as [|h' tl'] eqn:E; [discriminate|].
  inversion Hh; subst h'; clear Hh.
  assert (Hin : In h (buf ++ [d])).
  { eapply Permutation_in; [apply Permutation_sym, Hperm | now left]. }
  apply in_app_or in Hin. destruct Hin as [Hin|[<-|[]]]; [|lia].
  destruct buf as [|b0 btl]; [destruct Hin|].
  assert (i b0 <= i h) by (apply (sorted_by_i_head b0 btl); assumption).
  assert (i h <= i b0).
  { apply (sorted_by_i_head h tl' Hs). eapply Permutation_in; [exact Hperm|].
    now left. }
  assert (i b0 <> next) by (now apply Hset).
  lia.
Qed.

(** C3.  The overflow policy of the orderer.  In any state the orderer can
    reach, when a frame beyond the next index is stored and the buffer then
    holds at least [maxUnordered] frames, [write] (a) first emits the
    synthetic frame (next index, empty payload) exactly when the smallest
    buffered index is the next index plus one, (b) moves the next index to
    the smallest buffered index and (c) drains the run of consecutive
    indices at the head of the sorted buffer, leaving the rest buffered.
    With [maxUnordered = 10], the indices 0,2,...,11 give 0, the synthetic
    1, then 2..11 (nothing but 0 before the eleventh frame), and the
    indices 0,5,...,14 give 0 then 5..14 with no synthetic frame. *)
Theorem orderer_overflow_policy :
  (forall (maxUnordered : Z) (ds : list Chunk) (d : Chunk),
      let o := final maxUnordered ds in
      nextEmittableChunkIndex o <> -1 ->
      nextEmittableChunkIndex o < i d ->
      maxUnordered <= Z.of_nat (length (buffer o)) + 1 ->
      exists head run rest,
        sort_by_i (buffer o ++ [d]) = run ++ rest /\
        hd_error run = Some head /\
        (forall c, In c (buffer o ++ [d]) -> i head <= i c) /\
        map i run = consecutive (i head) (length run) /\
        (forall c, hd_error rest = Some c -> i c <> i head + Z.of_nat (length run)) /\
        write o d =
          (mk maxUnordered rest (i head + Z.of_nat (length run)),
           (if i head - nextEmittableChunkIndex o =? 1
            then [mkOutput (nextEmittableChunkIndex o) []]
            else []) ++ run))
  /\ (forall payload : Z -> list Z,
        emitted 10 (frames payload [0; 2; 3; 4; 5; 6; 7; 8; 9; 10]) = frames payload [0] /\
        emitted 10 (frames payload [0; 2; 3; 4; 5; 6; 7; 8; 9; 10; 11]) =
          frames payload [0] ++ [mkOutput 1 []]
          ++ frames payload [2; 3; 4; 5; 6; 7; 8; 9; 10; 11])
  /\ (forall payload : Z -> list Z,
        emitted 10 (frames payload [0; 5; 6; 7; 8; 9; 10; 11; 12; 13]) = frames payload [0] /\
        emitted 10 (frames payload [0; 5; 6; 7; 8; 9; 10; 11; 12; 13; 14]) =
          frames payload [0; 5; 6; 7; 8; 9; 10; 11; 12; 13; 14]).
Proof.
  split; [|split; intros payload; split; reflexivity].
  intros maxUnordered ds d o Hknown Hlt Hfull.
  destruct (final_inv maxUnordered ds) as ((Hsorted & Hset & _) & Hmax).
  fold o in Hsorted, Hset, Hmax.
  pose proof (settled_after_store _ _ d Hsorted Hset Hlt) as Hset2.
  pose proof (sort_by_i_sorted (buffer o ++ [d])) as Hs2.
  pose proof (sort_by_i_perm (buffer o ++ [d])) as Hperm.
  pose proof (sort_by_i_length (buffer o ++ [d])) as Hlen.
  unfold write.
  apply Z.eqb_neq in Hknown. rewrite Hknown.
  assert (E1 : (i d <? nextEmittableChunkIndex o) = false) by (apply Z.ltb_ge; lia).
  assert (E2 : (nextEmittableChunkIndex o =? i d) = false) by (apply Z.eqb_neq; lia).
  rewrite E1, E2, (emitNextChunksInBuffer_settled _ _ Hset2), Hmax.
  destruct (sort_by_i (buffer o ++ [d])) as [|head tl] eqn:Esort.
  { rewrite length_app in Hlen. simpl in Hlen. lia. }
  unfold overflow.
  assert (E3 : (Z.of_nat (length (head :: tl)) >=? maxUnordered) = true).
  { rewrite Z.geb_leb. apply Z.leb_le. rewrite Hlen, length_app. simpl length. lia. }
  rewrite E3.
  destruct (emitNextChunksInBuffer_head head tl) as (out0 & rest & n & E0).
  destruct (emitNextChunksInBuffer_spec _ _ _ _ _ E0) as (Hb & Hm & Hn & Hrest).
  exists head, (head :: out0), rest. subst n.
  split; [exact Hb|]. split; [reflexivity|].
  split.
  { intros c Hc. apply (sorted_by_i_head head tl Hs2).
    eapply Permutation_in; [exact Hperm | exact Hc]. }
  split; [exact Hm|]. split; [exact Hrest|].
  destruct (i head - nextEmittableChunkIndex o =? 1); rewrite E0; reflexivity.
Qed.

Lemma orderer_overflow_policy_witness :
  exists head run rest,
    sort_by_i (buffer (final 10 (frames (fun _ => [7]) [0; 2; 3; 4; 5; 6; 7; 8; 9; 10]))
               ++ [mkOutput 11 [7]]) = run ++ rest /\
    hd_error run = Some head /\
    write (final 10 (frames (fun _ => [7]) [0; 2; 3; 4; 5; 6; 7; 8; 9; 10])) (mkOutput 11 [7]) =
      (mk 10 rest (i head + Z.of_nat (length run)), mkOutput 1 [] :: run).
Proof.
  destruct (proj1 orderer_overflow_policy 10
              (frames (fun _ => [7]) [0; 2; 3; 4; 5; 6; 7; 8; 9; 10]) (mkOutput 11 [7]))
    as (head & run & rest & Hsplit & Hhead & _ & _ & _ & Hwrite).
  - vm_compute. discriminate.
  - vm_compute. reflexivity.
  - vm_compute. discriminate.
  - exists head, run, rest. split; [exact Hsplit|]. split; [exact Hhead|].
    rewrite Hwrite. f_equal.
    assert (Hh : head = mkOutput 2 [7]).
    { vm_compute in Hsplit. destruct run as [|r0 rtl]; [discriminate|].
      simpl in Hhead. inversion Hhead; subst r0. simpl in Hsplit. now inversion Hsplit. }
    rewrite Hh. reflexivity.
Defined.

(** C2.  The orderer run on a sequence in which the transport duplicates
    frame 2 and loses frame 3 (maxUnordered = 10): the second copy of frame 2
    stays in the buffer after the first has been drained, and the forced
    restart emits it again, so the emitted indices 0, 1, 2, 2 are not
    strictly increasing. *)
Theorem orderer_duplicate_emitted_twice (payload : Z -> list Z) :
  map i (emitted 10 (frames payload [0; 2; 2; 1; 4; 5; 6; 7; 8; 9; 10; 11; 12]))
  = [0; 1; 2; 2] /\
  ~ strictly_increasing
      (map i (emitted 10 (frames payload [0; 2; 2; 1; 4; 5; 6; 7; 8; 9; 10; 11; 12]))).
Proof.
  assert (E : map i (emitted 10 (frames payload [0; 2; 2; 1; 4; 5; 6; 7; 8; 9; 10; 11; 12]))
              = [0; 1; 2; 2]) by reflexivity.
  split; [exact E|]. rewrite E. unfold strictly_increasing. intros H.
  inversion H as [|? ? H1 _]; subst. inversion H1 as [|? ? H2 _]; subst.
  inversion H2 as [|? ? _ H3]; subst. inversion H3; subst. lia.
Qed.

(** ** Without duplicates the emitted indices increase *)

Lemma increasing_within_nil (lo hi : Z) : lo <= hi -> increasing_within lo [] hi.
Proof. intros H. repeat split; [constructor | constructor | exact H]. Qed.

Lemma increasing_within_one (k : Z) : increasing_within k [k] (k + 1).
Proof.
  repeat split; try lia.
  - constructor; constructor.
  - constructor; [lia | constructor].
Qed.

Lemma increasing_within_app (a b c : Z) (l1 l2 : list Z) :
  increasing_within a l1 b -> increasing_within b l2 c ->
  increasing_within a (l1 ++ l2) c.
Proof.
  unfold increasing_within, strictly_increasing.
  intros (Hs1 & Hb1 & Hab) (Hs2 & Hb2 & Hbc). split; [|split; [|lia]].
  - induction l1 as [|x tl IH]; simpl; [exact Hs2|].
    inversion Hs1 as [|? ? Hs1' Hx]; subst. inversion Hb1 as [|? ? Hxb Hb1']; subst.
    constructor; [now apply IH|].
    apply Forall_app; split; [exact Hx|].
    eapply Forall_impl; [|exact Hb2]. intros j Hj; simpl in Hj. lia.
  - apply Forall_app; split; (eapply Forall_impl; [|eassumption]);
      intros j Hj; simpl in Hj; lia.
Qed.

Lemma increasing_within_consecutive (n : nat) :
  forall k, increasing_within k (consecutive k n) (k + Z.of_nat n).
Proof.
  induction n as [|n IH]; intros k.
  - simpl. apply increasing_within_nil. lia.
  - change (consecutive k (S n)) with ([k] ++ consecutive (k + 1) n).
    apply (increasing_within_app k (k + 1)); [apply increasing_within_one|].
    replace (k + Z.of_nat (S n)) with (k + 1 + Z.of_nat n) by lia. apply IH.
Qed.

Lemma strictly_sorted_NoDup (l : list Chunk) : strictly_sorted l -> NoDup (map i l).
Proof.
  induction 1 as [|c tl _ IH Hall]; simpl; constructor; [|exact IH].
  intros Hin. apply in_map_iff in Hin. destruct Hin as (c' & Heq & Hin).
  rewrite Forall_forall in Hall. specialize (Hall c' Hin). lia.
Qed.

Lemma sorted_NoDup_strictly (l : list Chunk) :
  sorted_by_i l -> NoDup (map i l) -> strictly_sorted l.
Proof.
  induction 1 as [|c tl _ IH Hall]; intros Hnd; simpl in Hnd; [constructor|].
  inversion Hnd as [|? ? Hnotin Hnd']; subst. constructor; [now apply IH|].
  rewrite Forall_forall in *. intros c' Hin. specialize (Hall c' Hin).
  assert (i c' <> i c) by (intros E; apply Hnotin; rewrite <- E; now apply in_map).
  lia.
Qed.

Lemma sort_by_i_strict (l : list Chunk) :
  NoDup (map i l) -> strictly_sorted (sort_by_i l).
Proof.
  intros Hnd. apply sorted_NoDup_strictly; [apply sort_by_i_sorted|].
  eapply Permutation_NoDup; [|exact Hnd]. apply Permutation_map, sort_by_i_perm.
Qed.

(** A drain of a buffer without duplicates, none of whose indices is below
    [next]: the indices emitted increase from [next] on and what is left is
    beyond the new next index. *)
Lemma emitNextChunksInBuffer_strict (buf : list Chunk) :
  forall next out rest next',
    strictly_sorted buf ->
    Forall (fun c => next <= i c) buf ->
    emitNextChunksInBuffer buf next = (out, (rest, next')) ->
    increasing_within next (map i out) next' /\
    strictly_sorted rest /\ above next' rest /\ (exists pre, buf = pre ++ rest).
Proof.
  induction buf as [|c tl IH]; intros next out rest next' Hs Hge H; simpl in H.
  - inversion H; subst. split; [apply increasing_within_nil; lia|].
    split; [constructor|]. split; [constructor | now exists []].
  - inversion Hs as [|? ? Hs' Hc]; subst. inversion Hge as [|? ? Hc0 Hge']; subst.
    destruct (i c =? next) eqn:E.
    + apply Z.eqb_eq in E.
      destruct (emitNextChunksInBuffer tl (i c + 1)) as [out0 [rest0 n0]] eqn:E0.
      inversion H; subst out rest next'; clear H.
      assert (Hge1 : Forall (fun c' => i c + 1 <= i c') tl).
      { eapply Forall_impl; [|exact Hc]. intros c' Hc'; simpl in Hc'. lia. }
      destruct (IH _ _ _ _ Hs' Hge1 E0) as (Hinc & Hsr & Hab & pre & Hpre).
      split; [|split; [exact Hsr | split; [exact Hab|]]].
      * change (map i (c :: out0)) with ([i c] ++ map i out0). rewrite <- E.
        apply (increasing_within_app (i c) (i c + 1));
          [apply increasing_within_one | exact Hinc].
      * exists (c :: pre). simpl. now rewrite Hpre.
    + apply Z.eqb_neq in E. inversion H; subst; clear H.
      split; [apply increasing_within_nil; lia|]. split; [exact Hs|].
      split; [|now exists []].
      constructor; [lia|]. eapply Forall_impl; [|exact Hc].
      intros c' Hc'; simpl in Hc'. lia.
Qed.

Lemma overflow_strict (maxUnordered : Z) (buf : list Chunk) (next : Z) :
  forall out rest next',
    strictly_sorted buf -> above next buf ->
    overflow maxUnordered buf next = (out, (rest, next')) ->
    increasing_within next (map i out) next' /\
    strictly_sorted rest /\ above next' rest /\ (exists pre, buf = pre ++ rest).
Proof.
  intros out rest next' Hs Hab H.
  assert (Hnone : (out, (rest, next')) = ([], (buf, next)) ->
                  increasing_within next (map i out) next' /\
                  strictly_sorted rest /\ above next' rest /\ (exists pre, buf = pre ++ rest)).
  { intros E; inversion E; subst. split; [apply increasing_within_nil; lia|].
    split; [exact Hs|]. split; [exact Hab | now exists []]. }
  destruct buf as [|head tl]; [apply Hnone; now rewrite <- H|].
  unfold overflow in H.
  destruct (Z.of_nat (length (head :: tl)) >=? maxUnordered); [|apply Hnone; now rewrite <- H].
  inversion Hab as [|? ? Hhead _]; subst.
  assert (Hge : Forall (fun c => i head <= i c) (head :: tl)).
  { inversion Hs as [|? ? _ Hc]; subst. constructor; [lia|].
    eapply Forall_impl; [|exact Hc]. intros c' Hc'; simpl in Hc'. lia. }
  destruct (emitNextChunksInBuffer (head :: tl) (i head)) as [out0 [rest0 n0]] eqn:E0.
  destruct (emitNextChunksInBuffer_strict _ _ _ _ _ Hs Hge E0) as (Hinc & Hsr & Habr & Hpre).
  destruct (i head - next =? 1) eqn:E1;
    injection H as Hout Hrest Hnext; subst out rest next'.
  - apply Z.eqb_eq in E1. split; [|auto].
    change (increasing_within next ([next] ++ map i out0) n0).
    apply (increasing_within_app next (i head)); [|exact Hinc].
    replace (i head) with (next + 1) by lia. apply increasing_within_one.
  - split; [|auto].
    change (increasing_within next ([] ++ map i out0) n0).
    apply (increasing_within_app next (i head)); [apply increasing_within_nil; lia | exact Hinc].
Qed.

(** One write of a frame whose index has not been received before. *)
Lemma write_distinct (o : t) (seen : list Z) (d : Chunk) :
  orderer_inv_distinct o seen ->
  0 <= i d -> ~ In (i d) seen ->
  orderer_inv_distinct (fst (write o d)) (i d :: seen) /\
  0 <= nextEmittableChunkIndex (fst (write o d)) /\
  increasing_within (first_index o [d]) (map i (snd (write o d)))
                    (nextEmittableChunkIndex (fst (write o d))).
Proof.
  intros (Hs & Hseen & Hnext) Hd Hnew.
  assert (Hseen' : Forall (fun c => In (i c) (i d :: seen)) (buffer o)).
  { eapply Forall_impl; [|exact Hseen]. intros c Hc. now right. }
  assert (Hnd : NoDup (map i (buffer o))) by now apply strictly_sorted_NoDup.
  unfold first_index, write.
  (* what is common to the two ways of taking the frame in *)
  assert (Hcommon : forall out1 buf1 next1,
             NoDup (map i buf1) -> Forall (fun c => next1 <= i c) buf1 ->
             Forall (fun c => In (i c) (i d :: seen)) buf1 -> 0 <= next1 ->
             forall lo, increasing_within lo (map i out1) next1 ->
             forall res,
               res = (let '(out2, (buf3, next3)) :=
                        emitNextChunksInBuffer (sort_by_i buf1) next1 in
                      let '(out3, (buf4, next4)) :=
                        overflow (maxUnorderedChunks o) buf3 next3 in
                      (mk (maxUnorderedChunks o) buf4 next4, out1 ++ out2 ++ out3)) ->
               orderer_inv_distinct (fst res) (i d :: seen) /\
               0 <= nextEmittableChunkIndex (fst res) /\
               increasing_within lo (map i (snd res)) (nextEmittableChunkIndex (fst res))).
  { intros out1 buf1 next1 Hnd1 Hge1 Hin1 Hn1 lo Hinc1 res Hres.
    pose proof (sort_by_i_strict buf1 Hnd1) as Hs2.
    pose proof (sort_by_i_perm buf1) as Hperm.
    assert (Hge2 : Forall (fun c => next1 <= i c) (sort_by_i buf1))
      by (eapply Permutation_Forall; eassumption).
    assert (Hin2 : Forall (fun c => In (i c) (i d :: seen)) (sort_by_i buf1))
      by (eapply Permutation_Forall; eassumption).
    destruct (emitNextChunksInBuffer (sort_by_i buf1) next1) as [out2 [buf3 next3]] eqn:E2.
    destruct (emitNextChunksInBuffer_strict _ _ _ _ _ Hs2 Hge2 E2)
      as (Hinc2 & Hs3 & Hab3 & pre3 & Hpre3).
    destruct (overflow (maxUnorderedChunks o) buf3 next3) as [out3 [buf4 next4]] eqn:E3.
    destruct (overflow_strict _ _ _ _ _ _ Hs3 Hab3 E3) as (Hinc3 & Hs4 & Hab4 & pre4 & Hpre4).
    assert (Hle : next1 <= next3 /\ next3 <= next4)
      by (destruct Hinc2 as (_ & _ & ?); destruct Hinc3 as (_ & _ & ?); lia).
    subst res. cbn [fst snd nextEmittableChunkIndex].
    split; [|split; [lia|]].
    - unfold orderer_inv_distinct; simpl. split; [exact Hs4|].
      split; [|right; split; [lia | exact Hab4]].
      rewrite Hpre3, Hpre4 in Hin2. apply Forall_app in Hin2. destruct Hin2 as (_ & Hin2).
      apply Forall_app in Hin2. now destruct Hin2.
    - rewrite !map_app. apply (increasing_within_app lo next1); [exact Hinc1|].
      apply (increasing_within_app next1 next3); assumption. }
  destruct Hnext as [(Hunset & Hempty) | (Hknown & Habove)].
  - (* the first frame *)
    rewrite Hunset, Hempty. simpl (-1 =? -1). cbv iota.
    rewrite Z.ltb_irrefl, Z.eqb_refl.
    apply (Hcommon [d] [] (i d + 1)); try (now constructor); try lia.
    apply increasing_within_one.
  - replace (nextEmittableChunkIndex o =? -1) with false by (symmetry; apply Z.eqb_neq; lia).
    destruct (i d <? nextEmittableChunkIndex o) eqn:Elate.
    + (* a late frame *)
      simpl. split; [|split; [exact Hknown | apply increasing_within_nil; lia]].
      unfold orderer_inv_distinct; simpl. auto.
    + apply Z.ltb_ge in Elate.
      destruct (nextEmittableChunkIndex o =? i d) eqn:Eeq.
      * (* the next frame *)
        apply Z.eqb_eq in Eeq.
        apply (Hcommon [d] (buffer o) (i d + 1)); try assumption; try lia; try reflexivity.
        -- eapply Forall_impl; [|exact Habove]. intros c Hc; simpl in Hc. lia.
        -- rewrite Eeq. apply increasing_within_one.
      * (* a frame beyond the next one *)
        apply Z.eqb_neq in Eeq.
        apply (Hcommon [] (buffer o ++ [d]) (nextEmittableChunkIndex o));
          try assumption; try reflexivity.
        -- rewrite map_app. simpl. apply NoDup_app; [exact Hnd | repeat constructor; auto | ].
           intros j Hj [<-|[]]. apply Hnew. apply in_map_iff in Hj.
           destruct Hj as (c & <- & Hc). rewrite Forall_forall in Hseen. now apply Hseen.
        -- apply Forall_app; split; [|constructor; [lia | constructor]].
           eapply Forall_impl; [|exact Habove]. intros c Hc; simpl in Hc. lia.
        -- apply Forall_app; split; [exact Hseen'|]. constructor; [now left | constructor].
        -- apply increasing_within_nil; lia.
Qed.

Lemma run_distinct (ds : list Chunk) :
  forall o seen,
    orderer_inv_distinct o seen ->
    Forall (fun d => 0 <= i d) ds ->
    NoDup (map i ds) ->
    (forall d, In d ds -> ~ In (i d) seen) ->
    exists hi, increasing_within (first_index o ds) (map i (snd (run o ds))) hi.
Proof.
  induction ds as [|d tl IH]; intros o seen Hinv Hpos Hnd Hfresh; simpl run.
  - exists (first_index o []). simpl. apply increasing_within_nil. lia.
  - inversion Hpos as [|? ? Hd Hpos']; subst. simpl in Hnd.
    inversion Hnd as [|? ? Hnotin Hnd']; subst.
    destruct (write_distinct o seen d Hinv Hd (Hfresh d (or_introl eq_refl)))
      as (Hinv1 & Hnext1 & Hinc1).
    destruct (write o d) as [o1 out1]; simpl in Hinv1, Hnext1, Hinc1.
    specialize (IH o1 (i d :: seen) Hinv1 Hpos' Hnd').
    destruct IH as (hi & Hinc2).
    { intros d' Hin [Heq|Hin']; [|now apply (Hfresh d' (or_intror Hin))].
      apply Hnotin. rewrite Heq. now apply in_map. }
    destruct (run o1 tl) as [o2 out2]; simpl in *.
    exists hi. rewrite map_app.
    apply (increasing_within_app _ (nextEmittableChunkIndex o1)).
    + unfold first_index in *. simpl in Hinc1. exact Hinc1.
    + unfold first_index in Hinc2.
      replace (nextEmittableChunkIndex o1 =? -1) with false in Hinc2
        by (symmetry; apply Z.eqb_neq; lia).
      exact Hinc2.
Qed.

(** When no index is received twice (frames may still be lost or come in any
    order), the indices the orderer emits are strictly increasing. *)
Lemma orderer_distinct_increasing (maxUnordered : Z) (ds : list Chunk) :
  Forall (fun d => 0 <= i d) ds ->
  NoDup (map i ds) ->
  strictly_increasing (map i (emitted maxUnordered ds)).
Proof.
  intros Hpos Hnd. unfold emitted.
  destruct (run_distinct ds (create maxUnordered) [] ) as (hi & Hinc & _); auto.
  unfold orderer_inv_distinct, create; simpl.
  split; [constructor|]. split; [constructor | now left].
Qed.

End OrdererFacts.

(** * Properties of the framing stages *)

Section FramingFacts.

Import TypedArray Framing.

Lemma bufferBytes_setBuffer_other (s : store) (b b' : nat) (bytes : list Z) :
  b <> b' -> bufferBytes (setBuffer s b bytes) b' = bufferBytes s b'.
Proof.
  unfold bufferBytes. revert b b'. induction s as [|x tl IH]; intros b b' Hne; simpl.
  - reflexivity.
  - destruct b as [|b0], b' as [|b0']; simpl; try reflexivity; try congruence.
    apply IH. congruence.
Qed.

Lemma bufferBytes_alloc_new (s : store) (bytes : list Z) :
  bufferBytes (s ++ [bytes]) (List.length s) = bytes.
Proof. unfold bufferBytes. apply nth_middle. Qed.

Lemma bufferBytes_alloc_old (s : store) (bytes : list Z) (b : nat) :
  (b < List.length s)%nat -> bufferBytes (s ++ [bytes]) b = bufferBytes s b.
Proof. intros Hb. unfold bufferBytes. now apply app_nth1. Qed.

(** The bytes seen through a view depend on its ArrayBuffer only. *)
Lemma contents_same_buffer (s s' : store) (v : view) :
  bufferBytes s' (buffer v) = bufferBytes s (buffer v) -> contents s' v = contents s v.
Proof. unfold contents. now intros ->. Qed.

Lemma contents_length (s : store) (v : view) :
  valid s v -> List.length (contents s v) = length v.
Proof.
  intros (_ & Hfit). unfold contents. rewrite length_firstn, length_skipn. lia.
Qed.

(** Reading back the four bytes of an index. *)
Lemma of_be32_be32 (v : Z) : 0 <= v < 2 ^ 32 -> of_be32 (be32 v) = v.
Proof.
  intros Hv. unfold of_be32, be32; cbn [nth].
  change (2 ^ 24) with 16777216. change (2 ^ 16) with 65536. change (2 ^ 8) with 256.
  change (2 ^ 32) with 4294967296 in Hv.
  assert (Q2 : v / 65536 = v / 256 / 256) by (now rewrite Z.div_div by lia).
  assert (Q3 : v / 16777216 = v / 256 / 256 / 256) by (now rewrite !Z.div_div by lia).
  rewrite Q2, Q3.
  pose proof (Z.div_mod v 256 ltac:(lia)) as E0.
  pose proof (Z.mod_pos_bound v 256 ltac:(lia)) as B0.
  pose proof (Z.div_mod (v / 256) 256 ltac:(lia)) as E1.
  pose proof (Z.mod_pos_bound (v / 256) 256 ltac:(lia)) as B1.
  pose proof (Z.div_mod (v / 256 / 256) 256 ltac:(lia)) as E2.
  pose proof (Z.mod_pos_bound (v / 256 / 256) 256 ltac:(lia)) as B2.
  assert (Hsmall : 0 <= v / 256 / 256 / 256 < 256).
  { rewrite <- Q3. split; [apply Z.div_pos; lia | apply Z.div_lt_upper_bound; lia]. }
  rewrite (Z.mod_small (v / 256 / 256 / 256) 256) by lia.
  lia.
Qed.

Lemma be32_length (v : Z) : List.length (be32 v) = 4%nat.
Proof. reflexivity. Qed.

Lemma setBuffer_alloc_new (s : store) (old bytes : list Z) :
  setBuffer (s ++ [old]) (List.length s) bytes = s ++ [bytes].
Proof. induction s as [|x tl IH]; simpl; [reflexivity | now rewrite IH]. Qed.

(** The encoder allocates one ArrayBuffer, holding the index and then the
    bytes of the chunk, and emits the array over the whole of it. *)
Lemma encoder_write_spec (s : store) (d : Frame) :
  valid s (chunk d) ->
  encoder_write s d =
  Ok (s ++ [be32 (i d) ++ contents s (chunk d)],
      [mkView (List.length s) 0 (4 + length (chunk d))]).
Proof.
  intros Hvalid. pose proof (contents_length s (chunk d) Hvalid) as Hlen.
  destruct Hvalid as (Hbuf & Hfit).
  unfold encoder_write, newUint8Array, DataView_setUint32, set. cbn [buffer byteOffset length].
  rewrite bufferBytes_alloc_new, repeat_length.
  replace ((0 <=? 4 + length (chunk d))%nat && (0 + 4 <=? 4 + length (chunk d) - 0)%nat)
    with true
    by (symmetry; apply andb_true_intro; split; apply Nat.leb_le; lia).
  rewrite setBuffer_alloc_new, Nat.leb_refl, bufferBytes_alloc_new, setBuffer_alloc_new.
  rewrite (contents_same_buffer s) by (now apply bufferBytes_alloc_old).
  do 3 f_equal. unfold blit. cbn [be32 firstn skipn List.length Nat.add app repeat].
  rewrite Hlen. cbn [skipn Nat.add].
  rewrite skipn_all2 by (rewrite repeat_length; lia).
  now rewrite app_nil_r.
Qed.

(** The decoder: the index is read from the four bytes of the ArrayBuffer at
    the offset of the input array when the ArrayBuffer has them, and the
    payload is a new ArrayBuffer. *)
Lemma decoder_write_spec (s : store) (d : record) :
  decoder_write s d =
  let input := decoder_input s d in
  let bytes := bufferBytes s (buffer input) in
  if (byteOffset input <=? List.length bytes)%nat
     && (4 <=? List.length bytes - byteOffset input)%nat
  then Ok (s ++ [skipn 4 (contents s input)],
           [mkOutput (of_be32 (firstn 4 (skipn (byteOffset input) bytes)))
                     (mkView (List.length s) 0 (List.length (skipn 4 (contents s input))))])
  else Throw RangeError.
Proof.
  unfold decoder_write, DataView_getUint32, slice. cbn zeta.
  rewrite Nat.add_0_r. change (0 + 4)%nat with 4%nat.
  now destruct ((byteOffset (decoder_input s d) <=? _)%nat && _).
Qed.

Lemma decoder_write_Uint8Array (s : store) (v : view) :
  decoder_write s (IsUint8Array v) =
  let bytes := bufferBytes s (buffer v) in
  if (byteOffset v <=? List.length bytes)%nat
     && (4 <=? List.length bytes - byteOffset v)%nat
  then Ok (s ++ [skipn 4 (contents s v)],
           [mkOutput (of_be32 (firstn 4 (skipn (byteOffset v) bytes)))
                     (mkView (List.length s) 0 (List.length (skipn 4 (contents s v))))])
  else Throw RangeError.
Proof. apply decoder_write_spec. Qed.

(** C1.  Framer then deframer is the identity.  For every index in
    [0, 2^32) and every payload (of any length, so in particular of at most
    the transport's MTU minus 4), the encoder emits one wire record holding
    the four bytes of the index, most significant first, followed by the
    payload; the decoder, given that record, emits one frame with the same
    index and a payload with the same bytes; the payload returned is a copy:
    it lives in an ArrayBuffer of its own, and overwriting the record's
    ArrayBuffer afterwards does not change it.  In particular
    (0xDEADBEEF, [1, 2, 3]) is encoded as the 7 bytes DE AD BE EF 01 02 03 and
    decoded as (0xDEADBEEF, [1, 2, 3]). *)
Theorem framer_deframer_roundtrip :
  (forall (s : store) (idx : Z) (p : view),
      0 <= idx < 2 ^ 32 ->
      valid s p ->
      exists s1 s2 wire payload,
        encoder_write s (mkOutput idx p) = Ok (s1, [wire]) /\
        contents s1 wire = be32 idx ++ contents s p /\
        decoder_write s1 (IsUint8Array wire) = Ok (s2, [mkOutput idx payload]) /\
        encode_then_decode s (mkOutput idx p) = Ok (s2, [mkOutput idx payload]) /\
        contents s2 payload = contents s p /\
        buffer payload <> buffer wire /\
        buffer payload <> buffer p /\
        (forall bytes, contents (setBuffer s2 (buffer wire) bytes) payload = contents s p))
  /\ (exists s1 s2 wire payload,
        encoder_write [[0x01; 0x02; 0x03]] (mkOutput 0xDEADBEEF (mkView 0 0 3)) = Ok (s1, [wire]) /\
        contents s1 wire = [0xDE; 0xAD; 0xBE; 0xEF; 0x01; 0x02; 0x03] /\
        decoder_write s1 (IsUint8Array wire) = Ok (s2, [mkOutput 0xDEADBEEF payload]) /\
        contents s2 payload = [0x01; 0x02; 0x03]).
Proof.
  split.
  - intros s idx p Hidx Hvalid.
    pose proof (contents_length s p Hvalid) as Hlen.
    pose proof (encoder_write_spec s (mkOutput idx p) Hvalid) as Henc. cbn [i chunk] in Henc.
    set (wire := mkView (List.length s) 0 (4 + length p)) in *.
    set (s1 := s ++ [be32 idx ++ contents s p]) in *.
    assert (Hwire : contents s1 wire = be32 idx ++ contents s p).
    { unfold contents at 1. unfold wire, s1. cbn [buffer byteOffset length].
      rewrite bufferBytes_alloc_new. cbn [skipn].
      apply firstn_all2. rewrite length_app, be32_length. lia. }
    assert (Hdec : decoder_write s1 (IsUint8Array wire) =
                   Ok (s1 ++ [contents s p],
                       [mkOutput idx (mkView (List.length s1) 0 (length p))])).
    { assert (Hbb : bufferBytes s1 (buffer wire) = be32 idx ++ contents s p)
        by apply bufferBytes_alloc_new.
      rewrite decoder_write_Uint8Array. cbn zeta. rewrite Hwire, Hbb.
      change (byteOffset wire) with 0%nat.
      rewrite length_app, be32_length.
      replace ((0 <=? 4 + List.length (contents s p))%nat
               && (4 <=? 4 + List.length (contents s p) - 0)%nat) with true
        by (symmetry; apply andb_true_intro; split; apply Nat.leb_le; lia).
      change (skipn 0 (be32 idx ++ contents s p)) with (be32 idx ++ contents s p).
      change (firstn 4 (be32 idx ++ contents s p)) with (be32 idx).
      change (skipn 4 (be32 idx ++ contents s p)) with (contents s p).
      rewrite (of_be32_be32 idx Hidx), Hlen. reflexivity. }
    exists s1, (s1 ++ [contents s p]), wire, (mkView (List.length s1) 0 (length p)).
    assert (Hs1 : List.length s1 = S (List.length s)).
    { unfold s1. rewrite length_app. simpl. lia. }
    assert (Hpayload :
              forall s', bufferBytes s' (List.length s1) = contents s p ->
                         contents s' (mkView (List.length s1) 0 (length p)) = contents s p).
    { intros s' Hs'. unfold contents at 1. cbn [buffer byteOffset length]. rewrite Hs'.
      cbn [skipn]. apply firstn_all2. lia. }
    split; [exact Henc|]. split; [exact Hwire|]. split; [exact Hdec|].
    split.
    { unfold encode_then_decode. rewrite Henc. cbn [decode_each]. rewrite Hdec. reflexivity. }
    split; [apply Hpayload, bufferBytes_alloc_new|].
    cbn [buffer]. split; [unfold wire; cbn [buffer]; lia|].
    split; [destruct Hvalid; lia|].
    intros bytes. apply Hpayload. unfold wire; cbn [buffer].
    rewrite bufferBytes_setBuffer_other by lia. apply bufferBytes_alloc_new.
  - do 4 eexists. split; [reflexivity|]. split; [reflexivity|]. split; reflexivity.
Qed.

Lemma framer_deframer_roundtrip_witness :
  exists s1 s2 wire payload,
    encoder_write [[7; 8]; [5; 6; 7; 8; 9]] (mkOutput 258 (mkView 1 1 3)) = Ok (s1, [wire]) /\
    contents s1 wire = [0; 0; 1; 2; 6; 7; 8] /\
    decoder_write s1 (IsUint8Array wire) = Ok (s2, [mkOutput 258 payload]) /\
    contents s2 payload = [6; 7; 8].
Proof.
  destruct (proj1 framer_deframer_roundtrip [[7; 8]; [5; 6; 7; 8; 9]] 258 (mkView 1 1 3))
    as (s1 & s2 & wire & payload & Henc & Hwire & Hdec & _ & Hpay & _).
  - lia.
  - unfold valid; simpl; lia.
  - exists s1, s2, wire, payload. repeat split; assumption.
Defined.

(** C6, as the spec states it, fails: a record of two bytes that is the
    whole of its ArrayBuffer is not discarded; the read of the index throws a
    [RangeError] out of [write]. *)
Lemma deframer_short_record_throws :
  (length (mkView 0 0 2) < 4)%nat /\
  valid [[1; 2]] (mkView 0 0 2) /\
  decoder_write [[1; 2]] (IsUint8Array (mkView 0 0 2)) = Throw RangeError /\
  ~ discards [[1; 2]] (IsUint8Array (mkView 0 0 2)).
Proof.
  split; [simpl; lia|]. split; [unfold valid; simpl; lia|].
  split; [reflexivity|]. unfold discards. simpl. discriminate.
Qed.

(** C6, amended.  The decoder has no check of the record's length and counts
    nothing.  Given a record shorter than 4 bytes, [write] never discards it:
    when fewer than 4 bytes are left in the ArrayBuffer from the offset at
    which the decoder reads (the record's own offset for a [Uint8Array], 0
    for a [Buffer]), as when the record is the whole ArrayBuffer, the read of
    the index throws a [RangeError] and nothing is emitted; otherwise [write]
    emits one frame, whose index is read from those four bytes of the
    ArrayBuffer; for a [Uint8Array] record the payload of that frame is
    empty. *)
Theorem deframer_short_record (s : store) (d : record) :
  (length (record_view d) < 4)%nat ->
  let input := decoder_input s d in
  let bytes := bufferBytes s (buffer input) in
  let left := (List.length bytes - byteOffset input)%nat in
  ((left < 4)%nat -> decoder_write s d = Throw RangeError) /\
  ((4 <= left)%nat ->
   exists payload,
     decoder_write s d =
       Ok (s ++ [skipn 4 (contents s input)],
           [mkOutput (of_be32 (firstn 4 (skipn (byteOffset input) bytes))) payload]) /\
     contents (s ++ [skipn 4 (contents s input)]) payload = skipn 4 (contents s input) /\
     (forall v, d = IsUint8Array v -> valid s v -> contents s input = contents s v /\
                                                  skipn 4 (contents s v) = [])) /\
  ~ discards s d.
Proof.
  intros Hshort input bytes left.
  assert (Hthrow : (left < 4)%nat -> decoder_write s d = Throw RangeError).
  { intros Hleft. rewrite decoder_write_spec. cbn zeta. fold input. fold bytes. fold left.
    replace (4 <=? left)%nat with false by (symmetry; apply Nat.leb_gt; lia).
    now rewrite andb_false_r. }
  assert (Hemit : (4 <= left)%nat ->
                  decoder_write s d =
                  Ok (s ++ [skipn 4 (contents s input)],
                      [mkOutput (of_be32 (firstn 4 (skipn (byteOffset input) bytes)))
                                (mkView (List.length s) 0
                                        (List.length (skipn 4 (contents s input))))])).
  { intros Hleft. rewrite decoder_write_spec. cbn zeta. fold input. fold bytes. fold left.
    replace (4 <=? left)%nat with true by (symmetry; apply Nat.leb_le; lia).
    replace (byteOffset input <=? List.length bytes)%nat with true
      by (symmetry; apply Nat.leb_le; unfold left in Hleft; lia).
    reflexivity. }
  split; [exact Hthrow|]. split.
  - intros Hleft. eexists. split; [now apply Hemit|]. split.
    + unfold contents at 1. cbn [buffer byteOffset length].
      rewrite bufferBytes_alloc_new. cbn [skipn]. now apply firstn_all.
    + intros v -> Hvalid. split; [reflexivity|].
      apply skipn_all2. rewrite (contents_length s v Hvalid). simpl in Hshort. lia.
  - unfold discards. destruct (Nat.lt_ge_cases left 4) as [Hlt|Hge].
    + rewrite (Hthrow Hlt). discriminate.
    + rewrite (Hemit Hge). intros H. inversion H.
Qed.

Lemma deframer_short_record_witness :
  decoder_write [[1; 2; 3; 4; 5; 6]] (IsUint8Array (mkView 0 1 2)) =
    Ok ([[1; 2; 3; 4; 5; 6]; []], [mkOutput 0x02030405 (mkView 1 0 0)]) /\
  ~ discards [[1; 2; 3; 4; 5; 6]] (IsUint8Array (mkView 0 1 2)).
Proof.
  destruct (deframer_short_record [[1; 2; 3; 4; 5; 6]] (IsUint8Array (mkView 0 1 2)))
    as (_ & _ & Hnot).
  - simpl; lia.
  - split; [reflexivity | exact Hnot].
Defined.

End FramingFacts.

(** * Properties of the resampler *)

Section ResamplerFacts.

Import Resampler.

Lemma Bytes_set_length (target source : list Z) (off : Z) (target' : list Z) :
  Bytes.set target source off = Some target' -> length target' = length target.
Proof.
  unfold Bytes.set.
  destruct ((off <? 0) || (off + Z.of_nat (length source) >? Z.of_nat (length target))) eqn:E;
    [discriminate|].
  apply orb_false_elim in E. destruct E as (E1 & E2).
  apply Z.ltb_ge in E1. rewrite Z.gtb_ltb in E2. apply Z.ltb_ge in E2.
  intros H; inversion H; subst; clear H.
  rewrite !length_app, length_firstn, length_skipn. lia.
Qed.

Lemma Bytes_set_fits (target source : list Z) (off : Z) :
  0 <= off -> off + Z.of_nat (length source) <= Z.of_nat (length target) ->
  exists target', Bytes.set target source off = Some target'.
Proof.
  intros H0 H1. unfold Bytes.set.
  replace (off <? 0) with false by (symmetry; apply Z.ltb_ge; lia).
  replace (off + Z.of_nat (length source) >? Z.of_nat (length target)) with false
    by (symmetry; rewrite Z.gtb_ltb; apply Z.ltb_ge; lia).
  simpl. eauto.
Qed.

Lemma Bytes_subarray_whole (a : list Z) (b len : Z) :
  0 <= b -> 0 <= len -> b + len <= Z.of_nat (length a) ->
  Z.of_nat (length (Bytes.subarray a b (b + len))) = len.
Proof.
  intros Hb Hlen Hfit. unfold Bytes.subarray, Bytes.clamp.
  replace (b <? 0) with false by (symmetry; apply Z.ltb_ge; lia).
  replace (b + len <? 0) with false by (symmetry; apply Z.ltb_ge; lia).
  rewrite length_firstn, length_skipn. lia.
Qed.

(** Either way the copy ends, the alignement buffer keeps its length. *)
Lemma store_length (buf : list Z) (bufOffset : Z) (out : list Z) :
  match store buf bufOffset out with
  | inl buf' | inr buf' => length buf' = length buf
  end.
Proof.
  unfold store. destruct (bufOffset + Z.of_nat (length out) >? Z.of_nat (length buf)).
  - destruct (Bytes.set buf _ bufOffset) as [buf1|] eqn:E1; [|reflexivity].
    apply Bytes_set_length in E1.
    destruct (Bytes.set buf1 _ 0) as [buf2|] eqn:E2; [|assumption].
    apply Bytes_set_length in E2. congruence.
  - destruct (Bytes.set buf out bufOffset) as [buf1|] eqn:E1; [|reflexivity].
    now apply Bytes_set_length in E1.
Qed.

(** An offset that is a multiple of the chunk length, in a buffer whose
    length is one too, leaves room for a whole chunk. *)
Lemma aligned_offset_fits (cap target x : Z) :
  0 < target -> (target | cap) -> (target | x) -> 0 <= x < cap -> x + target <= cap.
Proof.
  intros Ht (a & ->) (b & ->) Hx.
  assert (b < a) by (apply (Z.mul_lt_mono_pos_r target); lia).
  nia.
Qed.

Lemma rollover_aligned (cap target x : Z) :
  0 < target -> 0 < cap -> (target | cap) -> (target | x) ->
  0 <= rollover x 0 cap /\ rollover x 0 cap + target <= cap.
Proof.
  intros Ht Hcap Hdiv Hx. unfold rollover. rewrite !Z.sub_0_r, Z.add_0_l.
  pose proof (Z.mod_pos_bound x cap Hcap) as Hb.
  split; [lia|]. apply aligned_offset_fits; try assumption.
  rewrite Z.mod_eq by lia. apply Z.divide_sub_r; [assumption|].
  now apply Z.divide_mul_l.
Qed.

(** The emitting loop hands out indices from the front of the queue and
    only whole chunks; it keeps the start of the buffered bytes aligned. *)
Lemma emitLoop_spec (buf : list Z) (target bufOffset : Z) (queue : list Z) :
  forall size es size' queue',
    emitLoop buf target bufOffset size queue = (es, (size', queue')) ->
    queue = emitted_indices es ++ queue' /\
    (0 < target -> 0 < Z.of_nat (length buf) -> (target | Z.of_nat (length buf)) ->
     (target | bufOffset - size) ->
     Forall (whole_frame (Z.of_nat (length buf)) target) es /\
     (target | bufOffset - size')).
Proof.
  induction queue as [|k rest IH]; intros size es size' queue' H; simpl in H.
  - inversion H; subst. split; [reflexivity|]. intros; split; [constructor | assumption].
  - destruct (size >=? target) eqn:E.
    + destruct (emitLoop buf target bufOffset (size - target) rest) as [es0 [s0 q0]] eqn:E0.
      inversion H; subst; clear H.
      destruct (IH _ _ _ _ E0) as (Hq & Hrest).
      split; [simpl; now rewrite Hq|].
      intros Ht Hcap Hdiv Hal.
      assert (Hal' : (target | bufOffset - (size - target))).
      { replace (bufOffset - (size - target)) with ((bufOffset - size) + target) by lia.
        apply Z.divide_add_r; [assumption | apply Z.divide_refl]. }
      destruct (Hrest Ht Hcap Hdiv Hal') as (Hall & Hfinal).
      split; [|assumption]. constructor; [|assumption].
      destruct (rollover_aligned (Z.of_nat (length buf)) target (bufOffset - size)
                  Ht Hcap Hdiv Hal) as (Hr0 & Hr1).
      unfold whole_frame; cbn [offset frame chunk]. split; [assumption|]. split; [assumption|].
      apply Bytes_subarray_whole; [exact Hr0 | lia | exact Hr1].
    + inversion H; subst; clear H. split; [reflexivity|].
      intros; split; [constructor | assumption].
Qed.

(** One write: the index of the chunk joins the queue unless the chunk is
    dropped, and what is emitted leaves the queue from the front. *)
Lemma write_queue (r : t) (c : call) :
  chunkIndexToEmit r ++ (if soxrModule c then [i (d c)] else []) =
  emitted_indices (snd (fst (write r c))) ++ chunkIndexToEmit (fst (fst (write r c))).
Proof.
  unfold write. destruct (soxrModule c); simpl; [|now rewrite app_nil_r].
  destruct (Z.of_nat (length (outputChunk c)) =? 0); [reflexivity|].
  destruct (store (alignementBuffer r) (bufferOffset r) (outputChunk c)) as [buf|buf];
    [reflexivity|].
  destruct (emitLoop buf _ _ _ _) as [es [size' queue']] eqn:E.
  apply emitLoop_spec in E. destruct E as (Hq & _). exact Hq.
Qed.

Lemma run_queue (cs : list call) :
  forall r,
    chunkIndexToEmit r ++ consumed cs =
    emitted_indices (snd (run r cs)) ++ chunkIndexToEmit (fst (run r cs)).
Proof.
  induction cs as [|c tl IH]; intros r; simpl; [now rewrite app_nil_r|].
  pose proof (write_queue r c) as Hw.
  destruct (write r c) as [[r1 out1] fin]; simpl in Hw.
  specialize (IH r1). destruct (run r1 tl) as [r2 out2]; simpl in *.
  unfold consumed in *. simpl filter.
  unfold emitted_indices in *. rewrite map_app, <- app_assoc, <- IH, app_assoc, <- Hw.
  destruct (soxrModule c); simpl; now rewrite <- app_assoc.
Qed.


(** One write keeps the buffered bytes aligned and emits whole chunks. *)
Lemma write_aligned (cap target : Z) (r : t) (c : call) :
  0 < target -> 0 < cap -> (target | cap) ->
  aligned cap target r ->
  aligned cap target (fst (fst (write r c))) /\
  Forall (whole_frame cap target) (snd (fst (write r c))).
Proof.
  intros Ht Hcap Hdiv Hr. pose proof Hr as (Hc & Htl & Hoff & Hal). unfold write.
  destruct (soxrModule c); simpl; [|split; [exact Hr | constructor]].
  destruct (Z.of_nat (length (outputChunk c)) =? 0);
    [split; [exact Hr | constructor]|].
  pose proof (store_length (alignementBuffer r) (bufferOffset r) (outputChunk c)) as Hlen.
  destruct (store (alignementBuffer r) (bufferOffset r) (outputChunk c)) as [buf|buf].
  - split; [|constructor]. unfold aligned, capacity in *; simpl.
    rewrite Hlen. auto.
  - set (len := Z.of_nat (length (outputChunk c))).
    assert (Hbuf : Z.of_nat (length buf) = cap) by (unfold capacity in Hc; now rewrite Hlen).
    rewrite Hbuf, Htl.
    assert (Hrem : Z.rem (bufferOffset r + len) cap = (bufferOffset r + len) mod cap)
      by (apply Z.rem_mod_nonneg; unfold len; lia).
    pose proof (Z.mod_pos_bound (bufferOffset r + len) cap Hcap) as Hbound.
    assert (Hal' : (target | Z.rem (bufferOffset r + len) cap - (bufferSize r + len))).
    { rewrite Hrem, Z.mod_eq by lia.
      replace (bufferOffset r + len - cap * ((bufferOffset r + len) / cap)
               - (bufferSize r + len))
        with ((bufferOffset r - bufferSize r) - cap * ((bufferOffset r + len) / cap)) by lia.
      apply Z.divide_sub_r; [assumption | now apply Z.divide_mul_l]. }
    destruct (emitLoop buf target _ _ _) as [es [size' queue']] eqn:E.
    apply emitLoop_spec in E. destruct E as (_ & Hloop).
    rewrite Hbuf in Hloop. destruct (Hloop Ht Hcap Hdiv Hal') as (Hall & Hfinal).
    split; [|exact Hall]. unfold aligned, capacity; simpl.
    rewrite Hrem in *. auto.
Qed.

Lemma run_aligned (cap target : Z) (cs : list call) :
  0 < target -> 0 < cap -> (target | cap) ->
  forall r, aligned cap target r ->
            aligned cap target (fst (run r cs)) /\
            Forall (whole_frame cap target) (snd (run r cs)).
Proof.
  intros Ht Hcap Hdiv. induction cs as [|c tl IH]; intros r Hr; simpl.
  - split; [assumption | constructor].
  - destruct (write_aligned cap target r c Ht Hcap Hdiv Hr) as (H1 & Hout1).
    destruct (write r c) as [[r1 out1] fin]; simpl in *.
    destruct (IH r1 H1) as (H2 & Hout2).
    destruct (run r1 tl) as [r2 out2]; simpl in *.
    split; [assumption|]. apply Forall_app; split; assumption.
Qed.

(** What a successful construction establishes. *)
Lemma create_spec (SAMPLES MAXLAT channels inRate outRate : Z) (r0 : t) :
  create SAMPLES MAXLAT channels inRate outRate = Some r0 ->
  outputChunkTargetLength r0 = SAMPLES * channels * 4 /\
  capacity r0 = MAXLAT * outRate / 1000 /\
  0 < outputChunkTargetLength r0 /\
  0 <= capacity r0 /\
  (outputChunkTargetLength r0 | capacity r0) /\
  bufferOffset r0 = 0 /\ bufferSize r0 = 0 /\ chunkIndexToEmit r0 = [].
Proof.
  unfold create, Bytes.alloc.
  destruct (MAXLAT * outRate / 1000 <? 0) eqn:E0; [discriminate|].
  destruct ((MAXLAT * outRate mod 1000 =? 0) && negb (SAMPLES * channels * 4 =? 0)
            && (Z.rem (MAXLAT * outRate / 1000) (SAMPLES * channels * 4) =? 0)) eqn:E1;
    [|discriminate].
  destruct (SAMPLES * channels * 4 * 3 <? 0) eqn:E2; [discriminate|].
  intros H; inversion H; subst; clear H. unfold capacity; simpl.
  apply Z.ltb_ge in E0, E2.
  apply andb_prop in E1. destruct E1 as (E1 & E3). apply andb_prop in E1.
  destruct E1 as (_ & E1). apply negb_true_iff, Z.eqb_neq in E1. apply Z.eqb_eq in E3.
  rewrite repeat_length, Z2Nat.id by assumption.
  repeat split; try reflexivity; try lia.
  apply Z.rem_divide; assumption.
Qed.

Lemma create_aligned (SAMPLES MAXLAT channels inRate outRate : Z) (r0 : t) :
  create SAMPLES MAXLAT channels inRate outRate = Some r0 ->
  0 < capacity r0 ->
  aligned (capacity r0) (outputChunkTargetLength r0) r0.
Proof.
  intros Hc Hcap. destruct (create_spec _ _ _ _ _ _ Hc) as (_ & _ & _ & _ & _ & Ho & Hs & _).
  unfold aligned. rewrite Ho, Hs. repeat split; try lia. apply Z.divide_0_r.
Qed.

(** With nothing buffered and nothing waiting, a chunk for which the soxr
    module returns exactly one output chunk is emitted at once under its own
    index, and again nothing is buffered and nothing waits. *)
Lemma write_one_frame (cap target : Z) (r : t) (c : call) :
  0 < target -> 0 < cap -> (target | cap) ->
  aligned cap target r -> bufferSize r = 0 -> chunkIndexToEmit r = [] ->
  soxrModule c = true -> Z.of_nat (length (outputChunk c)) = target ->
  emitted_indices (snd (fst (write r c))) = [i (d c)] /\
  bufferSize (fst (fst (write r c))) = 0 /\
  chunkIndexToEmit (fst (fst (write r c))) = [].
Proof.
  intros Ht Hcap Hdiv (Hc & Htl & Hoff & Hal) Hsize Hqueue Hready Hlen.
  rewrite Hsize, Z.sub_0_r in Hal.
  pose proof (aligned_offset_fits cap target (bufferOffset r) Ht Hdiv Hal Hoff) as Hfit.
  unfold capacity in Hc.
  unfold write. rewrite Hready, Hlen, Hsize, Hqueue, Htl. cbn [negb app].
  replace (target =? 0) with false by (symmetry; apply Z.eqb_neq; lia).
  unfold store. rewrite Hlen, Hc.
  replace (bufferOffset r + target >? cap) with false
    by (symmetry; rewrite Z.gtb_ltb; apply Z.ltb_ge; lia).
  destruct (Bytes_set_fits (alignementBuffer r) (outputChunk c) (bufferOffset r))
    as (buf & Hset); [lia | lia |].
  rewrite Hset. cbn [emitLoop]. rewrite Z.add_0_l.
  replace (target >=? target) with true by (symmetry; rewrite Z.geb_leb; apply Z.leb_refl).
  cbn. repeat split; lia.
Qed.




(** With an empty alignement buffer every copy throws: nothing is ever
    emitted. *)
Lemma write_empty_buffer (r : t) (c : call) :
  alignementBuffer r = [] -> bufferOffset r = 0 ->
  snd (fst (write r c)) = [] /\
  alignementBuffer (fst (fst (write r c))) = [] /\
  bufferOffset (fst (fst (write r c))) = 0.
Proof.
  intros Hbuf Hoff. unfold write.
  destruct (soxrModule c); simpl; [|auto].
  destruct (Z.of_nat (length (outputChunk c)) =? 0) eqn:E; [simpl; auto|].
  apply Z.eqb_neq in E.
  assert (Hstore : store (alignementBuffer r) (bufferOffset r) (outputChunk c) = inl []).
  { rewrite Hbuf, Hoff. unfold store. simpl length.
    replace (0 + Z.of_nat (length (outputChunk c)) >? Z.of_nat 0) with true
      by (symmetry; apply Z.gtb_lt; lia).
    replace (Z.of_nat (length (outputChunk c))
             - (0 + Z.of_nat (length (outputChunk c)) - Z.of_nat 0)) with 0 by lia.
    assert (H0 : Bytes.subarray (outputChunk c) 0 0 = []).
    { unfold Bytes.subarray, Bytes.clamp. simpl (0 <? 0).
      rewrite Z.min_l by lia. reflexivity. }
    rewrite H0. cbn [Bytes.set length Z.of_nat Z.add Z.ltb Z.gtb Z.compare orb
                     Z.to_nat firstn skipn app Nat.add].
    unfold Bytes.set.
    assert (Hlen : Z.of_nat (length (Bytes.subarray (outputChunk c) 0
                                       (Z.of_nat (length (outputChunk c)))))
                   = Z.of_nat (length (outputChunk c))).
    { apply (Bytes_subarray_whole (outputChunk c) 0); lia. }
    rewrite Hlen. simpl (0 <? 0). simpl length.
    replace (0 + Z.of_nat (length (outputChunk c)) >? Z.of_nat 0) with true
      by (symmetry; apply Z.gtb_lt; lia).
    reflexivity. }
  rewrite Hstore. simpl. auto.
Qed.

Lemma run_empty_buffer (cs : list call) :
  forall r, alignementBuffer r = [] -> bufferOffset r = 0 -> snd (run r cs) = [].
Proof.
  induction cs as [|c tl IH]; intros r Hbuf Hoff; simpl; [reflexivity|].
  destruct (write_empty_buffer r c Hbuf Hoff) as (Hout & Hbuf1 & Hoff1).
  destruct (write r c) as [[r1 out1] fin]; simpl in *.
  specialize (IH r1 Hbuf1 Hoff1). destruct (run r1 tl) as [r2 out2]; simpl in *.
  now rewrite Hout, IH.
Qed.

(** C8.  No emitted chunk straddles the wrap of the circular buffer.  A
    resampler as constructed (the constructor asserts that the length of the
    alignement buffer is a multiple of the length of an output chunk):
    whatever is written to it and whatever the soxr module returns, the
    offset of every emitted view satisfies
    [offset + outputChunkTargetLength <= capacity], and the view holds a
    whole output chunk. *)
Theorem resampler_no_straddle
        (SAMPLES MAXLAT channels inRate outRate : Z) (r0 : t) (cs : list call) :
  create SAMPLES MAXLAT channels inRate outRate = Some r0 ->
  (outputChunkTargetLength r0 | capacity r0) /\
  Forall (fun e => 0 <= offset e /\
                   offset e + outputChunkTargetLength r0 <= capacity r0 /\
                   Z.of_nat (length (chunk (frame e))) = outputChunkTargetLength r0)
         (snd (run r0 cs)).
Proof.
  intros Hcreate.
  destruct (create_spec _ _ _ _ _ _ Hcreate) as (_ & _ & Ht & Hcap & Hdiv & Hoff & _).
  split; [exact Hdiv|].
  destruct (Z.eq_dec (capacity r0) 0) as [Hzero|Hnz].
  - rewrite run_empty_buffer; [constructor | | exact Hoff].
    unfold capacity in Hzero. destruct (alignementBuffer r0); [reflexivity | simpl in Hzero; lia].
  - assert (Hpos : 0 < capacity r0) by lia.
    apply (run_aligned (capacity r0) (outputChunkTargetLength r0) cs Ht Hpos Hdiv r0
             (create_aligned _ _ _ _ _ _ Hcreate Hpos)).
Qed.

Lemma resampler_no_straddle_witness :
  let r0 := mk 1 48000 48000 (repeat 0 48) 0 0 [] 8 in
  let cs := [mkCall (mkOutput 7 [1; 2]) true (repeat 1 20);
             mkCall (mkOutput 8 [3; 4]) true (repeat 2 24);
             mkCall (mkOutput 9 []) true (repeat 3 12)] in
  Forall (fun e => 0 <= offset e /\ offset e + 8 <= 48 /\
                   Z.of_nat (length (chunk (frame e))) = 8)
         (snd (run r0 cs)).
Proof.
  intros r0 cs.
  assert (Hcreate : create 2 1 1 48000 48000 = Some r0) by reflexivity.
  apply (resampler_no_straddle 2 1 1 48000 48000 r0 cs Hcreate).
Defined.

End ResamplerFacts.

(** * Properties of the chunker *)

Section ChunkerFacts.

Import Chunker.

(** ** The idle counter *)

Lemma stops_after_mono (h : list entry) :
  forall n m, (n <= m)%nat -> stops_after n h -> stops_after m h.
Proof.
  induction h as [|e tl IH]; intros n m Hle H; [exact I|].
  destruct e; simpl in *; try exact H.
  - apply (IH (S n)); [lia | exact H].
  - destruct H as (H5 & H). split; [lia | exact H].
Qed.

Lemma pushNecessaryChunks_idle (env : list observation) :
  forall c,
    idle_ok c ->
    idle_ok (fst (fst (_pushNecessaryChunks c env))) /\
    (forall tail,
        stops_after (idle (fst (fst (_pushNecessaryChunks c env)))) tail ->
        stops_after (idle c) (snd (fst (_pushNecessaryChunks c env)) ++ tail)).
Proof.
  unfold idle_ok, MIN_LOOP_ITERATION_WITHOUT_DATA_TO_STOP_READING.
  induction env as [|o env' IH]; intros c Hc; simpl.
  - split; [assumption | intros tail H; exact H].
  - destruct (_ <? 0).
    + split; [assumption | intros tail H; exact H].
    + destruct (read o) as [chunk0|].
      * destruct (complete (chunkSize c) chunk0) as [chunk1|].
        -- set (c1 := mk _ _ _ _ _ 0).
           assert (Hc1 : 0 <= loopIterationWithoutData c1 < 5) by (simpl; lia).
           destruct (IH c1 Hc1) as (Hok & Hstops).
           destruct (_pushNecessaryChunks c1 env') as [[c2 log] e]; simpl in *.
           split; [assumption|]. intros tail H. apply Hstops in H. exact H.
        -- simpl. split; [lia|]. intros tail H.
           apply (stops_after_mono tail 0); [lia | exact H].
      * destruct (loopIterationWithoutData c + 1
                  >=? MIN_LOOP_ITERATION_WITHOUT_DATA_TO_STOP_READING) eqn:E;
          unfold MIN_LOOP_ITERATION_WITHOUT_DATA_TO_STOP_READING in E; rewrite Z.geb_leb in E.
        -- apply Z.leb_le in E. simpl. split; [lia|]. intros tail H.
           split; [unfold idle; lia | exact H].
        -- apply Z.leb_gt in E. simpl. split; [lia|]. intros tail H.
           unfold idle in *; simpl in H.
           replace (S (Z.to_nat (loopIterationWithoutData c)))
             with (Z.to_nat (loopIterationWithoutData c + 1)) by lia.
           exact H.
Qed.

Lemma handle_idle (c : t) (ev : event) (env : list observation) :
  idle_ok c ->
  idle_ok (fst (fst (handle c ev env))) /\
  (forall tail,
      stops_after (idle (fst (fst (handle c ev env)))) tail ->
      stops_after (idle c) (snd (fst (handle c ev env)) ++ tail)).
Proof.
  intros Hc. destruct ev; simpl.
  - unfold startReadLoop. destruct (readInterval c).
    + simpl. split; [unfold idle_ok, MIN_LOOP_ITERATION_WITHOUT_DATA_TO_STOP_READING; simpl; lia|].
      intros tail H. exact H.
    + set (c0 := mk _ _ _ _ _ 0).
      assert (Hc0 : idle_ok c0)
        by (unfold idle_ok, MIN_LOOP_ITERATION_WITHOUT_DATA_TO_STOP_READING; simpl; lia).
      destruct (pushNecessaryChunks_idle env c0 Hc0) as (Hok & Hstops).
      destruct (_pushNecessaryChunks c0 env) as [[c1 log] e]; simpl in *.
      assert (Hgoal : forall c', idle_ok c' -> idle c' = idle c1 ->
                forall tail, stops_after (idle c') tail ->
                             stops_after (idle c) (Readable :: log ++ tail)).
      { intros c' _ Heq tail H. simpl. rewrite Heq in H. now apply Hstops. }
      destruct e; simpl; (split; [exact Hok | now apply Hgoal]).
  - destruct (readInterval c).
    + now apply pushNecessaryChunks_idle.
    + simpl. split; [assumption | intros tail H; exact H].
Qed.

Lemma run_idle (evs : list event) :
  forall c env, idle_ok c -> stops_after (idle c) (snd (run c evs env)).
Proof.
  induction evs as [|ev evs' IH]; intros c env Hc; simpl; [exact I|].
  destruct (handle_idle c ev env Hc) as (Hok & Hstops).
  destruct (handle c ev env) as [[c1 log1] e]; simpl in *.
  destruct e as [env'| |]; simpl.
  - specialize (IH c1 env' Hok). destruct (run c1 evs' env') as [c2 log2]; simpl in *.
    now apply Hstops.
  - rewrite <- (app_nil_r log1). now apply Hstops.
  - rewrite <- (app_nil_r log1). now apply Hstops.
Qed.

(** Before a stop, five reads without data in a row. *)
Lemma stops_after_before_stop (before after : list entry) :
  forall n,
    stops_after n (before ++ Stopped :: after) ->
    exists before', repeat NoData n ++ before = before' ++ repeat NoData 5.
Proof.
  induction before as [|e b IH]; intros n H; simpl in H.
  - destruct H as (H5 & _). exists (repeat NoData (n - 5)).
    rewrite app_nil_r, <- repeat_app. f_equal. lia.
  - assert (Hother : stops_after 0 (b ++ Stopped :: after) ->
                     exists before', repeat NoData n ++ e :: b = before' ++ repeat NoData 5).
    { intros H0. destruct (IH 0%nat H0) as (b' & Hb'). simpl in Hb'.
      exists (repeat NoData n ++ e :: b'). now rewrite Hb', <- app_assoc. }
    destruct e; try (now apply Hother).
    destruct (IH (S n) H) as (b' & Hb'). exists b'. rewrite <- Hb'.
    change (repeat NoData (S n)) with (NoData :: repeat NoData n).
    rewrite (repeat_cons n NoData), <- app_assoc. reflexivity.
Qed.

(** C10.  Every ['readable'] resets the idle counter, also while the read
    loop is running: with the timer set, [startReadLoop] only sets the
    counter to 0; in any case what it does is the same whatever the counter
    was.  Hence, in every run of the stream from its creation, each stop of
    the read loop (which clears the timer and the last emitted index) comes
    right after five reads without data, with no ['readable'] and no chunk
    between them: idle iterations are not accumulated across a
    ['readable']. *)
Theorem chunker_readable_resets_idle_counter :
  (forall (c : t) (env : list observation),
      readInterval c = true ->
      startReadLoop c env =
        (mk (startTime c) (chunkDuration c) (chunkSize c) true (lastEmittedChunkIndex c) 0,
         [Readable], Returned env))
  /\ (forall (c : t) (n : Z) (env : list observation),
        startReadLoop
          (mk (startTime c) (chunkDuration c) (chunkSize c) (readInterval c)
              (lastEmittedChunkIndex c) n) env
        = startReadLoop c env)
  /\ (forall (start duration size : Z) (evs : list event) (env : list observation)
             (before after : list entry),
        history start duration size evs env = before ++ Stopped :: after ->
        exists before', before = before' ++ [NoData; NoData; NoData; NoData; NoData]).
Proof.
  split; [|split].
  - intros c env Hrun. unfold startReadLoop. now rewrite Hrun.
  - intros c n env. reflexivity.
  - intros start duration size evs env before after Hh.
    assert (Hc : idle_ok (create start duration size))
      by (unfold idle_ok, MIN_LOOP_ITERATION_WITHOUT_DATA_TO_STOP_READING; simpl; lia).
    pose proof (run_idle evs (create start duration size) env Hc) as H.
    unfold history in Hh. rewrite Hh in H.
    apply stops_after_before_stop in H. exact H.
Qed.

Lemma chunker_readable_resets_idle_counter_witness :
  exists before',
    [Readable; Emitted (mkOutput 2 [1; 2; 3; 4]) (mkObs 1050 1050 (Some [1; 2; 3; 4]));
     NoData; NoData; Readable; NoData; NoData; NoData; NoData; NoData]
    = before' ++ [NoData; NoData; NoData; NoData; NoData].
Proof.
  apply (proj2 (proj2 chunker_readable_resets_idle_counter) 1000 20 4
           [OnReadable; OnTick; OnReadable; OnTick; OnTick; OnTick; OnTick; OnTick;
            OnTick; OnReadable]
           [mkObs 1050 1050 (Some [1; 2; 3; 4]); mkObs 1060 1060 None;
            mkObs 1080 1080 None; mkObs 1100 1100 None; mkObs 1120 1120 None;
            mkObs 1140 1140 None; mkObs 1160 1160 None; mkObs 1180 1180 None;
            mkObs 1200 1200 None]
           _ [Readable; NoData]).
  reflexivity.
Defined.

(** ** The size of the chunks *)

Lemma skipn_repeat_zeros (k n : nat) : skipn k (repeat 0 n) = repeat 0 (n - k).
Proof.
  revert k. induction n as [|n IH]; intros k; simpl.
  - now destruct k.
  - destruct k; simpl; [reflexivity | apply IH].
Qed.

Lemma complete_spec (size : Z) (chunk0 chunk1 : list Z) :
  complete size chunk0 = Some chunk1 ->
  Z.of_nat (length chunk1) = size /\
  Z.of_nat (length chunk0) <= size /\
  chunk1 = chunk0 ++ repeat 0 (Z.to_nat (size - Z.of_nat (length chunk0))).
Proof.
  unfold complete. destruct (Z.of_nat (length chunk0) =? size) eqn:E.
  - apply Z.eqb_eq in E. intros H; inversion H; subst chunk1.
    split; [assumption|]. split; [lia|].
    rewrite E, Z.sub_diag. simpl. now rewrite app_nil_r.
  - unfold Bytes.alloc. destruct (size <? 0) eqn:Es; [discriminate|].
    apply Z.ltb_ge in Es. unfold Bytes.set. rewrite repeat_length, Z2Nat.id by assumption.
    simpl. destruct (Z.of_nat (length chunk0) >? size) eqn:Eg; [discriminate|].
    rewrite Z.gtb_ltb in Eg. apply Z.ltb_ge in Eg.
    intros H; inversion H; subst chunk1; clear H.
    rewrite skipn_repeat_zeros.
    replace (Z.to_nat size - length chunk0)%nat
      with (Z.to_nat (size - Z.of_nat (length chunk0))) by lia.
    split; [|split; [assumption | reflexivity]].
    rewrite length_app, repeat_length. lia.
Qed.

Lemma pushNecessaryChunks_padded (env : list observation) :
  forall c,
    chunkSize (fst (fst (_pushNecessaryChunks c env))) = chunkSize c /\
    Forall (padded (chunkSize c)) (snd (fst (_pushNecessaryChunks c env))).
Proof.
  induction env as [|o env' IH]; intros c; simpl; [split; [reflexivity | constructor]|].
  destruct (_ <? 0); [split; [reflexivity | constructor]|].
  destruct (read o) as [chunk0|] eqn:Er.
  - destruct (complete (chunkSize c) chunk0) as [chunk1|] eqn:Ec;
      [|split; [reflexivity | constructor]].
    set (c1 := mk _ _ _ _ _ 0). destruct (IH c1) as (Hsize & Hall).
    destruct (_pushNecessaryChunks c1 env') as [[c2 log] e]; simpl in *.
    split; [assumption|]. constructor; [|assumption].
    destruct (complete_spec _ _ _ Ec) as (H1 & H2 & H3).
    simpl. split; [assumption|]. exists chunk0. auto.
  - destruct (_ >=? _); simpl; split; try reflexivity; repeat constructor.
Qed.

Lemma handle_padded (c : t) (ev : event) (env : list observation) :
  chunkSize (fst (fst (handle c ev env))) = chunkSize c /\
  Forall (padded (chunkSize c)) (snd (fst (handle c ev env))).
Proof.
  destruct ev; simpl.
  - unfold startReadLoop. destruct (readInterval c); [simpl; split; repeat constructor|].
    set (c0 := mk _ _ _ _ _ 0). destruct (pushNecessaryChunks_padded env c0) as (Hs & Hall).
    destruct (_pushNecessaryChunks c0 env) as [[c1 log] e]; simpl in *.
    destruct e; simpl; (split; [assumption | constructor; [exact I | assumption]]).
  - destruct (readInterval c); [apply pushNecessaryChunks_padded|].
    simpl; split; [reflexivity | constructor].
Qed.

Lemma run_padded (evs : list event) :
  forall c env, Forall (padded (chunkSize c)) (snd (run c evs env)).
Proof.
  induction evs as [|ev evs' IH]; intros c env; simpl; [constructor|].
  destruct (handle_padded c ev env) as (Hs & Hall).
  destruct (handle c ev env) as [[c1 log1] e]; simpl in *.
  destruct e as [env'| |]; simpl; try assumption.
  specialize (IH c1 env'). rewrite Hs in IH.
  destruct (run c1 evs' env') as [c2 log2]; simpl in *.
  apply Forall_app; split; assumption.
Qed.

(** An iteration of the loop for which a chunk is due and the source has
    data writes the chunk and goes on. *)
Lemma pushNecessaryChunks_emit (c : t) (o : observation) (env : list observation)
      (idx : Z) (chunk0 chunk1 : list Z) :
  idx = (if lastEmittedChunkIndex c =? -1
         then (now_index o - startTime c) / chunkDuration c
         else lastEmittedChunkIndex c + 1) ->
  idx * chunkDuration c <= now_latency o - startTime c ->
  read o = Some chunk0 ->
  complete (chunkSize c) chunk0 = Some chunk1 ->
  _pushNecessaryChunks c (o :: env) =
  (let '(c2, log, e) :=
     _pushNecessaryChunks
       (mk (startTime c) (chunkDuration c) (chunkSize c) (readInterval c) idx 0) env in
   (c2, Emitted (mkOutput idx chunk1) o :: log, e)).
Proof.
  intros Hidx Hdue Hread Hcomplete. cbn [_pushNecessaryChunks]. rewrite <- Hidx.
  replace (now_latency o - startTime c - idx * chunkDuration c <? 0) with false
    by (symmetry; apply Z.ltb_ge; lia).
  now rewrite Hread, Hcomplete.
Qed.

Lemma complete_short (size : Z) (chunk0 : list Z) :
  Z.of_nat (length chunk0) <= size ->
  complete size chunk0 =
  Some (chunk0 ++ repeat 0 (Z.to_nat (size - Z.of_nat (length chunk0)))).
Proof.
  intros Hle.
  assert (Hsome : exists chunk1, complete size chunk0 = Some chunk1).
  { unfold complete. destruct (Z.of_nat (length chunk0) =? size); [eauto|].
    unfold Bytes.alloc. replace (size <? 0) with false by (symmetry; apply Z.ltb_ge; lia).
    apply Bytes_set_fits; [lia|]. rewrite repeat_length. lia. }
  destruct Hsome as (chunk1 & H). rewrite H.
  now destruct (complete_spec _ _ _ H) as (_ & _ & ->).
Qed.

(** The short tail: a full chunk and then three bytes at the end of the
    source give the full chunk and the three bytes completed with zeros. *)
Lemma chunker_short_tail (start duration size t : Z) (full : list Z) (b1 b2 b3 : Z) :
  0 < duration -> start <= t -> 3 <= size -> Z.of_nat (length full) = size ->
  outputs (history start duration size [OnReadable]
             [mkObs t t (Some full);
              mkObs (t + duration) (t + duration) (Some [b1; b2; b3]);
              mkObs (t + 2 * duration) (t + 2 * duration) None])
  = [mkOutput ((t - start) / duration) full;
     mkOutput ((t - start) / duration + 1) ([b1; b2; b3] ++ repeat 0 (Z.to_nat (size - 3)))].
Proof.
  intros Hd Ht Hsize Hfull.
  set (k := (t - start) / duration).
  assert (Hk0 : 0 <= k) by (apply Z.div_pos; lia).
  assert (Hk : k * duration <= t - start)
    by (unfold k; rewrite Z.mul_comm; apply Z.mul_div_le; lia).
  set (o1 := mkObs t t (Some full)).
  set (o2 := mkObs (t + duration) (t + duration) (Some [b1; b2; b3])).
  set (o3 := mkObs (t + 2 * duration) (t + 2 * duration) None).
  set (tail := [b1; b2; b3] ++ repeat 0 (Z.to_nat (size - 3))).
  assert (E3 : _pushNecessaryChunks (mk start duration size false (k + 1) 0) [o3]
               = (mk start duration size false (k + 1) 1, [NoData], Returned [])).
  { cbn [_pushNecessaryChunks startTime chunkDuration chunkSize lastEmittedChunkIndex
         readInterval now_index now_latency read loopIterationWithoutData o3].
    replace (k + 1 =? -1) with false by (symmetry; apply Z.eqb_neq; lia).
    replace (t + 2 * duration - start - (k + 1 + 1) * duration <? 0) with false
      by (symmetry; apply Z.ltb_ge; lia).
    reflexivity. }
  assert (E2 : _pushNecessaryChunks (mk start duration size false k 0) [o2; o3]
               = (mk start duration size false (k + 1) 1,
                  [Emitted (mkOutput (k + 1) tail) o2; NoData], Returned [])).
  { rewrite (pushNecessaryChunks_emit _ o2 [o3] (k + 1) [b1; b2; b3] tail).
    - cbn [startTime chunkDuration chunkSize readInterval]. now rewrite E3.
    - cbn [lastEmittedChunkIndex].
      replace (k =? -1) with false by (symmetry; apply Z.eqb_neq; lia). reflexivity.
    - cbn [startTime chunkDuration now_latency o2]. lia.
    - reflexivity.
    - cbn [chunkSize]. rewrite complete_short; [reflexivity | simpl; lia]. }
  assert (E1 : _pushNecessaryChunks (mk start duration size false (-1) 0) [o1; o2; o3]
               = (mk start duration size false (k + 1) 1,
                  [Emitted (mkOutput k full) o1; Emitted (mkOutput (k + 1) tail) o2; NoData],
                  Returned [])).
  { rewrite (pushNecessaryChunks_emit _ o1 [o2; o3] k full full).
    - cbn [startTime chunkDuration chunkSize readInterval]. now rewrite E2.
    - reflexivity.
    - cbn [startTime chunkDuration now_latency o1]. lia.
    - reflexivity.
    - cbn [chunkSize]. unfold complete. now rewrite Hfull, Z.eqb_refl. }
  unfold history, create. cbn [run handle]. unfold startReadLoop.
  cbn [readInterval startTime chunkDuration chunkSize lastEmittedChunkIndex].
  rewrite E1. reflexivity.
Qed.

(** C5.  Every chunk the chunker writes has exactly [chunkSize] bytes: it is
    what the read of its iteration returned, followed by zeros up to
    [chunkSize] (none when the read returned a full chunk).  For instance a
    source that holds [chunkSize + 3] bytes and is then closed, so that the
    reads return a full chunk, then the three bytes, then nothing, gives two
    chunks: the full one, and the three bytes followed by [chunkSize - 3]
    zeros. *)
Theorem chunker_chunks_have_chunk_size :
  (forall (start duration size : Z) (evs : list event) (env : list observation)
          (out : Chunk) (o : observation),
      In (Emitted out o) (history start duration size evs env) ->
      Z.of_nat (length (chunk out)) = size /\
      exists r, read o = Some r /\
                Z.of_nat (length r) <= size /\
                chunk out = r ++ repeat 0 (Z.to_nat (size - Z.of_nat (length r))))
  /\ (forall (start duration size t : Z) (full : list Z) (b1 b2 b3 : Z),
        0 < duration -> start <= t -> 3 <= size -> Z.of_nat (length full) = size ->
        outputs (history start duration size [OnReadable]
                   [mkObs t t (Some full);
                    mkObs (t + duration) (t + duration) (Some [b1; b2; b3]);
                    mkObs (t + 2 * duration) (t + 2 * duration) None])
        = [mkOutput ((t - start) / duration) full;
           mkOutput ((t - start) / duration + 1)
                    ([b1; b2; b3] ++ repeat 0 (Z.to_nat (size - 3)))]).
Proof.
  split.
  - intros start duration size evs env out o Hin.
    pose proof (run_padded evs (create start duration size) env) as Hall.
    rewrite Forall_forall in Hall. exact (Hall _ Hin).
  - exact chunker_short_tail.
Qed.

Lemma chunker_chunks_have_chunk_size_witness :
  Z.of_nat (length [1; 2; 3; 0; 0; 0; 0; 0]) = 8 /\
  outputs (history 1000 20 8 [OnReadable]
             [mkObs 1050 1050 (Some [1; 2; 3; 4; 5; 6; 7; 8]);
              mkObs 1070 1070 (Some [1; 2; 3]); mkObs 1090 1090 None])
  = [mkOutput 2 [1; 2; 3; 4; 5; 6; 7; 8]; mkOutput 3 [1; 2; 3; 0; 0; 0; 0; 0]].
Proof.
  split.
  - apply (proj1 chunker_chunks_have_chunk_size 1000 20 8 [OnReadable]
             [mkObs 1050 1050 (Some [1; 2; 3; 4; 5; 6; 7; 8]);
              mkObs 1070 1070 (Some [1; 2; 3]); mkObs 1090 1090 None]
             (mkOutput 3 [1; 2; 3; 0; 0; 0; 0; 0]) (mkObs 1070 1070 (Some [1; 2; 3]))).
    vm_compute. right. right. left. reflexivity.
  - apply (proj2 chunker_chunks_have_chunk_size 1000 20 8 1050 [1; 2; 3; 4; 5; 6; 7; 8] 1 2 3);
      [lia | lia | lia | reflexivity].
Defined.

(** ** The indices *)

Lemma tracks_ext (c c' : t) (prev : option Z) (restart : bool) (T : Z) :
  startTime c' = startTime c -> chunkDuration c' = chunkDuration c ->
  lastEmittedChunkIndex c' = lastEmittedChunkIndex c ->
  tracks c prev restart T -> tracks c' prev restart T.
Proof. unfold tracks. intros -> -> ->. auto. Qed.

Lemma tracks_later (c : t) (prev : option Z) (restart : bool) (T T' : Z) :
  T <= T' -> tracks c prev restart T -> tracks c prev restart T'.
Proof.
  unfold tracks. intros Hle (Hs & H). split; [lia|].
  destruct restart; [|exact H]. destruct H as (Hl & Hp). split; [exact Hl|].
  intros p Hprev. specialize (Hp p Hprev). lia.
Qed.

Lemma pushNecessaryChunks_index_law (env : list observation) :
  forall (c : t) (prev : option Z) (restart : bool) (T : Z),
    0 < chunkDuration c ->
    tracks c prev restart T ->
    nondecreasing_from T (readings env) ->
    keeps_index_law (startTime c) (chunkDuration c) prev restart (_pushNecessaryChunks c env).
Proof.
  induction env as [|o env' IH]; intros c prev restart T Hd Htr Hclock.
  - simpl. split; [reflexivity|]. split; [reflexivity|].
    exists prev, restart, T. split; [exact Htr|]. split; [discriminate | auto].
  - simpl in Hclock. destruct Hclock as (H1 & H2 & Hclock').
    cbn [_pushNecessaryChunks].
    set (idx := if lastEmittedChunkIndex c =? -1
                then (now_index o - startTime c) / chunkDuration c
                else lastEmittedChunkIndex c + 1).
    pose proof (tracks_later c prev restart T (now_latency o) ltac:(lia) Htr) as Htr'.
    (* what the state says of the index of this iteration *)
    assert (Hidx : 0 <= idx /\
                   (if restart then idx = (now_index o - startTime c) / chunkDuration c
                    else match prev with Some p => idx = p + 1 | None => False end) /\
                   (forall p, prev = Some p -> p < idx)).
    { unfold tracks in Htr. destruct Htr as (Hs & Htr). unfold idx. destruct restart.
      - destruct Htr as (Hl & Hp). rewrite Hl. simpl.
        split; [apply Z.div_pos; lia|]. split; [reflexivity|].
        intros p Hprev. specialize (Hp p Hprev).
        assert (p + 1 <= (now_index o - startTime c) / chunkDuration c)
          by (apply Z.div_le_lower_bound; lia).
        lia.
      - destruct Htr as (p & Hprev & Hl & Hp0). rewrite Hl.
        replace (p =? -1) with false by (symmetry; apply Z.eqb_neq; lia).
        rewrite Hprev. split; [lia|]. split; [reflexivity|].
        intros q Hq. inversion Hq; subst. lia. }
    destruct Hidx as (Hidx0 & Hidx1 & Hidx2).
    destruct (now_latency o - startTime c - idx * chunkDuration c <? 0) eqn:Elat.
    + (* the chunk is in the future *)
      split; [reflexivity|]. split; [reflexivity|].
      exists prev, restart, (now_latency o). split; [exact Htr'|].
      split; [intros rest Hr; inversion Hr; subst; exact Hclock' | auto].
    + apply Z.ltb_ge in Elat. destruct (read o) as [chunk0|].
      * destruct (complete (chunkSize c) chunk0) as [chunk1|].
        -- (* a chunk is written *)
           set (c1 := mk (startTime c) (chunkDuration c) (chunkSize c) (readInterval c) idx 0).
           assert (Htr1 : tracks c1 (Some idx) false (now_latency o)).
           { unfold tracks; simpl. split; [destruct Htr'; assumption|]. exists idx. auto. }
           specialize (IH c1 (Some idx) false (now_latency o) Hd Htr1 Hclock').
           destruct (_pushNecessaryChunks c1 env') as [[c2 log] e].
           destruct IH as (Hs & Hdur & prev' & restart' & T' & Htr2 & Hrest & Hlaw).
           split; [exact Hs|]. split; [exact Hdur|].
           exists prev', restart', T'. split; [exact Htr2|]. split; [exact Hrest|].
           intros tail Htail. simpl. split; [exact Hidx1|]. split; [exact Hidx2|].
           split; [lia|]. now apply Hlaw.
        -- (* completing the chunk threw *)
           split; [reflexivity|]. split; [reflexivity|].
           exists prev, restart, (now_latency o).
           split; [apply (tracks_ext c); auto|]. split; [discriminate | auto].
      * destruct (loopIterationWithoutData c + 1
                  >=? MIN_LOOP_ITERATION_WITHOUT_DATA_TO_STOP_READING).
        -- (* the read loop stops *)
           split; [reflexivity|]. split; [reflexivity|].
           exists prev, true, (now_latency o). split.
           { unfold tracks, stopReadLoop; simpl. split; [destruct Htr'; assumption|].
             split; [reflexivity|]. intros p Hprev.
             unfold tracks in Htr'. destruct Htr' as (_ & Htr'). destruct restart.
             - destruct Htr' as (_ & Hp). now apply Hp.
             - rewrite Hprev in Hidx1. lia. }
           split; [intros rest Hr; inversion Hr; subst; exact Hclock'|].
           intros tail Htail. exact Htail.
        -- split; [reflexivity|]. split; [reflexivity|].
           exists prev, restart, (now_latency o).
           split; [apply (tracks_ext c); auto|].
           split; [intros rest Hr; inversion Hr; subst; exact Hclock'|].
           intros tail Htail. exact Htail.
Qed.

Lemma handle_index_law (c : t) (ev : event) (env : list observation)
      (prev : option Z) (restart : bool) (T : Z) :
  0 < chunkDuration c ->
  tracks c prev restart T ->
  nondecreasing_from T (readings env) ->
  keeps_index_law (startTime c) (chunkDuration c) prev restart (handle c ev env).
Proof.
  intros Hd Htr Hclock.
  assert (Hidle : keeps_index_law (startTime c) (chunkDuration c) prev restart
                                  (c, [], Returned env)).
  { split; [reflexivity|]. split; [reflexivity|]. exists prev, restart, T.
    split; [exact Htr|]. split; [intros rest Hr; inversion Hr; subst; exact Hclock | auto]. }
  destruct ev; simpl.
  - unfold startReadLoop.
    set (c0 := mk (startTime c) (chunkDuration c) (chunkSize c) (readInterval c)
                  (lastEmittedChunkIndex c) 0).
    assert (Htr0 : tracks c0 prev restart T) by (apply (tracks_ext c); auto).
    destruct (readInterval c) eqn:Erun.
    + split; [reflexivity|]. split; [reflexivity|]. exists prev, restart, T.
      split; [exact Htr0|].
      split; [intros rest Hr; inversion Hr; subst; exact Hclock | auto].
    + pose proof (pushNecessaryChunks_index_law env c0 prev restart T Hd Htr0 Hclock) as H.
      destruct (_pushNecessaryChunks c0 env) as [[c1 log] e].
      destruct H as (Hs & Hdur & prev' & restart' & T' & Htr1 & Hrest & Hlaw).
      simpl in Hs, Hdur.
      assert (Hgoal : forall c', startTime c' = startTime c1 ->
                                 chunkDuration c' = chunkDuration c1 ->
                                 lastEmittedChunkIndex c' = lastEmittedChunkIndex c1 ->
                keeps_index_law (startTime c) (chunkDuration c) prev restart
                                (c', Readable :: log, e)).
      { intros c' E1 E2 E3. split; [congruence|]. split; [congruence|].
        exists prev', restart', T'. split; [apply (tracks_ext c1); auto|].
        split; [exact Hrest|]. intros tail Htail. simpl. now apply Hlaw. }
      destruct e; apply Hgoal; reflexivity.
  - destruct (readInterval c); [|exact Hidle].
    now apply (pushNecessaryChunks_index_law env c prev restart T).
Qed.

Lemma run_index_law (evs : list event) :
  forall (c : t) (env : list observation) (prev : option Z) (restart : bool) (T : Z),
    0 < chunkDuration c ->
    tracks c prev restart T ->
    nondecreasing_from T (readings env) ->
    follows_index_law (startTime c) (chunkDuration c) prev restart (snd (run c evs env)).
Proof.
  induction evs as [|ev evs' IH]; intros c env prev restart T Hd Htr Hclock; simpl;
    [exact I|].
  pose proof (handle_index_law c ev env prev restart T Hd Htr Hclock) as H.
  destruct (handle c ev env) as [[c1 log1] e].
  destruct H as (Hs & Hdur & prev' & restart' & T' & Htr1 & Hrest & Hlaw).
  destruct e as [env'| |]; simpl.
  - specialize (IH c1 env' prev' restart' T').
    rewrite Hs, Hdur in IH. specialize (IH Hd Htr1 (Hrest env' eq_refl)).
    destruct (run c1 evs' env') as [c2 log2]; simpl in *. now apply Hlaw.
  - rewrite <- (app_nil_r log1). now apply Hlaw.
  - rewrite <- (app_nil_r log1). now apply Hlaw.
Qed.

(** What the index law says of a history, read without the accumulators. *)

Lemma index_law_increasing (start duration : Z) (h : list entry) :
  forall prev restart,
    follows_index_law start duration prev restart h ->
    (forall p, prev = Some p -> Forall (fun j => p < j) (indices h)) /\
    strictly_increasing (indices h).
Proof.
  unfold strictly_increasing, indices.
  induction h as [|e tl IH]; intros prev restart H; simpl.
  - split; [intros; constructor | constructor].
  - destruct e as [| | |out o]; simpl in H; try (now apply (IH _ _ H)).
    destruct H as (_ & Hprev & _ & H). destruct (IH _ _ H) as (Hall & Hsorted).
    specialize (Hall (i out) eq_refl). simpl. split.
    + intros p Hp. specialize (Hprev p Hp). constructor; [exact Hprev|].
      eapply Forall_impl; [|exact Hall]. intros j Hj; simpl in Hj. lia.
    + constructor; assumption.
Qed.









End ChunkerFacts.

(** * More on the orderer *)

Section OrdererMore.

Import Orderer.

(** X1.  Between two writes the buffer of the orderer is sorted by index,
    its head does not carry the next emittable index, and (for a positive
    [maxUnorderedChunks]) it holds fewer than [maxUnorderedChunks] frames. *)
Theorem orderer_buffer_invariant (maxUnordered : Z) (ds : list Chunk) :
  1 <= maxUnordered ->
  sorted_by_i (buffer (final maxUnordered ds)) /\
  (forall c, hd_error (buffer (final maxUnordered ds)) = Some c ->
             i c <> nextEmittableChunkIndex (final maxUnordered ds)) /\
  Z.of_nat (length (buffer (final maxUnordered ds))) < maxUnordered.
Proof.
  intros Hmax. destruct (final_inv maxUnordered ds) as ((Hs & Hset & Hlen) & Hm).
  split; [exact Hs|]. split; [exact Hset|]. rewrite Hm in Hlen. lia.
Qed.

Lemma orderer_buffer_invariant_witness :
  sorted_by_i (buffer (final 10 (frames (fun _ => [1]) [0; 5; 3; 3; 9]))) /\
  Z.of_nat (length (buffer (final 10 (frames (fun _ => [1]) [0; 5; 3; 3; 9])))) < 10.
Proof.
  destruct (orderer_buffer_invariant 10 (frames (fun _ => [1]) [0; 5; 3; 3; 9]))
    as (Hs & _ & Hlen); [lia|]. split; assumption.
Defined.

Lemma run_in_order (ds : list Chunk) :
  forall (o : t) (k : Z),
    buffer o = [] ->
    nextEmittableChunkIndex o = -1 \/ nextEmittableChunkIndex o = k ->
    map i ds = consecutive k (length ds) ->
    run o ds =
    (match ds with
     | [] => o
     | _ :: _ => mk (maxUnorderedChunks o) [] (k + Z.of_nat (length ds))
     end, ds).
Proof.
  induction ds as [|d tl IH]; intros o k Hbuf Hnext Hidx; [reflexivity|].
  simpl in Hidx. injection Hidx as Hd Htl.
  assert (Hw : write o d = (mk (maxUnorderedChunks o) [] (k + 1), [d])).
  { unfold write. rewrite Hbuf.
    assert (E0 : (if nextEmittableChunkIndex o =? -1 then i d
                  else nextEmittableChunkIndex o) = k).
    { destruct Hnext as [H|H]; rewrite H; [exact Hd|].
      destruct (k =? -1); [exact Hd | reflexivity]. }
    rewrite E0, Hd, Z.ltb_irrefl, Z.eqb_refl. reflexivity. }
  simpl run. rewrite Hw.
  rewrite (IH (mk (maxUnorderedChunks o) [] (k + 1)) (k + 1) eq_refl (or_intror eq_refl) Htl).
  destruct tl as [|d' tl']; simpl; [reflexivity|].
  do 2 f_equal. lia.
Qed.

(** X2.  Frames that come in order pass straight through: when the indices
    written are consecutive, whatever [maxUnorderedChunks] is, the orderer
    emits exactly the frames written, in the same order, and keeps nothing
    in its buffer. *)
Theorem orderer_in_order_passthrough (maxUnordered k : Z) (ds : list Chunk) :
  map i ds = consecutive k (length ds) ->
  emitted maxUnordered ds = ds /\ buffer (final maxUnordered ds) = [].
Proof.
  intros Hidx. unfold emitted, final.
  rewrite (run_in_order ds (create maxUnordered) k eq_refl (or_introl eq_refl) Hidx).
  split; [reflexivity|]. now destruct ds.
Qed.

Lemma orderer_in_order_passthrough_witness :
  emitted 1 (frames (fun k => [k; k]) [7; 8; 9; 10]) = frames (fun k => [k; k]) [7; 8; 9; 10] /\
  buffer (final 1 (frames (fun k => [k; k]) [7; 8; 9; 10])) = [].
Proof.
  apply (orderer_in_order_passthrough 1 7 (frames (fun k => [k; k]) [7; 8; 9; 10])).
  reflexivity.
Defined.





(** ** Reordering *)

Lemma consecutive_length (n : nat) : forall k, length (consecutive k n) = n.
Proof. induction n as [|n IH]; intros k; simpl; [reflexivity | now rewrite IH]. Qed.

Lemma consecutive_app (a b : nat) :
  forall k, consecutive k (a + b) = consecutive k a ++ consecutive (k + Z.of_nat a) b.
Proof.
  induction a as [|a IH]; intros k.
  - simpl. now rewrite Z.add_0_r.
  - change (S a + b)%nat with (S (a + b)). cbn [consecutive app]. rewrite IH.
    do 3 f_equal. lia.
Qed.

Lemma consecutive_bounds (n : nat) (k j : Z) :
  In j (consecutive k n) <-> k <= j < k + Z.of_nat n.
Proof.
  revert k. induction n as [|n IH]; intros k; simpl.
  - split; [intros [] | lia].
  - rewrite IH. split.
    + intros [<-|H]; lia.
    + intros H. destruct (Z.eq_dec k j); [now left | right; lia].
Qed.

Lemma consecutive_NoDup (n : nat) : forall k, NoDup (consecutive k n).
Proof.
  induction n as [|n IH]; intros k; simpl; constructor; [|apply IH].
  rewrite consecutive_bounds. lia.
Qed.

(** Below [maxUnordered] frames the forced restart does nothing. *)
Lemma overflow_below (maxUnordered : Z) (buf : list Chunk) (next : Z) :
  Z.of_nat (length buf) < maxUnordered ->
  overflow maxUnordered buf next = ([], (buf, next)).
Proof.
  intros Hlt. destruct buf as [|head tl]; [reflexivity|]. unfold overflow.
  replace (Z.of_nat (length (head :: tl)) >=? maxUnordered) with false; [reflexivity|].
  symmetry. rewrite Z.geb_leb. apply Z.leb_gt. exact Hlt.
Qed.

(** Frames with distinct indices strictly between [lo] and [hi] are fewer
    than the integers there. *)
Lemma strictly_sorted_bounded (l : list Chunk) :
  forall lo hi,
    strictly_sorted l -> Forall (fun c => lo < i c < hi) l -> l <> [] ->
    Z.of_nat (length l) <= hi - lo - 1.
Proof.
  induction l as [|c tl IH]; intros lo hi Hs Hb Hne; [now elim Hne|].
  inversion Hs as [|? ? Hs' Hc]; subst. inversion Hb as [|? ? Hc0 Hb']; subst.
  destruct tl as [|c' tl']; [simpl; lia|].
  assert (Htl : Z.of_nat (length (c' :: tl')) <= hi - i c - 1).
  { apply IH; [exact Hs' | | discriminate].
    rewrite Forall_forall in *. intros x Hx. specialize (Hc x Hx). specialize (Hb' x Hx). lia. }
  change (length (c :: c' :: tl')) with (S (length (c' :: tl'))). lia.
Qed.

(** One more frame of a run of distinct indices from [k] on, with room left
    in the buffer: what has been emitted stays the run of the indices from
    [k], and what has been received stays what has been emitted together
    with what is buffered. *)
Lemma write_restores (k maxUnordered : Z) (o : t) (seen E : list Chunk) (d : Chunk) :
  0 <= k ->
  maxUnorderedChunks o = maxUnordered ->
  (1 <= length E)%nat ->
  nextEmittableChunkIndex o = k + Z.of_nat (length E) ->
  map i E = consecutive k (length E) ->
  Permutation seen (E ++ buffer o) ->
  strictly_sorted (buffer o) ->
  above (nextEmittableChunkIndex o) (buffer o) ->
  k <= i d -> ~ In (i d) (map i seen) ->
  Z.of_nat (length seen) + 1 <= maxUnordered ->
  let o' := fst (write o d) in
  let E' := E ++ snd (write o d) in
  maxUnorderedChunks o' = maxUnordered /\
  nextEmittableChunkIndex o' = k + Z.of_nat (length E') /\
  map i E' = consecutive k (length E') /\
  Permutation (seen ++ [d]) (E' ++ buffer o') /\
  strictly_sorted (buffer o') /\
  above (nextEmittableChunkIndex o') (buffer o').
Proof.
  intros Hk Hmax HE Hnext Hrun Hperm Hs Hab Hd Hnew Hroom.
  assert (Hlen : length seen = (length E + length (buffer o))%nat)
    by (rewrite (Permutation_length Hperm); apply length_app).
  (* the frame is not a late one: the indices below the next one are emitted *)
  assert (Hge : nextEmittableChunkIndex o <= i d).
  { destruct (Z_lt_le_dec (i d) (nextEmittableChunkIndex o)) as [Hlt|Hle]; [|exact Hle].
    exfalso. apply Hnew.
    apply (Permutation_in _ (Permutation_sym (Permutation_map i Hperm))).
    rewrite map_app. apply in_or_app. left.
    assert (Hin : In (i d) (consecutive k (length E))) by (apply consecutive_bounds; lia).
    rewrite <- Hrun in Hin. exact Hin. }
  assert (Hnd : NoDup (map i (buffer o))) by now apply strictly_sorted_NoDup.
  assert (Hfresh : ~ In (i d) (map i (buffer o))).
  { intros Hin. apply Hnew.
    apply (Permutation_in _ (Permutation_sym (Permutation_map i Hperm))).
    rewrite map_app. apply in_or_app. now right. }
  assert (Hcommon : forall out1 buf1 next1,
             Permutation (buffer o ++ [d]) (out1 ++ buf1) ->
             NoDup (map i buf1) ->
             Forall (fun c => next1 <= i c) buf1 ->
             map i out1 = consecutive (nextEmittableChunkIndex o) (length out1) ->
             next1 = nextEmittableChunkIndex o + Z.of_nat (length out1) ->
             forall res,
               res = (let '(out2, (buf3, next3)) :=
                        emitNextChunksInBuffer (sort_by_i buf1) next1 in
                      let '(out3, (buf4, next4)) :=
                        overflow (maxUnorderedChunks o) buf3 next3 in
                      (mk (maxUnorderedChunks o) buf4 next4, out1 ++ out2 ++ out3)) ->
               maxUnorderedChunks (fst res) = maxUnordered /\
               nextEmittableChunkIndex (fst res) = k + Z.of_nat (length (E ++ snd res)) /\
               map i (E ++ snd res) = consecutive k (length (E ++ snd res)) /\
               Permutation (seen ++ [d]) ((E ++ snd res) ++ buffer (fst res)) /\
               strictly_sorted (buffer (fst res)) /\
               above (nextEmittableChunkIndex (fst res)) (buffer (fst res))).
  { intros out1 buf1 next1 Hp1 Hnd1 Hge1 Hrun1 Hnext1 res Hres.
    pose proof (sort_by_i_strict buf1 Hnd1) as Hs2.
    pose proof (sort_by_i_perm buf1) as Hperm2.
    assert (Hge2 : Forall (fun c => next1 <= i c) (sort_by_i buf1))
      by (eapply Permutation_Forall; eassumption).
    destruct (emitNextChunksInBuffer (sort_by_i buf1) next1) as [out2 [buf3 next3]] eqn:E2.
    destruct (emitNextChunksInBuffer_strict _ _ _ _ _ Hs2 Hge2 E2) as (_ & Hs3 & Hab3 & _).
    destruct (emitNextChunksInBuffer_spec _ _ _ _ _ E2) as (Hb2 & Hrun2 & Hnext3 & _).
    assert (Hlen1 : (length out1 + length buf1 = length (buffer o) + 1)%nat).
    { pose proof (Permutation_length Hp1) as L. rewrite !length_app in L. simpl in L.
      symmetry. exact L. }
    assert (Hlen2 : (length out2 + length buf3 = length buf1)%nat).
    { pose proof (sort_by_i_length buf1) as L. rewrite Hb2, length_app in L. exact L. }
    rewrite overflow_below in Hres by (rewrite Hmax; lia).
    subst res. cbn [fst snd maxUnorderedChunks nextEmittableChunkIndex buffer].
    rewrite app_nil_r.
    split; [exact Hmax|]. split; [rewrite !length_app; lia|]. split; [|split; [|auto]].
    - rewrite !map_app, !length_app, !consecutive_app.
      apply (f_equal2 (@app Z)); [exact Hrun|].
      apply (f_equal2 (@app Z)); [rewrite <- Hnext; exact Hrun1|].
      rewrite <- Hnext, <- Hnext1. exact Hrun2.
    - rewrite Hperm, <- !app_assoc. apply Permutation_app_head.
      rewrite Hp1, Hperm2, Hb2. reflexivity. }
  unfold write.
  replace (nextEmittableChunkIndex o =? -1) with false by (symmetry; apply Z.eqb_neq; lia).
  replace (i d <? nextEmittableChunkIndex o) with false by (symmetry; apply Z.ltb_ge; lia).
  destruct (nextEmittableChunkIndex o =? i d) eqn:Eeq.
  - apply Z.eqb_eq in Eeq.
    apply (Hcommon [d] (buffer o) (i d + 1)); try reflexivity.
    + apply Permutation_app_comm.
    + exact Hnd.
    + eapply Forall_impl; [|exact Hab]. intros c Hc; simpl in Hc. lia.
    + now rewrite Eeq.
    + simpl. lia.
  - apply Z.eqb_neq in Eeq.
    apply (Hcommon [] (buffer o ++ [d]) (nextEmittableChunkIndex o)); try reflexivity.
    + rewrite map_app. simpl. apply NoDup_app; [exact Hnd | repeat constructor; auto|].
      intros j Hj [<-|[]]. now apply Hfresh.
    + apply Forall_app; split; [|constructor; [lia | constructor]].
      eapply Forall_impl; [|exact Hab]. intros c Hc; simpl in Hc. lia.
    + simpl. lia.
Qed.

Lemma run_restores (k maxUnordered : Z) (tl : list Chunk) :
  forall (o : t) (seen E : list Chunk),
    0 <= k ->
    maxUnorderedChunks o = maxUnordered ->
    (1 <= length E)%nat ->
    nextEmittableChunkIndex o = k + Z.of_nat (length E) ->
    map i E = consecutive k (length E) ->
    Permutation seen (E ++ buffer o) ->
    strictly_sorted (buffer o) ->
    above (nextEmittableChunkIndex o) (buffer o) ->
    Forall (fun d => k <= i d) tl ->
    NoDup (map i (seen ++ tl)) ->
    Z.of_nat (length seen) + Z.of_nat (length tl) <= maxUnordered ->
    let o' := fst (run o tl) in
    let E' := E ++ snd (run o tl) in
    nextEmittableChunkIndex o' = k + Z.of_nat (length E') /\
    map i E' = consecutive k (length E') /\
    Permutation (seen ++ tl) (E' ++ buffer o') /\
    strictly_sorted (buffer o') /\
    above (nextEmittableChunkIndex o') (buffer o').
Proof.
  induction tl as [|d tl' IH];
    intros o seen E Hk Hmax HE Hnext Hrun Hperm Hs Hab Hlow Hnd Hroom.
  - simpl. rewrite !app_nil_r. auto.
  - apply Forall_cons_iff in Hlow. destruct Hlow as (Hd & Hlow').
    assert (Hnew : ~ In (i d) (map i seen)).
    { rewrite map_app in Hnd. simpl in Hnd. apply NoDup_remove_2 in Hnd.
      intros Hin. apply Hnd. apply in_or_app. now left. }
    simpl length in Hroom.
    destruct (write_restores k maxUnordered o seen E d Hk Hmax HE Hnext Hrun
                Hperm Hs Hab Hd Hnew ltac:(lia))
      as (Hmax1 & Hnext1 & Hrun1 & Hperm1 & Hs1 & Hab1).
    simpl run. destruct (write o d) as [o1 out1]; simpl in Hmax1, Hnext1, Hrun1, Hperm1, Hs1, Hab1.
    assert (HE1 : (1 <= length (E ++ out1))%nat) by (rewrite length_app; lia).
    assert (Hnd1 : NoDup (map i ((seen ++ [d]) ++ tl'))) by (now rewrite <- app_assoc).
    assert (Hroom1 : Z.of_nat (length (seen ++ [d])) + Z.of_nat (length tl')
                     <= maxUnordered).
    { rewrite length_app. simpl length. lia. }
    pose proof (IH o1 (seen ++ [d]) (E ++ out1) Hk Hmax1 HE1 Hnext1 Hrun1 Hperm1 Hs1 Hab1
                   Hlow' Hnd1 Hroom1) as H.
    destruct (run o1 tl') as [o2 out2]; simpl in H |- *.
    rewrite <- (app_assoc seen [d] tl') in H.
    rewrite (app_assoc E out1 out2). exact H.
Qed.

(** X4.  The orderer restores the order.  When the frames written carry,
    each once, the consecutive indices from [k >= 0] on, the first frame
    written being the one of index [k], and they are no more than
    [maxUnorderedChunks], then whatever the order of the others the orderer
    emits all of them, each once and unchanged, in the order of the indices,
    and ends with an empty buffer. *)
Theorem orderer_restores_order (maxUnordered k : Z) (d0 : Chunk) (tl : list Chunk) :
  0 <= k ->
  i d0 = k ->
  Permutation (map i (d0 :: tl)) (consecutive k (length (d0 :: tl))) ->
  Z.of_nat (length (d0 :: tl)) <= maxUnordered ->
  map i (emitted maxUnordered (d0 :: tl)) = consecutive k (length (d0 :: tl)) /\
  Permutation (emitted maxUnordered (d0 :: tl)) (d0 :: tl) /\
  buffer (final maxUnordered (d0 :: tl)) = [].
Proof.
  intros Hk Hd0 Hperm Hroom.
  assert (Hnd : NoDup (map i (d0 :: tl))).
  { eapply Permutation_NoDup; [apply Permutation_sym, Hperm | apply consecutive_NoDup]. }
  assert (Hin : forall d, In d (d0 :: tl) -> k <= i d < k + Z.of_nat (length (d0 :: tl))).
  { intros d Hd. apply consecutive_bounds. eapply Permutation_in; [exact Hperm|].
    now apply in_map. }
  assert (Hw : write (create maxUnordered) d0 = (mk maxUnordered [] (k + 1), [d0])).
  { pose proof (run_in_order [d0] (create maxUnordered) k eq_refl (or_introl eq_refl)) as H.
    simpl in H. destruct (write (create maxUnordered) d0) as [o1 out1].
    rewrite Hd0 in H. specialize (H eq_refl). rewrite app_nil_r in H. exact H. }
  unfold emitted, final. simpl run. rewrite Hw.
  assert (Hlow : Forall (fun d => k <= i d) tl).
  { apply Forall_forall. intros d Hd. apply (Hin d). now right. }
  assert (Hroom' : Z.of_nat (length [d0]) + Z.of_nat (length tl) <= maxUnordered).
  { simpl length in *. lia. }
  assert (Hrun0 : map i [d0] = consecutive k (length [d0])) by (simpl; now rewrite Hd0).
  pose proof (run_restores k maxUnordered tl (mk maxUnordered [] (k + 1)) [d0] [d0]
                Hk eq_refl (le_n 1) ltac:(simpl; lia) Hrun0 (Permutation_refl _)
                ltac:(constructor) ltac:(constructor) Hlow Hnd Hroom')
    as (Hnext & Hrun & Hp & Hs & Hab).
  destruct (run (mk maxUnordered [] (k + 1)) tl) as [o2 out2].
  cbn [fst snd] in Hnext, Hrun, Hp, Hs, Hab |- *.
  pose proof (Permutation_length Hp) as Hl. rewrite !length_app in Hl. cbn [length] in Hl.
  rewrite !length_app in Hnext. cbn [length] in Hnext.
  assert (Hempty : buffer o2 = []).
  { destruct (buffer o2) as [|b btl] eqn:Eb; [reflexivity|]. exfalso.
    assert (Hbound : Z.of_nat (length (b :: btl))
                     <= (k + Z.of_nat (S (length tl))) - nextEmittableChunkIndex o2 - 1).
    { apply strictly_sorted_bounded; [exact Hs | | discriminate].
      unfold above in Hab. rewrite Forall_forall in *. intros c Hc. specialize (Hab c Hc).
      assert (Hc' : In c (d0 :: tl)).
      { eapply Permutation_in; [apply Permutation_sym, Hp|]. apply in_or_app. now right. }
      specialize (Hin c Hc'). cbn [length] in Hin. lia. }
    rewrite Hnext in Hbound. cbn [length] in Hbound, Hl. lia. }
  pose proof Hempty as Hempty'.
  rewrite Hempty in Hp, Hl. rewrite app_nil_r in Hp. cbn [length] in Hl.
  split; [|split; [now apply Permutation_sym | exact Hempty']].
  rewrite Hrun. f_equal. rewrite length_app. cbn [length]. lia.
Qed.

Lemma orderer_restores_order_witness :
  map i (emitted 10 (frames (fun k => [k]) [0; 2; 1; 3; 5; 4])) = [0; 1; 2; 3; 4; 5] /\
  buffer (final 10 (frames (fun k => [k]) [0; 2; 1; 3; 5; 4])) = [].
Proof.
  destruct (orderer_restores_order 10 0 (mkOutput 0 [0]) (frames (fun k => [k]) [2; 1; 3; 5; 4]))
    as (Hidx & _ & Hbuf).
  - lia.
  - reflexivity.
  - simpl. apply perm_skip.
    apply (perm_trans (l' := [1; 2; 3; 5; 4])); [apply perm_swap|].
    do 3 apply perm_skip. apply perm_swap.
  - simpl. lia.
  - split; [exact Hidx | exact Hbuf].
Defined.

(** ** Without duplicates *)

Lemma run_distinct_state (ds : list Chunk) :
  forall o seen,
    orderer_inv_distinct o seen ->
    Forall (fun d => 0 <= i d) ds ->
    NoDup (map i ds) ->
    (forall d, In d ds -> ~ In (i d) seen) ->
    ds <> [] ->
    exists seen',
      orderer_inv_distinct (fst (run o ds)) seen' /\
      0 <= nextEmittableChunkIndex (fst (run o ds)) /\
      increasing_within (first_index o ds) (map i (snd (run o ds)))
                        (nextEmittableChunkIndex (fst (run o ds))).
Proof.
  induction ds as [|d tl IH]; intros o seen Hinv Hpos Hnd Hfresh Hne; [now elim Hne|].
  apply Forall_cons_iff in Hpos. destruct Hpos as (Hd & Hpos').
  simpl in Hnd. apply NoDup_cons_iff in Hnd. destruct Hnd as (Hnotin & Hnd').
  destruct (write_distinct o seen d Hinv Hd (Hfresh d (or_introl eq_refl)))
    as (Hinv1 & Hnext1 & Hinc1).
  simpl run. destruct (write o d) as [o1 out1]; cbn [fst snd] in Hinv1, Hnext1, Hinc1.
  destruct tl as [|d' tl'].
  - simpl. rewrite app_nil_r. exists (i d :: seen). auto.
  - destruct (IH o1 (i d :: seen) Hinv1 Hpos' Hnd') as (seen' & Hinv2 & Hnext2 & Hinc2).
    { intros x Hin [Heq|Hin']; [|now apply (Hfresh x (or_intror Hin))].
      apply Hnotin. rewrite Heq. now apply in_map. }
    { discriminate. }
    destruct (run o1 (d' :: tl')) as [o2 out2]; cbn [fst snd] in *.
    exists seen'. split; [exact Hinv2|]. split; [exact Hnext2|].
    rewrite map_app. apply (increasing_within_app _ (nextEmittableChunkIndex o1)).
    + exact Hinc1.
    + unfold first_index in Hinc2.
      replace (nextEmittableChunkIndex o1 =? -1) with false in Hinc2
        by (symmetry; apply Z.eqb_neq; lia).
      exact Hinc2.
Qed.

(** X5.  When no index is written twice (frames may be lost and may come in
    any order), the orderer emits strictly increasing indices, all below
    the next emittable index, while every frame it still buffers has an index
    beyond the next emittable one, each index once: nothing that is waiting
    has been passed. *)
Theorem orderer_distinct_ordered (maxUnordered : Z) (ds : list Chunk) :
  Forall (fun d => 0 <= i d) ds ->
  NoDup (map i ds) ->
  ds <> [] ->
  strictly_increasing (map i (emitted maxUnordered ds)) /\
  Forall (fun j => j < nextEmittableChunkIndex (final maxUnordered ds))
         (map i (emitted maxUnordered ds)) /\
  Forall (fun c => nextEmittableChunkIndex (final maxUnordered ds) < i c)
         (buffer (final maxUnordered ds)) /\
  NoDup (map i (buffer (final maxUnordered ds))).
Proof.
  intros Hpos Hnd Hne. unfold emitted, final.
  destruct (run_distinct_state ds (create maxUnordered) [])
    as (seen' & (Hs & _ & Hcase) & Hnext & Hinc & Hall & _); auto.
  { unfold orderer_inv_distinct, create; simpl.
    split; [constructor|]. split; [constructor | now left]. }
  split; [exact Hinc|]. split.
  - eapply Forall_impl; [|exact Hall]. intros j Hj; simpl in Hj. lia.
  - split; [|now apply strictly_sorted_NoDup].
    destruct Hcase as [(Hunset & _)|(_ & Hab)]; [lia | exact Hab].
Qed.

Lemma orderer_distinct_ordered_witness :
  strictly_increasing (map i (emitted 3 (frames (fun k => [k]) [4; 9; 7; 12; 5; 20]))) /\
  NoDup (map i (buffer (final 3 (frames (fun k => [k]) [4; 9; 7; 12; 5; 20])))).
Proof.
  destruct (orderer_distinct_ordered 3 (frames (fun k => [k]) [4; 9; 7; 12; 5; 20]))
    as (Hinc & _ & _ & Hnd).
  - repeat constructor; simpl; lia.
  - simpl. repeat constructor; simpl; intuition lia.
  - discriminate.
  - split; assumption.
Defined.

End OrdererMore.

(** * More on the framing stages *)

Section FramingMore.

Import TypedArray Framing.

Lemma be32_mod (v : Z) : be32 (v mod 2 ^ 32) = be32 v.
Proof.
  unfold be32.
  change (2 ^ 32) with 4294967296. change (2 ^ 24) with 16777216.
  change (2 ^ 16) with 65536. change (2 ^ 8) with 256.
  rewrite (Z.mod_eq v 4294967296) by lia.
  set (q := v / 4294967296).
  replace (v - 4294967296 * q) with (v + (- q * 256) * 16777216) at 1 by lia.
  replace (v - 4294967296 * q) with (v + (- q * 65536) * 65536) at 1 by lia.
  replace (v - 4294967296 * q) with (v + (- q * 16777216) * 256) at 1 by lia.
  replace (v - 4294967296 * q) with (v + (- q * 16777216) * 256) by lia.
  rewrite !Z.div_add by lia.
  replace (v / 16777216 + - q * 256) with (v / 16777216 + (- q) * 256) by lia.
  replace (v / 65536 + - q * 65536) with (v / 65536 + (- q * 256) * 256) by lia.
  replace (v / 256 + - q * 16777216) with (v / 256 + (- q * 65536) * 256) by lia.
  now rewrite !Z.mod_add by lia.
Qed.

Lemma of_be32_be32_mod (v : Z) : of_be32 (be32 v) = v mod 2 ^ 32.
Proof.
  rewrite <- be32_mod. apply of_be32_be32. apply Z.mod_pos_bound. reflexivity.
Qed.

(** An array allocated before keeps its bytes when the store grows. *)
Lemma contents_alloc_old (s : store) (bytes : list Z) (v : view) :
  valid s v -> valid (s ++ [bytes]) v /\ contents (s ++ [bytes]) v = contents s v.
Proof.
  intros (Hbuf & Hfit).
  assert (Hb : bufferBytes (s ++ [bytes]) (buffer v) = bufferBytes s (buffer v))
    by now apply bufferBytes_alloc_old.
  split; [|now apply contents_same_buffer].
  unfold valid. rewrite Hb, length_app. simpl. lia.
Qed.

(** Encoding a frame and decoding the record, whatever the index. *)
Lemma encode_then_decode_spec (s : store) (d : Frame) :
  valid s (chunk d) ->
  encode_then_decode s d =
  Ok ((s ++ [be32 (i d) ++ contents s (chunk d)]) ++ [contents s (chunk d)],
      [mkOutput (of_be32 (be32 (i d)))
                (mkView (S (List.length s)) 0 (length (chunk d)))]).
Proof.
  intros Hvalid. pose proof (contents_length s (chunk d) Hvalid) as Hlen.
  unfold encode_then_decode. rewrite (encoder_write_spec s d Hvalid). cbn [decode_each].
  set (s1 := s ++ [be32 (i d) ++ contents s (chunk d)]).
  set (wire := mkView (List.length s) 0 (4 + length (chunk d))).
  assert (Hbb : bufferBytes s1 (buffer wire) = be32 (i d) ++ contents s (chunk d))
    by apply bufferBytes_alloc_new.
  assert (Hwire : contents s1 wire = be32 (i d) ++ contents s (chunk d)).
  { unfold contents at 1. rewrite Hbb. unfold wire. cbn [byteOffset length skipn].
    apply firstn_all2. rewrite length_app, be32_length. lia. }
  rewrite decoder_write_Uint8Array. cbn zeta. rewrite Hwire, Hbb.
  change (byteOffset wire) with 0%nat.
  rewrite length_app, be32_length.
  replace ((0 <=? 4 + List.length (contents s (chunk d)))%nat
           && (4 <=? 4 + List.length (contents s (chunk d)) - 0)%nat) with true
    by (symmetry; apply andb_true_intro; split; apply Nat.leb_le; lia).
  change (skipn 0 (be32 (i d) ++ contents s (chunk d)))
    with (be32 (i d) ++ contents s (chunk d)).
  change (firstn 4 (be32 (i d) ++ contents s (chunk d))) with (be32 (i d)).
  change (skipn 4 (be32 (i d) ++ contents s (chunk d))) with (contents s (chunk d)).
  rewrite Hlen. unfold s1. rewrite length_app. simpl List.length.
  rewrite Nat.add_1_r, app_nil_r. reflexivity.
Qed.

(** X6.  On the wire the index is a 32-bit unsigned integer: whatever the
    index of the frame, encoding and then decoding gives the index modulo
    2^32 (so the index after 2^32 - 1 comes back as 0) with the payload
    unchanged. *)
Theorem framer_index_wraps (s : store) (idx : Z) (p : view) :
  valid s p ->
  exists s2 payload,
    encode_then_decode s (mkOutput idx p) = Ok (s2, [mkOutput (idx mod 2 ^ 32) payload]) /\
    contents s2 payload = contents s p.
Proof.
  intros Hvalid. pose proof (contents_length s p Hvalid) as Hlen.
  rewrite (encode_then_decode_spec s (mkOutput idx p) Hvalid). cbn [i chunk].
  rewrite of_be32_be32_mod. do 2 eexists. split; [reflexivity|].
  unfold contents at 1. cbn [buffer byteOffset length].
  replace (S (List.length s)) with (List.length (s ++ [be32 idx ++ contents s p]))
    by (rewrite length_app; simpl; lia).
  rewrite bufferBytes_alloc_new. cbn [skipn]. apply firstn_all2. lia.
Qed.

Lemma framer_index_wraps_witness :
  exists s2 payload,
    encode_then_decode [[5; 6]] (mkOutput (2 ^ 32 + 3) (mkView 0 0 2))
      = Ok (s2, [mkOutput 3 payload]) /\
    contents s2 payload = [5; 6].
Proof.
  destruct (framer_index_wraps [[5; 6]] (2 ^ 32 + 3) (mkView 0 0 2)) as (s2 & payload & H & Hc).
  - unfold valid; simpl; lia.
  - exists s2, payload. split; [exact H | exact Hc].
Defined.

(** X7.  A [Buffer] record is decoded from the start of the ArrayBuffer
    behind it, whatever the offset and the length of the [Buffer] in it: with
    fewer than 4 bytes in the ArrayBuffer the decoder throws, otherwise the
    index is read from the first four bytes of the ArrayBuffer and the
    payload is all the rest of the ArrayBuffer.  So a [Buffer] that is the
    whole of its ArrayBuffer and holds the four bytes of an index in
    [0, 2^32) followed by a payload is decoded to that index and payload,
    while a [Buffer] that is a window further in a larger ArrayBuffer is
    not. *)
Theorem deframer_Buffer_reads_ArrayBuffer (s : store) (v : view) :
  let bytes := bufferBytes s (buffer v) in
  ((List.length bytes < 4)%nat -> decoder_write s (IsBuffer v) = Throw RangeError) /\
  ((4 <= List.length bytes)%nat ->
   decoder_write s (IsBuffer v) =
   Ok (s ++ [skipn 4 bytes],
       [mkOutput (of_be32 (firstn 4 bytes))
                 (mkView (List.length s) 0 (List.length bytes - 4))])) /\
  (forall idx p,
      0 <= idx < 2 ^ 32 -> bytes = be32 idx ++ p ->
      decoder_write s (IsBuffer v) =
      Ok (s ++ [p], [mkOutput idx (mkView (List.length s) 0 (List.length p))])).
Proof.
  intros bytes.
  assert (Hc : contents s (decoder_input s (IsBuffer v)) = bytes).
  { unfold contents, decoder_input. cbn [buffer byteOffset length skipn]. apply firstn_all. }
  assert (Hemit : (4 <= List.length bytes)%nat ->
                  decoder_write s (IsBuffer v) =
                  Ok (s ++ [skipn 4 bytes],
                      [mkOutput (of_be32 (firstn 4 bytes))
                                (mkView (List.length s) 0 (List.length bytes - 4))])).
  { intros Hlen. rewrite decoder_write_spec. cbn zeta. rewrite Hc.
    cbn [decoder_input buffer byteOffset]. fold bytes.
    change (skipn 0 bytes) with bytes.
    rewrite Nat.sub_0_r, length_skipn.
    replace (4 <=? List.length bytes)%nat with true by (symmetry; now apply Nat.leb_le).
    reflexivity. }
  split; [|split; [exact Hemit|]].
  - intros Hlen. rewrite decoder_write_spec. cbn zeta.
    cbn [decoder_input buffer byteOffset]. fold bytes. rewrite Nat.sub_0_r.
    replace (4 <=? List.length bytes)%nat with false by (symmetry; now apply Nat.leb_gt).
    reflexivity.
  - intros idx p Hidx Hbytes. rewrite Hemit by (rewrite Hbytes, length_app, be32_length; lia).
    rewrite Hbytes, length_app, be32_length.
    change (firstn 4 (be32 idx ++ p)) with (be32 idx).
    change (skipn 4 (be32 idx ++ p)) with p.
    rewrite (of_be32_be32 idx Hidx).
    replace (4 + List.length p - 4)%nat with (List.length p) by lia. reflexivity.
Qed.

Lemma deframer_Buffer_reads_ArrayBuffer_witness :
  decoder_write [[9; 9; 9; 9; 0; 0; 0; 7; 1; 2]] (IsBuffer (mkView 0 4 6))
  = Ok ([[9; 9; 9; 9; 0; 0; 0; 7; 1; 2]; [0; 0; 0; 7; 1; 2]],
        [mkOutput 0x09090909 (mkView 1 0 6)]) /\
  decoder_write [[0; 0; 0; 7; 1; 2]] (IsBuffer (mkView 0 0 6))
  = Ok ([[0; 0; 0; 7; 1; 2]; [1; 2]], [mkOutput 7 (mkView 1 0 2)]).
Proof.
  split.
  - apply (proj1 (proj2 (deframer_Buffer_reads_ArrayBuffer
                           [[9; 9; 9; 9; 0; 0; 0; 7; 1; 2]] (mkView 0 4 6)))).
    simpl. lia.
  - apply (proj2 (proj2 (deframer_Buffer_reads_ArrayBuffer
                           [[0; 0; 0; 7; 1; 2]] (mkView 0 0 6))) 7 [1; 2]).
    + lia.
    + reflexivity.
Defined.

Lemma blit_length (l : list Z) (pos : nat) (data : list Z) :
  (pos + List.length data <= List.length l)%nat ->
  List.length (blit l pos data) = List.length l.
Proof.
  intros H. unfold blit. rewrite !length_app, length_firstn, length_skipn. lia.
Qed.

Lemma contents_length_le (s : store) (v : view) :
  (List.length (contents s v) <= length v)%nat.
Proof. unfold contents. rewrite length_firstn. lia. Qed.

(** The encoder on any frame: one new ArrayBuffer of 4 bytes more than the
    chunk. *)
Lemma encoder_write_allocates (s : store) (d : Frame) :
  exists bytes,
    encoder_write s d = Ok (s ++ [bytes], [mkView (List.length s) 0 (4 + length (chunk d))]) /\
    List.length bytes = (4 + length (chunk d))%nat.
Proof.
  unfold encoder_write, newUint8Array, DataView_setUint32, set. cbn [buffer byteOffset length].
  rewrite bufferBytes_alloc_new, repeat_length.
  replace ((0 <=? 4 + length (chunk d))%nat && (0 + 4 <=? 4 + length (chunk d) - 0)%nat)
    with true
    by (symmetry; apply andb_true_intro; split; apply Nat.leb_le; lia).
  rewrite setBuffer_alloc_new, Nat.leb_refl, bufferBytes_alloc_new, setBuffer_alloc_new.
  eexists. split; [reflexivity|].
  assert (H1 : List.length (blit (repeat 0 (4 + length (chunk d))) (0 + 0) (be32 (i d)))
               = (4 + length (chunk d))%nat).
  { rewrite blit_length; rewrite repeat_length; [reflexivity|]. rewrite be32_length. lia. }
  rewrite blit_length; [exact H1|]. rewrite H1.
  pose proof (contents_length_le
                (s ++ [blit (repeat 0 (4 + length (chunk d))) (0 + 0) (be32 (i d))])
                (chunk d)). lia.
Qed.

(** X8.  The framing stages only allocate.  The encoder never throws: for
    any frame it emits exactly one record, of 4 bytes more than the chunk,
    in a new ArrayBuffer; and neither the encoder nor the decoder, when it
    returns, changes the bytes of an array that existed before the call. *)
Theorem framing_only_allocates :
  (forall (s : store) (d : Frame),
      exists s' wire,
        encoder_write s d = Ok (s', [wire]) /\
        length wire = (4 + length (chunk d))%nat /\
        valid s' wire /\
        forall v, valid s v -> valid s' v /\ contents s' v = contents s v)
  /\
  (forall (s : store) (d : record) (s' : store) (out : list Frame),
      decoder_write s d = Ok (s', out) ->
      forall v, valid s v -> valid s' v /\ contents s' v = contents s v).
Proof.
  split.
  - intros s d. destruct (encoder_write_allocates s d) as (bytes & Henc & Hlen).
    exists (s ++ [bytes]), (mkView (List.length s) 0 (4 + length (chunk d))).
    split; [exact Henc|]. split; [reflexivity|]. split.
    + unfold valid. cbn [buffer byteOffset length].
      rewrite bufferBytes_alloc_new, length_app. simpl. lia.
    + intros v Hv. now apply contents_alloc_old.
  - intros s d s' out Hdec v Hv. rewrite decoder_write_spec in Hdec. cbn zeta in Hdec.
    destruct (_ && _) in Hdec; [|discriminate].
    injection Hdec as <- _. now apply contents_alloc_old.
Qed.

Lemma framing_only_allocates_witness :
  valid [[1; 2; 3; 4; 5; 6]; [7; 8]; [5; 6]] (mkView 1 0 2) /\
  contents [[1; 2; 3; 4; 5; 6]; [7; 8]; [5; 6]] (mkView 1 0 2) = [7; 8].
Proof.
  apply (proj2 framing_only_allocates [[1; 2; 3; 4; 5; 6]; [7; 8]]
           (IsUint8Array (mkView 0 0 6)) _ [mkOutput 0x01020304 (mkView 2 0 2)]).
  - reflexivity.
  - unfold valid; simpl; lia.
Defined.

End FramingMore.

(** * More on the resampler *)

Section ResamplerMore.

Import Resampler ResamplerRun.

(** Resampled data no longer than the alignement buffer is copied in full,
    in one pass or in two. *)
Lemma store_fits (buf : list Z) (bufOffset : Z) (out : list Z) :
  0 <= bufOffset < Z.of_nat (length buf) ->
  Z.of_nat (length out) <= Z.of_nat (length buf) ->
  exists buf', store buf bufOffset out = inr buf'.
Proof.
  intros Hoff Hlen. unfold store.
  set (len := Z.of_nat (length out)) in *. set (cap := Z.of_nat (length buf)) in *.
  destruct (bufOffset + len >? cap) eqn:E.
  - rewrite Z.gtb_ltb in E. apply Z.ltb_lt in E.
    replace (len - (bufOffset + len - cap)) with (0 + (cap - bufOffset)) by lia.
    assert (H1 : Z.of_nat (length (Bytes.subarray out 0 (0 + (cap - bufOffset))))
                 = cap - bufOffset).
    { apply Bytes_subarray_whole; fold len; lia. }
    destruct (Bytes_set_fits buf (Bytes.subarray out 0 (0 + (cap - bufOffset))) bufOffset)
      as (buf1 & Hset1); [lia | fold cap; lia |].
    rewrite Hset1. pose proof (Bytes_set_length _ _ _ _ Hset1) as Hl1.
    replace (Bytes.subarray out (0 + (cap - bufOffset)) len)
      with (Bytes.subarray out (0 + (cap - bufOffset))
                           (0 + (cap - bufOffset) + (bufOffset + len - cap)))
      by (f_equal; lia).
    assert (H2 : Z.of_nat (length (Bytes.subarray out (0 + (cap - bufOffset))
                                     (0 + (cap - bufOffset) + (bufOffset + len - cap))))
                 = bufOffset + len - cap).
    { apply Bytes_subarray_whole; fold len; lia. }
    destruct (Bytes_set_fits buf1
                (Bytes.subarray out (0 + (cap - bufOffset))
                   (0 + (cap - bufOffset) + (bufOffset + len - cap))) 0)
      as (buf2 & Hset2); [lia | rewrite Hl1; fold cap; lia |].
    rewrite Hset2. now exists buf2.
  - rewrite Z.gtb_ltb in E. apply Z.ltb_ge in E.
    destruct (Bytes_set_fits buf out bufOffset) as (buf1 & Hset1);
      [lia | fold len; fold cap; lia |].
    rewrite Hset1. now exists buf1.
Qed.

(** The write offset stays inside the alignement buffer. *)
Lemma write_offset_inside (r : t) (c : call) :
  0 <= bufferOffset r /\ (bufferOffset r < capacity r \/ capacity r = 0) ->
  let r' := fst (fst (write r c)) in
  capacity r' = capacity r /\
  0 <= bufferOffset r' /\ (bufferOffset r' < capacity r' \/ capacity r' = 0).
Proof.
  intros Hoff. unfold write.
  destruct (soxrModule c); simpl; [|auto].
  destruct (Z.of_nat (length (outputChunk c)) =? 0); [simpl; auto|].
  pose proof (store_length (alignementBuffer r) (bufferOffset r) (outputChunk c)) as Hlen.
  destruct (store (alignementBuffer r) (bufferOffset r) (outputChunk c)) as [buf|buf].
  - unfold capacity in *; simpl. rewrite Hlen. auto.
  - destruct (emitLoop buf _ _ _ _) as [es [size' queue']].
    unfold capacity in *; simpl. rewrite Hlen. split; [reflexivity|].
    destruct (Z.eq_dec (Z.of_nat (length (alignementBuffer r))) 0) as [Hz|Hnz].
    + rewrite (Z.rem_0_r_ext _ _ Hz). split; [lia | now right].
    + pose proof (Z.rem_bound_pos (bufferOffset r + Z.of_nat (length (outputChunk c)))
                                  (Z.of_nat (length (alignementBuffer r)))
                                  ltac:(lia) ltac:(lia)).
      split; [lia | left; lia].
Qed.

Lemma write_returns (r : t) (c : call) :
  0 <= bufferOffset r /\ (bufferOffset r < capacity r \/ capacity r = 0) ->
  Z.of_nat (length (outputChunk c)) <= capacity r ->
  snd (write r c) = Returned.
Proof.
  intros (Hoff0 & Hoff) Hfit. unfold write.
  destruct (soxrModule c); simpl; [|reflexivity].
  destruct (Z.of_nat (length (outputChunk c)) =? 0) eqn:E; [reflexivity|].
  apply Z.eqb_neq in E. unfold capacity in *.
  destruct (store_fits (alignementBuffer r) (bufferOffset r) (outputChunk c))
    as (buf & Hstore); [lia | exact Hfit |].
  rewrite Hstore. destruct (emitLoop buf _ _ _ _) as [es [size' queue']]. reflexivity.
Qed.

Lemma outcomes_returned (cs : list call) :
  forall r,
    0 <= bufferOffset r /\ (bufferOffset r < capacity r \/ capacity r = 0) ->
    Forall (fun c => Z.of_nat (length (outputChunk c)) <= capacity r) cs ->
    Forall (fun fin => fin = Returned) (outcomes r cs).
Proof.
  induction cs as [|c tl IH]; intros r Hoff Hfit; simpl; [constructor|].
  apply Forall_cons_iff in Hfit. destruct Hfit as (Hc & Hfit).
  pose proof (write_returns r c Hoff Hc) as Hret.
  destruct (write_offset_inside r c Hoff) as (Hcap & Hoff1).
  destruct (write r c) as [[r1 out1] fin]; simpl in *.
  constructor; [exact Hret|]. apply IH; [exact Hoff1|]. now rewrite Hcap.
Qed.

(** X9.  [write] of a resampler as constructed never throws as long as what
    the soxr module returns for a call is no longer than the alignement
    buffer: the copy into the circular buffer, in one pass or in two, always
    fits. *)
Theorem resampler_write_never_throws
        (SAMPLES MAXLAT channels inRate outRate : Z) (r0 : t) (cs : list call) :
  create SAMPLES MAXLAT channels inRate outRate = Some r0 ->
  Forall (fun c => Z.of_nat (length (outputChunk c)) <= capacity r0) cs ->
  Forall (fun fin => fin = Returned) (outcomes r0 cs).
Proof.
  intros Hcreate Hfit.
  destruct (create_spec _ _ _ _ _ _ Hcreate) as (_ & _ & _ & Hcap & _ & Hoff & _).
  apply outcomes_returned; [|exact Hfit].
  rewrite Hoff. split; [lia|]. destruct (Z.eq_dec (capacity r0) 0); [now right | left; lia].
Qed.

Lemma resampler_write_never_throws_witness :
  Forall (fun fin => fin = Returned)
         (outcomes (mk 1 48000 48000 (repeat 0 48) 0 0 [] 8)
                   [mkCall (mkOutput 7 []) true (repeat 1 40);
                    mkCall (mkOutput 8 []) true (repeat 2 30);
                    mkCall (mkOutput 10 []) true (repeat 4 48)]).
Proof.
  apply (resampler_write_never_throws 2 1 1 48000 48000).
  - reflexivity.
  - repeat constructor; vm_compute; discriminate.
Defined.

(** The bytes just copied at an offset are the bytes of the view taken
    there. *)
Lemma subarray_of_set (buf out buf' : list Z) (off : Z) :
  Bytes.set buf out off = Some buf' ->
  Bytes.subarray buf' off (off + Z.of_nat (length out)) = out.
Proof.
  intros Hset. pose proof (Bytes_set_length _ _ _ _ Hset) as Hlen.
  unfold Bytes.set in Hset.
  destruct ((off <? 0) || (off + Z.of_nat (length out) >? Z.of_nat (length buf))) eqn:E;
    [discriminate|].
  apply orb_false_elim in E. destruct E as (E1 & E2).
  apply Z.ltb_ge in E1. rewrite Z.gtb_ltb in E2. apply Z.ltb_ge in E2.
  injection Hset as Hbuf'.
  unfold Bytes.subarray, Bytes.clamp. rewrite Hlen.
  replace (off <? 0) with false by (symmetry; apply Z.ltb_ge; lia).
  replace (off + Z.of_nat (length out) <? 0) with false by (symmetry; apply Z.ltb_ge; lia).
  rewrite !Z.min_l by lia.
  replace (Z.to_nat (off + Z.of_nat (length out) - off)) with (length out) by lia.
  rewrite <- Hbuf'.
  rewrite skipn_app, length_firstn.
  replace (Nat.min (Z.to_nat off) (length buf)) with (Z.to_nat off) by lia.
  rewrite Nat.sub_diag, skipn_firstn_comm, Nat.sub_diag. cbn [firstn skipn app].
  rewrite firstn_app, Nat.sub_diag, firstn_all. cbn [firstn]. now rewrite app_nil_r.
Qed.

(** With nothing buffered and nothing waiting, the chunk emitted for a call
    for which the soxr module returns exactly one output chunk is that
    chunk, under the index of the call. *)
Lemma write_one_frame_content (cap target : Z) (r : t) (c : call) :
  0 < target -> 0 < cap -> (target | cap) ->
  aligned cap target r -> bufferSize r = 0 -> chunkIndexToEmit r = [] ->
  soxrModule c = true -> Z.of_nat (length (outputChunk c)) = target ->
  map frame (snd (fst (write r c))) = [resampled c].
Proof.
  intros Ht Hcap Hdiv (Hc & Htl & Hoff & Hal) Hsize Hqueue Hready Hlen.
  rewrite Hsize, Z.sub_0_r in Hal.
  pose proof (aligned_offset_fits cap target (bufferOffset r) Ht Hdiv Hal Hoff) as Hfit.
  unfold capacity in Hc.
  unfold write. rewrite Hready, Hlen, Hsize, Hqueue, Htl. cbn [negb app].
  replace (target =? 0) with false by (symmetry; apply Z.eqb_neq; lia).
  unfold store. rewrite Hlen, Hc.
  replace (bufferOffset r + target >? cap) with false
    by (symmetry; rewrite Z.gtb_ltb; apply Z.ltb_ge; lia).
  destruct (Bytes_set_fits (alignementBuffer r) (outputChunk c) (bufferOffset r))
    as (buf & Hset); [lia | lia |].
  rewrite Hset. pose proof (Bytes_set_length _ _ _ _ Hset) as Hbuf.
  pose proof (subarray_of_set _ _ _ _ Hset) as Hsub. rewrite Hlen in Hsub.
  cbn [emitLoop]. rewrite Z.add_0_l.
  replace (target >=? target) with true by (symmetry; rewrite Z.geb_leb; apply Z.leb_refl).
  rewrite Hbuf, Hc.
  assert (Hr : rollover (Z.rem (bufferOffset r + target) cap - target) 0 cap = bufferOffset r).
  { unfold rollover. rewrite Z.rem_mod_nonneg by lia.
    rewrite !Z.sub_0_r, Z.add_0_l, Zminus_mod_idemp_l.
    replace (bufferOffset r + target - target) with (bufferOffset r) by lia.
    apply Z.mod_small. lia. }
  rewrite Hr, Hsub. reflexivity.
Qed.

Lemma run_one_frame_content (cap target : Z) (cs : list call) :
  0 < target -> 0 < cap -> (target | cap) ->
  Forall (fun c => soxrModule c = true /\ Z.of_nat (length (outputChunk c)) = target) cs ->
  forall r, aligned cap target r -> bufferSize r = 0 -> chunkIndexToEmit r = [] ->
            map frame (snd (run r cs)) = map resampled cs.
Proof.
  intros Ht Hcap Hdiv Hcs. induction Hcs as [|c tl (Hready & Hlen) _ IH];
    intros r Hr Hsize Hqueue; simpl; [reflexivity|].
  pose proof (write_one_frame_content cap target r c Ht Hcap Hdiv Hr Hsize Hqueue Hready Hlen)
    as Hout.
  destruct (write_one_frame cap target r c Ht Hcap Hdiv Hr Hsize Hqueue Hready Hlen)
    as (_ & Hsize1 & Hqueue1).
  destruct (write_aligned cap target r c Ht Hcap Hdiv Hr) as (Hr1 & _).
  destruct (write r c) as [[r1 out1] fin]; simpl in *.
  specialize (IH r1 Hr1 Hsize1 Hqueue1).
  destruct (run r1 tl) as [r2 out2]; simpl in *.
  now rewrite map_app, Hout, IH.
Qed.

(** X10.  When the soxr module returns exactly one output chunk for every
    input chunk, a resampler as constructed, with a buffer that is not
    empty, hands downstream for every chunk written, at once and in order,
    a view that shows, when it is emitted, the very bytes the soxr module
    returned for that chunk, under the index of the chunk: the alignement
    buffer adds no delay and mixes nothing. *)
Theorem resampler_one_to_one
        (SAMPLES MAXLAT channels inRate outRate : Z) (r0 : t) (cs : list call) :
  create SAMPLES MAXLAT channels inRate outRate = Some r0 ->
  0 < capacity r0 ->
  Forall (fun c => soxrModule c = true /\
                   Z.of_nat (length (outputChunk c)) = outputChunkTargetLength r0) cs ->
  map frame (snd (run r0 cs)) = map resampled cs.
Proof.
  intros Hcreate Hpos Hcs.
  destruct (create_spec _ _ _ _ _ _ Hcreate) as (_ & _ & Ht & _ & Hdiv & _ & Hs & Hq).
  exact (run_one_frame_content (capacity r0) (outputChunkTargetLength r0) cs
           Ht Hpos Hdiv Hcs r0 (create_aligned _ _ _ _ _ _ Hcreate Hpos) Hs Hq).
Qed.

Lemma resampler_one_to_one_witness :
  map frame (snd (run (mk 1 48000 48000 (repeat 0 48) 0 0 [] 8)
                      [mkCall (mkOutput 7 [1; 2]) true [1; 1; 1; 1; 1; 1; 1; 1];
                       mkCall (mkOutput 8 [3; 4]) true [2; 2; 2; 2; 2; 2; 2; 2];
                       mkCall (mkOutput 9 [5; 6]) true [3; 3; 3; 3; 3; 3; 3; 3]]))
  = [mkOutput 7 [1; 1; 1; 1; 1; 1; 1; 1]; mkOutput 8 [2; 2; 2; 2; 2; 2; 2; 2];
     mkOutput 9 [3; 3; 3; 3; 3; 3; 3; 3]].
Proof.
  apply (resampler_one_to_one 2 1 1 48000 48000).
  - reflexivity.
  - reflexivity.
  - repeat constructor.
Defined.

End ResamplerMore.

(** * More on the chunker *)

Section ChunkerMore.

Import Chunker ChunkerRun.

Lemma readable_follows_stop_app (h1 h2 : list entry) :
  forall b,
    readable_follows_stop b (h1 ++ h2) <->
    readable_follows_stop b h1 /\ readable_follows_stop (last_stopped b h1) h2.
Proof.
  induction h1 as [|e tl IH]; intros b; simpl; [tauto|]. rewrite IH. tauto.
Qed.

Lemma last_stopped_app (h1 h2 : list entry) :
  forall b, last_stopped b (h1 ++ h2) = last_stopped (last_stopped b h1) h2.
Proof.
  induction h1 as [|e tl IH]; intros b; simpl; [reflexivity | apply IH].
Qed.

(** One pass of the loop: a stop is the last thing it does, it leaves the
    stream as newly created, and it takes an idle counter of at least 4 at
    the start of the pass; a pass without a stop leaves the timer alone. *)
Lemma pushNecessaryChunks_stop (env : list observation) :
  forall c,
    let '(c', log, e) := _pushNecessaryChunks c env in
    startTime c' = startTime c /\ chunkDuration c' = chunkDuration c /\
    chunkSize c' = chunkSize c /\
    readable_follows_stop false log /\
    (last_stopped false log = true ->
     c' = create (startTime c) (chunkDuration c) (chunkSize c) /\
     4 <= loopIterationWithoutData c) /\
    (last_stopped false log = false -> readInterval c' = readInterval c).
Proof.
  induction env as [|o env' IH]; intros c; cbn [_pushNecessaryChunks].
  - simpl. repeat split; try discriminate.
  - destruct (_ <? 0).
    + simpl. repeat split; try discriminate.
    + destruct (read o) as [chunk0|].
      * destruct (complete (chunkSize c) chunk0) as [chunk1|].
        -- match goal with
           | |- context [_pushNecessaryChunks ?c1 env'] =>
               specialize (IH c1); destruct (_pushNecessaryChunks c1 env') as [[c2 log] e]
           end.
           simpl in IH. destruct IH as (H1 & H2 & H3 & H4 & H5 & H6).
           assert (Hlast : last_stopped false log = false).
           { destruct (last_stopped false log); [|reflexivity].
             destruct (H5 eq_refl) as (_ & Habs). lia. }
           simpl. rewrite Hlast. repeat split; try assumption; try discriminate.
           intros _. now apply H6.
        -- simpl. repeat split; try discriminate.
      * destruct (loopIterationWithoutData c + 1
                  >=? MIN_LOOP_ITERATION_WITHOUT_DATA_TO_STOP_READING) eqn:E.
        -- unfold MIN_LOOP_ITERATION_WITHOUT_DATA_TO_STOP_READING in E.
           rewrite Z.geb_leb in E. apply Z.leb_le in E.
           simpl. repeat split; try discriminate. lia.
        -- simpl. repeat split; try discriminate.
Qed.

Lemma handle_stop (c : t) (ev : event) (env : list observation) (b : bool) :
  (b = true -> c = create (startTime c) (chunkDuration c) (chunkSize c)) ->
  let '(c', log, e) := handle c ev env in
  startTime c' = startTime c /\ chunkDuration c' = chunkDuration c /\
  chunkSize c' = chunkSize c /\
  readable_follows_stop b log /\
  (last_stopped b log = true ->
   c' = create (startTime c) (chunkDuration c) (chunkSize c)).
Proof.
  intros Hb. destruct ev; cbn [handle].
  - unfold startReadLoop. destruct (readInterval c) eqn:Er.
    + simpl. repeat split; try discriminate.
    + match goal with
      | |- context [_pushNecessaryChunks ?c0 env] =>
          pose proof (pushNecessaryChunks_stop env c0) as H;
          destruct (_pushNecessaryChunks c0 env) as [[c1 log] e]
      end.
      cbn [startTime chunkDuration chunkSize loopIterationWithoutData readInterval] in H.
      destruct H as (H1 & H2 & H3 & H4 & H5 & H6).
      assert (Hlast : last_stopped false log = false).
      { destruct (last_stopped false log) eqn:E; [|reflexivity].
        destruct (H5 eq_refl) as (_ & Habs). lia. }
      destruct e; simpl; rewrite Hlast; repeat split; try assumption; try discriminate.
  - destruct (readInterval c) eqn:Er.
    + assert (Hf : b = false).
      { destruct b; [|reflexivity]. rewrite (Hb eq_refl) in Er. discriminate. }
      subst b. pose proof (pushNecessaryChunks_stop env c) as H.
      destruct (_pushNecessaryChunks c env) as [[c1 log] e].
      destruct H as (H1 & H2 & H3 & H4 & H5 & H6).
      repeat split; try assumption. intros Hs. now destruct (H5 Hs).
    + simpl. repeat split. exact Hb.
Qed.

Lemma run_stop (evs : list event) :
  forall c env b,
    (b = true -> c = create (startTime c) (chunkDuration c) (chunkSize c)) ->
    readable_follows_stop b (snd (run c evs env)) /\
    (last_stopped b (snd (run c evs env)) = true ->
     fst (run c evs env) = create (startTime c) (chunkDuration c) (chunkSize c)).
Proof.
  induction evs as [|ev evs' IH]; intros c env b Hb; cbn [run].
  - simpl. split; [exact I | exact Hb].
  - pose proof (handle_stop c ev env b Hb) as H.
    destruct (handle c ev env) as [[c1 log1] e].
    destruct H as (H1 & H2 & H3 & H4 & H5).
    destruct e as [env'| |]; try (simpl; split; assumption).
    assert (Hb1 : last_stopped b log1 = true ->
                  c1 = create (startTime c1) (chunkDuration c1) (chunkSize c1)).
    { intros Hs. rewrite H1, H2, H3. exact (H5 Hs). }
    specialize (IH c1 env' (last_stopped b log1) Hb1).
    destruct (run c1 evs' env') as [c2 log2]. simpl in *.
    rewrite H1, H2, H3 in IH. destruct IH as (IH1 & IH2).
    split.
    + apply readable_follows_stop_app. split; assumption.
    + rewrite last_stopped_app. exact IH2.
Qed.

(** X11.  What a stop does.  In every run of the stream from its creation,
    whatever the clock and the source: after the read loop has stopped,
    nothing is read and nothing is written until the source signals
    ['readable'] again, so that the entry after a stop in the history is a
    ['readable']; and a run that ends with a stop leaves the stream as it was
    when created, with the timer cleared, the last index unset and the idle
    counter at zero. *)
Theorem chunker_stop_resets :
  (forall (start duration size : Z) (evs : list event) (env : list observation)
          (h1 : list entry) (e : entry) (h2 : list entry),
      history start duration size evs env = h1 ++ Stopped :: e :: h2 ->
      e = Readable)
  /\
  (forall (start duration size : Z) (evs : list event) (env : list observation)
          (h1 : list entry),
      history start duration size evs env = h1 ++ [Stopped] ->
      fst (run (create start duration size) evs env) = create start duration size).
Proof.
  split.
  - intros start duration size evs env h1 e h2 Hh.
    destruct (run_stop evs (create start duration size) env false) as (Hr & _);
      [discriminate|].
    unfold history in Hh. rewrite Hh in Hr.
    apply readable_follows_stop_app in Hr. destruct Hr as (_ & Hr).
    simpl in Hr. destruct Hr as (_ & Hr & _). now apply Hr.
  - intros start duration size evs env h1 Hh.
    destruct (run_stop evs (create start duration size) env false) as (_ & Hr);
      [discriminate|].
    unfold history in Hh. rewrite Hh, last_stopped_app in Hr. apply Hr. reflexivity.
Qed.

Lemma chunker_stop_resets_witness :
  fst (run (create 0 10 4) [OnReadable; OnTick; OnTick; OnTick; OnTick]
           [mkObs 20 20 None; mkObs 30 30 None; mkObs 40 40 None; mkObs 50 50 None;
            mkObs 60 60 None])
  = create 0 10 4.
Proof.
  apply (proj2 chunker_stop_resets 0 10 4 [OnReadable; OnTick; OnTick; OnTick; OnTick]
           [mkObs 20 20 None; mkObs 30 30 None; mkObs 40 40 None; mkObs 50 50 None;
            mkObs 60 60 None]
           [Readable; NoData; NoData; NoData; NoData; NoData]).
  reflexivity.
Defined.

Lemma pushNecessaryChunks_catch_up (datas : list observation) :
  forall (c : t) (o : observation) (rest : list observation),
    0 <= chunkDuration c ->
    0 <= lastEmittedChunkIndex c ->
    Forall (fun o' =>
              (lastEmittedChunkIndex c + Z.of_nat (length datas)) * chunkDuration c
              <= now_latency o' - startTime c /\
              exists r, read o' = Some r /\ Z.of_nat (length r) <= chunkSize c) datas ->
    now_latency o - startTime c
    < (lastEmittedChunkIndex c + Z.of_nat (length datas) + 1) * chunkDuration c ->
    _pushNecessaryChunks c (datas ++ o :: rest) =
    (mk (startTime c) (chunkDuration c) (chunkSize c) (readInterval c)
        (lastEmittedChunkIndex c + Z.of_nat (length datas))
        (match datas with [] => loopIterationWithoutData c | _ :: _ => 0 end),
     numbered (chunkSize c) (lastEmittedChunkIndex c + 1) datas,
     Returned rest).
Proof.
  induction datas as [|o1 tl IH]; intros c o rest Hd Hp Hdue Hfuture.
  - cbn [app length numbered _pushNecessaryChunks] in *.
    replace (lastEmittedChunkIndex c =? -1) with false by (symmetry; apply Z.eqb_neq; lia).
    replace (now_latency o - startTime c - (lastEmittedChunkIndex c + 1) * chunkDuration c <? 0)
      with true by (symmetry; apply Z.ltb_lt; lia).
    destruct c; simpl. now rewrite Z.add_0_r.
  - apply Forall_cons_iff in Hdue. destruct Hdue as ((Hdue1 & r & Hread & Hlen) & Hdue).
    rewrite <- app_comm_cons.
    rewrite (pushNecessaryChunks_emit c o1 (tl ++ o :: rest) (lastEmittedChunkIndex c + 1) r
               (r ++ repeat 0 (Z.to_nat (chunkSize c - Z.of_nat (length r))))).
    + rewrite IH; cbn [startTime chunkDuration chunkSize readInterval lastEmittedChunkIndex
                         loopIterationWithoutData].
      * cbn [numbered]. rewrite Hread.
        replace (lastEmittedChunkIndex c + 1 + Z.of_nat (length tl))
          with (lastEmittedChunkIndex c + Z.of_nat (length (o1 :: tl)))
          by (cbn [length]; lia).
        now destruct tl.
      * exact Hd.
      * lia.
      * eapply Forall_impl; [|exact Hdue]. intros o' (H1 & H2). split; [|exact H2].
        cbn [length] in H1. lia.
      * cbn [length] in Hfuture. lia.
    + replace (lastEmittedChunkIndex c =? -1) with false by (symmetry; apply Z.eqb_neq; lia).
      reflexivity.
    + cbn [length] in Hdue1. nia.
    + exact Hread.
    + now apply complete_short.
Qed.

(** X12.  Catching up.  When the stream is late by [m] chunks and the
    source has data for them, one pass of the loop writes them all: with the
    last index written [p], [m] reads that return data while the chunk
    [p + m] is due, followed by a reading of the clock at which the chunk
    [p + m + 1] is not due yet, make the pass write [m] chunks numbered
    [p + 1] to [p + m], each the bytes read completed with zeros, leave
    [p + m] as the last index and return. *)
Theorem chunker_catches_up
        (c : t) (datas : list observation) (o : observation) (rest : list observation) :
  0 <= chunkDuration c ->
  0 <= lastEmittedChunkIndex c ->
  Forall (fun o' =>
            (lastEmittedChunkIndex c + Z.of_nat (length datas)) * chunkDuration c
            <= now_latency o' - startTime c /\
            exists r, read o' = Some r /\ Z.of_nat (length r) <= chunkSize c) datas ->
  now_latency o - startTime c
  < (lastEmittedChunkIndex c + Z.of_nat (length datas) + 1) * chunkDuration c ->
  _pushNecessaryChunks c (datas ++ o :: rest) =
  (mk (startTime c) (chunkDuration c) (chunkSize c) (readInterval c)
      (lastEmittedChunkIndex c + Z.of_nat (length datas))
      (match datas with [] => loopIterationWithoutData c | _ :: _ => 0 end),
   numbered (chunkSize c) (lastEmittedChunkIndex c + 1) datas,
   Returned rest)
  /\ indices (numbered (chunkSize c) (lastEmittedChunkIndex c + 1) datas)
     = Orderer.consecutive (lastEmittedChunkIndex c + 1) (length datas).
Proof.
  intros Hd Hp Hdue Hfuture. split.
  - now apply pushNecessaryChunks_catch_up.
  - clear Hfuture. generalize (lastEmittedChunkIndex c + 1) as k.
    assert (Hdata : Forall (fun o' => exists r, read o' = Some r) datas).
    { eapply Forall_impl; [|exact Hdue]. intros o' (_ & r & Hr & _). now exists r. }
    clear Hdue. induction Hdata as [|o1 tl (r & Hr) _ IH]; intros k; [reflexivity|].
    cbn [numbered length Orderer.consecutive]. rewrite Hr. unfold indices in *.
    cbn [outputs map i]. now rewrite IH.
Qed.

Lemma chunker_catches_up_witness :
  _pushNecessaryChunks (mk 0 10 4 true 2 0)
                       [mkObs 45 45 (Some [1; 2; 3; 4]); mkObs 46 46 (Some [5; 6]);
                        mkObs 47 47 (Some [7])]
  = (mk 0 10 4 true 4 0,
     [Emitted (mkOutput 3 [1; 2; 3; 4]) (mkObs 45 45 (Some [1; 2; 3; 4]));
      Emitted (mkOutput 4 [5; 6; 0; 0]) (mkObs 46 46 (Some [5; 6]))],
     Returned []).
Proof.
  refine (proj1 (chunker_catches_up (mk 0 10 4 true 2 0)
                   [mkObs 45 45 (Some [1; 2; 3; 4]); mkObs 46 46 (Some [5; 6])]
                   (mkObs 47 47 (Some [7])) [] _ _ _ _)).
  - simpl; lia.
  - simpl; lia.
  - apply Forall_cons; [|apply Forall_cons; [|apply Forall_nil]].
    + split; [simpl; lia|]. exists [1; 2; 3; 4]. split; [reflexivity | simpl; lia].
    + split; [simpl; lia|]. exists [5; 6]. split; [reflexivity | simpl; lia].
  - simpl; lia.
Defined.

End ChunkerMore.

(** * The streams as [chunk_stream.ts] pipes them *)

Section PipelineMore.

Import TypedArray Framing Pipeline.

Lemma StronglySorted_app_l (l1 l2 : list Z) :
  StronglySorted Z.lt (l1 ++ l2) -> StronglySorted Z.lt l1.
Proof.
  induction l1 as [|x tl IH]; intros H; [constructor|].
  simpl in H. apply StronglySorted_inv in H. destruct H as (Htl & Hx).
  constructor; [now apply IH|]. apply Forall_app in Hx. tauto.
Qed.

Lemma StronglySorted_map_filter (A : Type) (f : A -> Z) (p : A -> bool) (l : list A) :
  StronglySorted Z.lt (map f l) -> StronglySorted Z.lt (map f (filter p l)).
Proof.
  induction l as [|x tl IH]; intros H; simpl in *; [constructor|].
  apply StronglySorted_inv in H. destruct H as (Htl & Hx).
  destruct (p x); simpl; [|now apply IH].
  constructor; [now apply IH|].
  rewrite Forall_forall in *. intros y Hy. apply Hx.
  apply in_map_iff in Hy. destruct Hy as (a & <- & Ha).
  apply filter_In in Ha. apply in_map. tauto.
Qed.

(** The indices of the calls the pipe makes are the first indices the
    chunker wrote. *)
Lemma written_piped_calls (chunks : list Chunk) :
  forall answers,
    Resampler.written (piped_calls chunks answers)
    = firstn (List.length answers) (map i chunks).
Proof.
  unfold Resampler.written, piped_calls.
  induction chunks as [|c tl IH]; intros [|a answers]; simpl; try reflexivity.
  now rewrite IH.
Qed.

Lemma piped_calls_fit (cap : Z) (answers : list (bool * list Z)) :
  Forall (fun a => Z.of_nat (List.length (snd a)) <= cap) answers ->
  forall chunks,
    Forall (fun c => Z.of_nat (List.length (Resampler.outputChunk c)) <= cap)
           (piped_calls chunks answers).
Proof.
  unfold piped_calls.
  induction 1 as [|a answers Ha _ IH]; intros [|c chunks]; simpl; constructor.
  - exact Ha.
  - apply IH.
Qed.

(** The chunks written by the chunker have the size of the stream. *)
Lemma outputs_have_size (size : Z) (h : list Chunker.entry) :
  Forall (Chunker.padded size) h ->
  Forall (fun c => Z.of_nat (List.length (chunk c)) = size) (Chunker.outputs h).
Proof.
  induction 1 as [|e tl He _ IH]; simpl; [constructor|].
  destruct e; try exact IH. constructor; [exact (proj1 He) | exact IH].
Qed.

(** X13.  The stream [createAudioChunkStream] returns.  With a chunk
    duration above 0, a chunk size
    [sourceRate * channels * 2 / OPUS_ENCODER_CHUNKS_PER_SECONDS] that is a
    whole number of bytes, a clock that does not run backwards and does not
    precede [startTime], and a resampler that could be constructed: as long
    as what the soxr module returns for a chunk is never longer than the
    alignement buffer, no [write] of the resampler throws into the loop of
    the chunker; every chunk the chunker hands to the resampler has exactly
    the chunk size, which is not rounded; and what comes out of the stream
    are chunks of exactly [OPUS_ENCODER_CHUNK_SAMPLES_COUNT * channels * 4]
    bytes whose indices are strictly increasing, each of them the index of a
    chunk the chunker cut from the source. *)
Theorem chunk_stream_output
        (DURATION PER_SECOND RATE SAMPLES MAXLAT : Z)
        (startTime sourceRate channels size : Z)
        (evs : list Chunker.event) (env : list Chunker.observation)
        (answers : list (bool * list Z)) (r0 : Resampler.t) :
  0 < DURATION ->
  chunkBytes PER_SECOND sourceRate channels = Some size ->
  Chunker.clock_ok startTime env ->
  Resampler.create SAMPLES MAXLAT channels sourceRate RATE = Some r0 ->
  Forall (fun a => Z.of_nat (List.length (snd a)) <= Resampler.capacity r0) answers ->
  exists es,
    chunk_stream_run DURATION PER_SECOND RATE SAMPLES MAXLAT
                     startTime sourceRate channels evs env answers = Some es /\
    size * PER_SECOND = sourceRate * channels * 2 /\
    Forall (fun c => Z.of_nat (List.length (chunk c)) = size)
           (Chunker.outputs (Chunker.history startTime DURATION size evs env)) /\
    Chunker.strictly_increasing (Resampler.emitted_indices es) /\
    incl (Resampler.emitted_indices es)
         (Chunker.indices (Chunker.history startTime DURATION size evs env)) /\
    Forall (fun e => Z.of_nat (List.length (chunk (Resampler.frame e)))
                     = SAMPLES * channels * 4) es.
Proof.
  intros Hd Hsize Hclock Hcreate Hfit.
  unfold chunk_stream_run, createAudioChunkStream. rewrite Hsize, Hcreate.
  fold (Chunker.history startTime DURATION size evs env).
  set (h := Chunker.history startTime DURATION size evs env).
  set (cs := piped_calls (Chunker.outputs h) answers).
  destruct (create_spec _ _ _ _ _ _ Hcreate)
    as (Htarget & _ & Ht & Hcap & Htc & Hoff & _ & Hqueue).
  assert (Hret : forallb ResamplerRun.returned (ResamplerRun.outcomes r0 cs) = true).
  { apply forallb_forall. intros fin Hin.
    assert (Hall : Forall (fun fin => fin = Resampler.Returned)
                          (ResamplerRun.outcomes r0 cs)).
    { apply outcomes_returned.
      - rewrite Hoff. split; [lia|]. lia.
      - now apply piped_calls_fit. }
    rewrite Forall_forall in Hall. now rewrite (Hall fin Hin). }
  rewrite Hret. eexists. split; [reflexivity|].
  split.
  { unfold chunkBytes in Hsize.
    destruct ((PER_SECOND =? 0) || negb (sourceRate * channels * 2 mod PER_SECOND =? 0))
      eqn:E; [discriminate|].
    apply orb_false_elim in E. destruct E as (E0 & E1).
    apply Z.eqb_neq in E0. apply negb_false_iff, Z.eqb_eq in E1.
    injection Hsize as <-. rewrite Z.mul_comm. symmetry.
    now apply Z.div_exact. }
  split.
  { apply outputs_have_size.
    exact (run_padded evs (Chunker.create startTime DURATION size) env). }
  assert (Hsorted : StronglySorted Z.lt (Chunker.indices h)).
  { assert (Hlaw : Chunker.follows_index_law startTime DURATION None true h).
    { apply (run_index_law evs (Chunker.create startTime DURATION size)
                           env None true startTime Hd); [|exact Hclock].
      unfold Chunker.tracks; simpl. split; [lia|]. split; [reflexivity | discriminate]. }
    exact (proj2 (index_law_increasing startTime DURATION h None true Hlaw)). }
  pose proof (run_queue cs r0) as Hq. rewrite Hqueue in Hq. cbn [app] in Hq.
  assert (Hsub : forall k, In k (Resampler.consumed cs) -> In k (Chunker.indices h)).
  { intros k Hk. unfold Resampler.consumed in Hk.
    apply in_map_iff in Hk. destruct Hk as (c & <- & Hc). apply filter_In in Hc.
    assert (Hw : In (i (Resampler.d c)) (Resampler.written cs))
      by (unfold Resampler.written;
          apply (in_map (fun c0 => i (Resampler.d c0)) cs c); tauto).
    unfold cs in Hw. rewrite written_piped_calls in Hw.
    unfold Chunker.indices.
    rewrite <- (firstn_skipn (List.length answers) (map i (Chunker.outputs h))).
    apply in_or_app. now left. }
  split; [|split].
  - unfold Chunker.strictly_increasing.
    apply (StronglySorted_app_l _ (Resampler.chunkIndexToEmit (fst (Resampler.run r0 cs)))).
    rewrite <- Hq. unfold Resampler.consumed.
    apply StronglySorted_map_filter.
    change (StronglySorted Z.lt (Resampler.written cs)).
    unfold cs. rewrite written_piped_calls.
    apply (StronglySorted_app_l _ (skipn (List.length answers) (map i (Chunker.outputs h)))).
    rewrite firstn_skipn. exact Hsorted.
  - intros k Hk. apply Hsub. rewrite Hq. apply in_or_app. now left.
  - rewrite <- Htarget.
    destruct (Z.eq_dec (Resampler.capacity r0) 0) as [Hzero|Hnz].
    + rewrite run_empty_buffer; [constructor | | exact Hoff].
      unfold Resampler.capacity in Hzero.
      destruct (Resampler.alignementBuffer r0); [reflexivity | simpl in Hzero; lia].
    + assert (Hpos : 0 < Resampler.capacity r0) by lia.
      destruct (run_aligned (Resampler.capacity r0) (Resampler.outputChunkTargetLength r0)
                            cs Ht Hpos Htc r0
                            (create_aligned _ _ _ _ _ _ Hcreate Hpos)) as (_ & Hall).
      eapply Forall_impl; [|exact Hall]. intros e (_ & _ & He). exact He.
Qed.

Lemma chunk_stream_output_witness :
  exists es,
    chunk_stream_run 10 100 48000 2 1 0 22050 2 [Chunker.OnReadable]
      [Chunker.mkObs 25 25 (Some [1; 2]); Chunker.mkObs 35 35 (Some [3]);
       Chunker.mkObs 36 36 None]
      [(true, repeat 1 16); (true, repeat 2 16)] = Some es /\
    882 * 100 = 22050 * 2 * 2 /\
    Forall (fun c => Z.of_nat (List.length (chunk c)) = 882)
           (Chunker.outputs
              (Chunker.history 0 10 882 [Chunker.OnReadable]
                 [Chunker.mkObs 25 25 (Some [1; 2]); Chunker.mkObs 35 35 (Some [3]);
                  Chunker.mkObs 36 36 None])) /\
    Chunker.strictly_increasing (Resampler.emitted_indices es) /\
    incl (Resampler.emitted_indices es)
         (Chunker.indices
            (Chunker.history 0 10 882 [Chunker.OnReadable]
               [Chunker.mkObs 25 25 (Some [1; 2]); Chunker.mkObs 35 35 (Some [3]);
                Chunker.mkObs 36 36 None])) /\
    Forall (fun e => Z.of_nat (List.length (chunk (Resampler.frame e))) = 2 * 2 * 4) es.
Proof.
  apply (chunk_stream_output 10 100 48000 2 1 0 22050 2 882 [Chunker.OnReadable]
           [Chunker.mkObs 25 25 (Some [1; 2]); Chunker.mkObs 35 35 (Some [3]);
            Chunker.mkObs 36 36 None]
           [(true, repeat 1 16); (true, repeat 2 16)]
           (Resampler.mk 2 22050 48000 (repeat 0 48) 0 0 [] 16)).
  - lia.
  - reflexivity.
  - unfold Chunker.clock_ok. simpl. lia.
  - reflexivity.
  - repeat constructor; vm_compute; discriminate.
Defined.

(** Decoding the records that encode some frames and ordering what is
    decoded is ordering these frames. *)
Lemma receive_encoded (vs : list view) :
  forall (s : store) (fs : list Chunk) (o : Orderer.t),
    Forall2 (encodes s) vs fs ->
    exists s',
      receive s o (map IsUint8Array vs)
      = Ok (s', fst (Orderer.run o fs), snd (Orderer.run o fs)) /\
      forall v, valid s v -> valid s' v /\ contents s' v = contents s v.
Proof.
  induction vs as [|v vt IH]; intros s fs o Hall; inversion Hall as [|v' f vt' ft Hv Ht];
    subst; cbn [map receive Orderer.run fst snd].
  - exists s. split; [reflexivity | tauto].
  - destruct Hv as (Hvalid & Hrange & Hbytes).
    pose proof (contents_length s v Hvalid) as Hlen.
    rewrite Hbytes, length_app, be32_length in Hlen.
    destruct Hvalid as (Hbuf & Hin).
    rewrite decoder_write_Uint8Array. cbn zeta.
    replace ((byteOffset v <=? List.length (bufferBytes s (buffer v)))%nat
             && (4 <=? List.length (bufferBytes s (buffer v)) - byteOffset v)%nat)
      with true by (symmetry; apply andb_true_intro; split; apply Nat.leb_le; lia).
    assert (Hidx : firstn 4 (skipn (byteOffset v) (bufferBytes s (buffer v))) = be32 (i f)).
    { transitivity (firstn 4 (contents s v)).
      - unfold contents. rewrite firstn_firstn. f_equal. lia.
      - rewrite Hbytes. reflexivity. }
    rewrite Hidx, (of_be32_be32 _ Hrange), Hbytes.
    change (skipn 4 (be32 (i f) ++ chunk f)) with (chunk f).
    assert (Hf : to_chunk (s ++ [chunk f])
                          (mkOutput (i f) (mkView (List.length s) 0 (List.length (chunk f))))
                 = f).
    { unfold to_chunk, contents. cbn [i chunk buffer byteOffset length].
      rewrite bufferBytes_alloc_new. cbn [skipn]. rewrite firstn_all. now destruct f. }
    cbn [map]. rewrite Hf. cbn [Orderer.run].
    destruct (Orderer.write o f) as [o1 out1].
    assert (Hrest : Forall2 (encodes (s ++ [chunk f])) vt ft).
    { clear - Ht. induction Ht as [|w g wt gt (Hw & Hr & Hb) _ IHt]; constructor;
        [|exact IHt].
      destruct (contents_alloc_old s (chunk f) w Hw) as (Hw' & Hc).
      split; [exact Hw'|]. split; [exact Hr|]. now rewrite Hc. }
    destruct (IH (s ++ [chunk f]) ft o1 Hrest) as (s' & Hrec & Hold).
    rewrite Hrec. destruct (Orderer.run o1 ft) as [o2 out2]. cbn [fst snd].
    exists s'. split; [now rewrite app_nil_r|].
    intros w Hw. destruct (contents_alloc_old s (chunk f) w Hw) as (Hw' & Hc).
    destruct (Hold w Hw') as (Hw'' & Hc'). split; [exact Hw''|]. now rewrite Hc'.
Qed.

(** X14.  The stream [createAudioDecodedStream] builds, up to the opus
    decoder.  Records that are the encodings of frames with indices in
    [0, 2^32), received as [Uint8Array]s: the decoder never throws on them,
    and what the orderer hands to the opus decoder, and what it keeps, is
    what an orderer of 10 chunks makes of these frames themselves, bytes
    included; the arrays that existed before are left as they were. *)
Theorem decoded_stream_orders_frames (s : store) (vs : list view) (fs : list Chunk) :
  Forall2 (encodes s) vs fs ->
  exists s',
    receive s createAudioDecodedStream_orderer (map IsUint8Array vs)
    = Ok (s', Orderer.final 10 fs, Orderer.emitted 10 fs) /\
    forall v, valid s v -> valid s' v /\ contents s' v = contents s v.
Proof.
  intros Hall. exact (receive_encoded vs s fs createAudioDecodedStream_orderer Hall).
Qed.

Lemma decoded_stream_orders_frames_witness :
  exists s',
    receive [[0; 0; 0; 0; 7]; [0; 0; 0; 2; 8]; [0; 0; 0; 1; 9]]
            createAudioDecodedStream_orderer
            (map IsUint8Array [mkView 0 0 5; mkView 1 0 5; mkView 2 0 5])
    = Ok (s',
          Orderer.final 10 [mkOutput 0 [7]; mkOutput 2 [8]; mkOutput 1 [9]],
          Orderer.emitted 10 [mkOutput 0 [7]; mkOutput 2 [8]; mkOutput 1 [9]]) /\
    forall v,
      valid [[0; 0; 0; 0; 7]; [0; 0; 0; 2; 8]; [0; 0; 0; 1; 9]] v ->
      valid s' v /\
      contents s' v = contents [[0; 0; 0; 0; 7]; [0; 0; 0; 2; 8]; [0; 0; 0; 1; 9]] v.
Proof.
  apply (decoded_stream_orders_frames
           [[0; 0; 0; 0; 7]; [0; 0; 0; 2; 8]; [0; 0; 0; 1; 9]]
           [mkView 0 0 5; mkView 1 0 5; mkView 2 0 5]
           [mkOutput 0 [7]; mkOutput 2 [8]; mkOutput 1 [9]]).
  repeat constructor; simpl; lia.
Defined.

End PipelineMore.

(** * The resampler as a queue of bytes *)

Section ResamplerBytes.

Import Resampler ResamplerRun.

Lemma nth_map_seq (f : nat -> Z) (n k : nat) :
  (k < n)%nat -> nth k (map f (seq 0 n)) 0 = f k.
Proof.
  intros Hk. rewrite (nth_indep _ 0 (f 0%nat)) by (rewrite length_map, length_seq; lia).
  rewrite map_nth, seq_nth by lia. reflexivity.
Qed.

Lemma circular_length (buf : list Z) (start : Z) (n : nat) :
  length (circular buf start n) = n.
Proof. unfold circular. now rewrite length_map, length_seq. Qed.

Lemma circular_nth (buf : list Z) (start : Z) (n k : nat) :
  (k < n)%nat ->
  nth k (circular buf start n) 0
  = nth (Z.to_nat ((start + Z.of_nat k) mod Z.of_nat (length buf))) buf 0.
Proof. intros Hk. unfold circular. now rewrite nth_map_seq. Qed.

Lemma circular_congr (buf : list Z) (start start' : Z) (n : nat) :
  start mod Z.of_nat (length buf) = start' mod Z.of_nat (length buf) ->
  circular buf start n = circular buf start' n.
Proof.
  intros Hs. unfold circular. apply map_ext. intros k.
  rewrite <- (Zplus_mod_idemp_l start), Hs, Zplus_mod_idemp_l. reflexivity.
Qed.

Lemma circular_S (buf : list Z) (start : Z) (n : nat) :
  circular buf start (S n)
  = nth (Z.to_nat (start mod Z.of_nat (length buf))) buf 0 :: circular buf (start + 1) n.
Proof.
  unfold circular. cbn [seq map]. rewrite Z.add_0_r. f_equal.
  rewrite <- seq_shift, map_map. apply map_ext. intros k.
  replace (start + Z.of_nat (S k)) with (start + 1 + Z.of_nat k) by lia. reflexivity.
Qed.

Lemma circular_app (buf : list Z) (a b : nat) :
  forall start,
    circular buf start (a + b)
    = circular buf start a ++ circular buf (start + Z.of_nat a) b.
Proof.
  induction a as [|a IH]; intros start.
  - cbn [Nat.add]. rewrite Z.add_0_r. reflexivity.
  - cbn [Nat.add]. rewrite !circular_S, IH. cbn [app]. do 2 f_equal. f_equal. lia.
Qed.

(** A view that does not run over the end of the buffer. *)
Lemma subarray_circular (buf : list Z) (off n : Z) :
  0 <= off -> 0 <= n -> off + n <= Z.of_nat (length buf) ->
  Bytes.subarray buf off (off + n) = circular buf off (Z.to_nat n).
Proof.
  intros Hoff Hn Hfit.
  pose proof (Bytes_subarray_whole buf off n Hoff Hn Hfit) as Hlen.
  apply (nth_ext _ _ 0 0).
  - rewrite circular_length. lia.
  - intros k Hk. rewrite circular_nth by lia.
    rewrite Z.mod_small by lia.
    unfold Bytes.subarray, Bytes.clamp.
    replace (off <? 0) with false by (symmetry; apply Z.ltb_ge; lia).
    replace (off + n <? 0) with false by (symmetry; apply Z.ltb_ge; lia).
    rewrite !Z.min_l by lia.
    rewrite nth_firstn, nth_skipn.
    replace (k <? Z.to_nat (off + n - off))%nat with true
      by (symmetry; apply Nat.ltb_lt; lia).
    f_equal. lia.
Qed.

Lemma Bytes_set_nth (target source target' : list Z) (off : Z) (j : nat) :
  Bytes.set target source off = Some target' ->
  nth j target' 0
  = if (Z.to_nat off <=? j)%nat && (j <? Z.to_nat off + length source)%nat
    then nth (j - Z.to_nat off) source 0
    else nth j target 0.
Proof.
  unfold Bytes.set.
  destruct ((off <? 0) || (off + Z.of_nat (length source) >? Z.of_nat (length target)))
    eqn:E; [discriminate|].
  apply orb_false_elim in E. destruct E as (E1 & E2).
  apply Z.ltb_ge in E1. rewrite Z.gtb_ltb in E2. apply Z.ltb_ge in E2.
  intros H. injection H as <-.
  assert (Hfirst : length (firstn (Z.to_nat off) target) = Z.to_nat off)
    by (rewrite length_firstn; lia).
  destruct (Z.to_nat off <=? j)%nat eqn:Ea; cbn [andb].
  - apply Nat.leb_le in Ea. rewrite app_nth2 by lia. rewrite Hfirst.
    destruct (j <? Z.to_nat off + length source)%nat eqn:Eb.
    + apply Nat.ltb_lt in Eb. now rewrite app_nth1 by lia.
    + apply Nat.ltb_ge in Eb. rewrite app_nth2 by lia. rewrite nth_skipn. f_equal. lia.
  - apply Nat.leb_gt in Ea. rewrite app_nth1 by lia. rewrite nth_firstn.
    now replace (j <? Z.to_nat off)%nat with true by (symmetry; apply Nat.ltb_lt; lia).
Qed.

Lemma Bytes_subarray_nth (a : list Z) (b n : Z) (k : nat) :
  0 <= b -> 0 <= n -> b + n <= Z.of_nat (length a) -> (k < Z.to_nat n)%nat ->
  nth k (Bytes.subarray a b (b + n)) 0 = nth (Z.to_nat b + k) a 0.
Proof.
  intros Hb Hn Hfit Hk. rewrite (subarray_circular a b n Hb Hn Hfit).
  rewrite circular_nth by exact Hk. rewrite Z.mod_small by lia. f_equal. lia.
Qed.

(** What the copy into the circular buffer does, byte by byte: the byte at
    the distance [d] after the write offset, modulo the length of the buffer,
    becomes the byte [d] of the data when the data has one, and is left alone
    otherwise. *)
Lemma store_nth (buf out : list Z) (off : Z) :
  0 <= off < Z.of_nat (length buf) ->
  Z.of_nat (length out) <= Z.of_nat (length buf) ->
  exists buf',
    store buf off out = inr buf' /\
    length buf' = length buf /\
    forall j, 0 <= j < Z.of_nat (length buf) ->
              nth (Z.to_nat j) buf' 0
              = if (j - off) mod Z.of_nat (length buf) <? Z.of_nat (length out)
                then nth (Z.to_nat ((j - off) mod Z.of_nat (length buf))) out 0
                else nth (Z.to_nat j) buf 0.
Proof.
  intros Hoff Hlen.
  destruct (store_fits buf off out Hoff Hlen) as (buf' & Hstore).
  exists buf'. split; [exact Hstore|].
  pose proof (store_length buf off out) as Hl. rewrite Hstore in Hl.
  split; [exact Hl|].
  intros j Hj.
  set (len := Z.of_nat (length out)) in *. set (cap := Z.of_nat (length buf)) in *.
  assert (Hd : (j - off) mod cap = if j <? off then j - off + cap else j - off).
  { destruct (j <? off) eqn:E.
    - apply Z.ltb_lt in E. rewrite <- (Z.mod_add _ 1) by lia.
      rewrite Z.mul_1_l. apply Z.mod_small. lia.
    - apply Z.ltb_ge in E. apply Z.mod_small. lia. }
  rewrite Hd. clear Hd.
  unfold store in Hstore. fold len cap in Hstore.
  destruct (off + len >? cap) eqn:E.
  - rewrite Z.gtb_ltb in E. apply Z.ltb_lt in E.
    replace (len - (off + len - cap)) with (0 + (cap - off)) in Hstore by lia.
    replace (Bytes.subarray out (0 + (cap - off)) len)
      with (Bytes.subarray out (cap - off) ((cap - off) + (off + len - cap))) in Hstore
      by (f_equal; lia).
    assert (H1 : Z.of_nat (length (Bytes.subarray out 0 (0 + (cap - off)))) = cap - off)
      by (apply Bytes_subarray_whole; fold len; lia).
    assert (H2 : Z.of_nat (length (Bytes.subarray out (cap - off)
                                     ((cap - off) + (off + len - cap))))
                 = off + len - cap)
      by (apply Bytes_subarray_whole; fold len; lia).
    destruct (Bytes.set buf (Bytes.subarray out 0 (0 + (cap - off))) off)
      as [buf1|] eqn:Hset1; [|discriminate].
    pose proof (Bytes_set_length _ _ _ _ Hset1) as Hl1.
    destruct (Bytes.set buf1 _ 0) as [buf2|] eqn:Hset2; [|discriminate].
    injection Hstore as <-.
    rewrite (Bytes_set_nth _ _ _ _ (Z.to_nat j) Hset2).
    rewrite (Bytes_set_nth _ _ _ _ (Z.to_nat j) Hset1).
    change (Z.to_nat 0) with 0%nat. cbn [Nat.leb Nat.add andb].
    destruct (Z.to_nat j <? length (Bytes.subarray out (cap - off)
                                      (cap - off + (off + len - cap))))%nat eqn:Ea.
    + apply Nat.ltb_lt in Ea.
      replace (j <? off) with true by (symmetry; apply Z.ltb_lt; lia).
      replace (j - off + cap <? len) with true by (symmetry; apply Z.ltb_lt; lia).
      rewrite Nat.sub_0_r.
      rewrite Bytes_subarray_nth by (fold len; lia). f_equal. lia.
    + apply Nat.ltb_ge in Ea.
      destruct (j <? off) eqn:Eb.
      * apply Z.ltb_lt in Eb.
        replace (Z.to_nat off <=? Z.to_nat j)%nat with false
          by (symmetry; apply Nat.leb_gt; lia).
        cbn [andb].
        now replace (j - off + cap <? len) with false by (symmetry; apply Z.ltb_ge; lia).
      * apply Z.ltb_ge in Eb.
        replace (Z.to_nat off <=? Z.to_nat j)%nat with true
          by (symmetry; apply Nat.leb_le; lia).
        replace (Z.to_nat j <? Z.to_nat off
                                + length (Bytes.subarray out 0 (0 + (cap - off))))%nat
          with true by (symmetry; apply Nat.ltb_lt; lia).
        cbn [andb].
        replace (j - off <? len) with true by (symmetry; apply Z.ltb_lt; lia).
        rewrite Bytes_subarray_nth by (fold len; lia).
        f_equal. lia.
  - rewrite Z.gtb_ltb in E. apply Z.ltb_ge in E.
    destruct (Bytes.set buf out off) as [buf1|] eqn:Hset1; [|discriminate].
    injection Hstore as <-.
    rewrite (Bytes_set_nth _ _ _ _ (Z.to_nat j) Hset1).
    destruct (j <? off) eqn:Eb.
    + apply Z.ltb_lt in Eb.
      replace (Z.to_nat off <=? Z.to_nat j)%nat with false
        by (symmetry; apply Nat.leb_gt; lia).
      cbn [andb].
      now replace (j - off + cap <? len) with false by (symmetry; apply Z.ltb_ge; lia).
    + apply Z.ltb_ge in Eb.
      replace (Z.to_nat off <=? Z.to_nat j)%nat with true
        by (symmetry; apply Nat.leb_le; lia).
      cbn [andb].
      destruct (j - off <? len) eqn:Ec.
      * apply Z.ltb_lt in Ec.
        replace (Z.to_nat j <? Z.to_nat off + length out)%nat with true
          by (symmetry; apply Nat.ltb_lt; lia).
        f_equal. lia.
      * apply Z.ltb_ge in Ec.
        now replace (Z.to_nat j <? Z.to_nat off + length out)%nat with false
          by (symmetry; apply Nat.ltb_ge; lia).
Qed.

(** After the copy, the bytes from the old write offset on are the data. *)
Lemma store_written (buf buf' out : list Z) (off : Z) :
  0 <= off < Z.of_nat (length buf) ->
  Z.of_nat (length out) <= Z.of_nat (length buf) ->
  store buf off out = inr buf' ->
  circular buf' off (length out) = out.
Proof.
  intros Hoff Hlen Hstore.
  destruct (store_nth buf out off Hoff Hlen) as (buf2 & Hstore2 & Hl & Hnth).
  rewrite Hstore in Hstore2. injection Hstore2 as <-.
  apply (nth_ext _ _ 0 0); [apply circular_length|].
  intros k Hk. rewrite circular_length in Hk. rewrite circular_nth by exact Hk.
  rewrite Hl.
  pose proof (Z.mod_pos_bound (off + Z.of_nat k) (Z.of_nat (length buf)) ltac:(lia)) as Hb.
  rewrite (Hnth _ Hb).
  rewrite Zminus_mod_idemp_l.
  replace (off + Z.of_nat k - off) with (Z.of_nat k) by lia.
  rewrite Z.mod_small by lia.
  replace (Z.of_nat k <? Z.of_nat (length out)) with true
    by (symmetry; apply Z.ltb_lt; lia).
  now rewrite Nat2Z.id.
Qed.

(** The copy does not touch the bytes buffered before the write offset when
    the data fits beside them. *)
Lemma store_keeps (buf buf' out : list Z) (off size : Z) :
  0 <= off < Z.of_nat (length buf) ->
  0 <= size ->
  size + Z.of_nat (length out) <= Z.of_nat (length buf) ->
  store buf off out = inr buf' ->
  circular buf' (off - size) (Z.to_nat size) = circular buf (off - size) (Z.to_nat size).
Proof.
  intros Hoff Hsize Hfit Hstore.
  destruct (store_nth buf out off Hoff ltac:(lia)) as (buf2 & Hstore2 & Hl & Hnth).
  rewrite Hstore in Hstore2. injection Hstore2 as <-.
  apply (nth_ext _ _ 0 0); [now rewrite !circular_length|].
  intros k Hk. rewrite circular_length in Hk. rewrite !circular_nth by exact Hk.
  rewrite Hl.
  pose proof (Z.mod_pos_bound (off - size + Z.of_nat k) (Z.of_nat (length buf)) ltac:(lia))
    as Hb.
  rewrite (Hnth _ Hb).
  rewrite Zminus_mod_idemp_l.
  replace (off - size + Z.of_nat k - off) with (Z.of_nat k - size) by lia.
  assert (Hd : (Z.of_nat k - size) mod Z.of_nat (length buf)
               = Z.of_nat k - size + Z.of_nat (length buf)).
  { rewrite <- (Z.mod_add _ 1) by lia. rewrite Z.mul_1_l. apply Z.mod_small. lia. }
  rewrite Hd.
  now replace (Z.of_nat k - size + Z.of_nat (length buf) <? Z.of_nat (length out))
    with false by (symmetry; apply Z.ltb_ge; lia).
Qed.

(** The emitting loop takes whole chunks from the front of the buffered
    bytes. *)
Lemma emitLoop_bytes (buf : list Z) (target bufOffset : Z) (queue : list Z) :
  0 < target -> 0 < Z.of_nat (length buf) -> (target | Z.of_nat (length buf)) ->
  forall size es size' queue',
    emitLoop buf target bufOffset size queue = (es, (size', queue')) ->
    (target | bufOffset - size) ->
    0 <= size ->
    0 <= size' /\
    circular buf (bufOffset - size) (Z.to_nat size)
    = emitted_bytes es ++ circular buf (bufOffset - size') (Z.to_nat size').
Proof.
  intros Ht Hcap Hdiv.
  induction queue as [|k rest IH]; intros size es size' queue' H Hal Hsize; simpl in H.
  - injection H as <- <- _. split; [exact Hsize | reflexivity].
  - destruct (size >=? target) eqn:E.
    + rewrite Z.geb_leb in E. apply Z.leb_le in E.
      destruct (emitLoop buf target bufOffset (size - target) rest) as [es0 [s0 q0]] eqn:E0.
      injection H as <- <- <-.
      assert (Hal' : (target | bufOffset - (size - target))).
      { replace (bufOffset - (size - target)) with ((bufOffset - size) + target) by lia.
        apply Z.divide_add_r; [exact Hal | apply Z.divide_refl]. }
      destruct (IH _ _ _ _ E0 Hal' ltac:(lia)) as (Hs0 & Hrest).
      split; [exact Hs0|].
      destruct (rollover_aligned (Z.of_nat (length buf)) target (bufOffset - size)
                                 Ht Hcap Hdiv Hal) as (Hr0 & Hr1).
      unfold emitted_bytes in *. cbn [map concat frame chunk].
      change ((bufOffset - size - 0) mod (Z.of_nat (length buf) - 0))
        with (rollover (bufOffset - size) 0 (Z.of_nat (length buf))).
      rewrite (subarray_circular buf _ target Hr0 ltac:(lia) Hr1).
      rewrite (circular_congr buf (rollover (bufOffset - size) 0 (Z.of_nat (length buf)))
                              (bufOffset - size)).
      * rewrite <- app_assoc, <- Hrest.
        replace (Z.to_nat size) with (Z.to_nat target + Z.to_nat (size - target))%nat
          by lia.
        rewrite circular_app. do 2 f_equal. lia.
      * unfold rollover. rewrite !Z.sub_0_r, Z.add_0_l. apply Z.mod_mod. lia.
    + injection H as <- <- _. split; [exact Hsize|reflexivity].
Qed.

(** One call: the data returned joins the buffered bytes at the end, and
    what is emitted leaves them from the front. *)
Lemma write_bytes (cap target : Z) (r : t) (c : call) :
  0 < target -> 0 < cap -> (target | cap) ->
  aligned cap target r ->
  0 <= bufferSize r ->
  (soxrModule c = true -> bufferSize r + Z.of_nat (length (outputChunk c)) <= cap) ->
  0 <= bufferSize (fst (fst (write r c))) /\
  buffered r ++ (if soxrModule c then outputChunk c else [])
  = emitted_bytes (snd (fst (write r c))) ++ buffered (fst (fst (write r c))).
Proof.
  intros Ht Hcap Hdiv (Hc & Htl & Hoff & Hal) Hsize Hfit. unfold capacity in Hc.
  unfold write. destruct (soxrModule c); cbn [negb];
    [|cbn [fst snd]; split; [exact Hsize | now rewrite app_nil_r]].
  specialize (Hfit eq_refl).
  destruct (Z.of_nat (length (outputChunk c)) =? 0) eqn:E0.
  - apply Z.eqb_eq in E0. cbn [fst snd]. split; [exact Hsize|].
    destruct (outputChunk c); [|simpl in E0; lia].
    now rewrite app_nil_r.
  - apply Z.eqb_neq in E0.
    destruct (store_nth (alignementBuffer r) (outputChunk c) (bufferOffset r))
      as (buf & Hstore & Hl & _); [lia | lia |].
    rewrite Hstore.
    set (len := Z.of_nat (length (outputChunk c))) in *.
    assert (Hbuf : Z.of_nat (length buf) = cap) by (rewrite Hl; exact Hc).
    rewrite Hbuf, Htl.
    assert (Hrem : Z.rem (bufferOffset r + len) cap = (bufferOffset r + len) mod cap)
      by (apply Z.rem_mod_nonneg; unfold len; lia).
    rewrite Hrem.
    assert (Hal' : (target | (bufferOffset r + len) mod cap - (bufferSize r + len))).
    { rewrite Z.mod_eq by lia.
      replace (bufferOffset r + len - cap * ((bufferOffset r + len) / cap)
               - (bufferSize r + len))
        with ((bufferOffset r - bufferSize r) - cap * ((bufferOffset r + len) / cap)) by lia.
      apply Z.divide_sub_r; [assumption | now apply Z.divide_mul_l]. }
    destruct (emitLoop buf target _ _ _) as [es [size' queue']] eqn:E.
    assert (Hcap' : 0 < Z.of_nat (length buf)) by (rewrite Hbuf; exact Hcap).
    assert (Hdiv' : (target | Z.of_nat (length buf))) by (rewrite Hbuf; exact Hdiv).
    destruct (emitLoop_bytes buf target _ _ Ht Hcap' Hdiv' _ _ _ _ E Hal' ltac:(lia))
      as (Hs' & Hbytes).
    cbn [fst snd]. split; [exact Hs'|].
    unfold buffered. cbn [alignementBuffer bufferOffset bufferSize].
    rewrite <- Hbytes.
    rewrite (circular_congr buf _ (bufferOffset r - bufferSize r)).
    + replace (Z.to_nat (bufferSize r + len))
        with (Z.to_nat (bufferSize r) + length (outputChunk c))%nat by (unfold len; lia).
      rewrite circular_app.
      replace (bufferOffset r - bufferSize r + Z.of_nat (Z.to_nat (bufferSize r)))
        with (bufferOffset r) by lia.
      rewrite (store_written (alignementBuffer r) buf (outputChunk c) (bufferOffset r))
        by (try exact Hstore; fold len; lia).
      rewrite (store_keeps (alignementBuffer r) buf (outputChunk c) (bufferOffset r)
                           (bufferSize r))
        by (try exact Hstore; fold len; lia).
      reflexivity.
    + rewrite Hbuf, Zminus_mod_idemp_l. f_equal. lia.
Qed.

Lemma run_bytes (cap target : Z) (cs : list call) :
  0 < target -> 0 < cap -> (target | cap) ->
  forall r,
    aligned cap target r ->
    0 <= bufferSize r ->
    no_overrun r cs ->
    buffered r ++ resampled_bytes cs
    = emitted_bytes (snd (run r cs)) ++ buffered (fst (run r cs)).
Proof.
  intros Ht Hcap Hdiv. unfold resampled_bytes, emitted_bytes.
  induction cs as [|c tl IH]; intros r Hr Hsize Hfit; simpl.
  - now rewrite app_nil_r.
  - destruct Hfit as (Hfit & Hrest).
    assert (Hfit' : soxrModule c = true ->
                    bufferSize r + Z.of_nat (length (outputChunk c)) <= cap).
    { intros H. destruct Hr as (Hc & _). rewrite <- Hc. now apply Hfit. }
    destruct (write_bytes cap target r c Ht Hcap Hdiv Hr Hsize Hfit') as (Hsize1 & Hw).
    destruct (write_aligned cap target r c Ht Hcap Hdiv Hr) as (Hr1 & _).
    destruct (write r c) as [[r1 out1] fin]. cbn [fst snd] in *.
    specialize (IH r1 Hr1 Hsize1 Hrest).
    destruct (run r1 tl) as [r2 out2]. cbn [fst snd] in *.
    rewrite map_app, concat_app, <- app_assoc, <- IH, app_assoc.
    unfold emitted_bytes in Hw. rewrite <- Hw.
    destruct (soxrModule c); cbn [map concat]; now rewrite <- app_assoc.
Qed.

(** X15.  The resampler is a queue of bytes.  For a resampler as
    constructed, with a buffer that is not empty, and a run in which what
    the soxr module returns never overruns the alignement buffer: the bytes
    of the chunks emitted, each as seen through its view when it is emitted,
    followed by the bytes still buffered, are exactly the bytes the soxr
    module returned, in the order it returned them.  So the chunks emitted
    cut the resampled stream into pieces of [outputChunkTargetLength] bytes
    without losing, repeating or reordering a byte, the wrap of the circular
    buffer included. *)
Theorem resampler_byte_stream
        (SAMPLES MAXLAT channels inRate outRate : Z) (r0 : t) (cs : list call) :
  create SAMPLES MAXLAT channels inRate outRate = Some r0 ->
  0 < capacity r0 ->
  no_overrun r0 cs ->
  emitted_bytes (snd (run r0 cs)) ++ buffered (fst (run r0 cs)) = resampled_bytes cs /\
  Z.of_nat (length (buffered (fst (run r0 cs)))) = bufferSize (fst (run r0 cs)).
Proof.
  intros Hcreate Hpos Hfit.
  destruct (create_spec _ _ _ _ _ _ Hcreate) as (_ & _ & Ht & _ & Hdiv & _ & Hs & _).
  pose proof (create_aligned _ _ _ _ _ _ Hcreate Hpos) as Hr0.
  pose proof (run_bytes (capacity r0) (outputChunkTargetLength r0) cs Ht Hpos Hdiv r0 Hr0
                        ltac:(lia) Hfit) as H.
  split.
  - rewrite <- H. unfold buffered. rewrite Hs. reflexivity.
  - unfold buffered. rewrite circular_length.
    assert (Hnn : forall cs' r, aligned (capacity r0) (outputChunkTargetLength r0) r ->
                                0 <= bufferSize r -> no_overrun r cs' ->
                                0 <= bufferSize (fst (run r cs'))).
    { induction cs' as [|c tl IH]; intros r Hr Hsize Hno; simpl; [exact Hsize|].
      destruct Hno as (Hc & Hrest).
      assert (Hfit' : soxrModule c = true ->
                      bufferSize r + Z.of_nat (length (outputChunk c)) <= capacity r0).
      { intros Hready. destruct Hr as (Hcap & _). rewrite <- Hcap. now apply Hc. }
      destruct (write_bytes _ _ r c Ht Hpos Hdiv Hr Hsize Hfit') as (Hsize1 & _).
      destruct (write_aligned _ _ r c Ht Hpos Hdiv Hr) as (Hr1 & _).
      destruct (write r c) as [[r1 out1] fin]. cbn [fst snd] in *.
      specialize (IH r1 Hr1 Hsize1 Hrest).
      destruct (run r1 tl) as [r2 out2]. exact IH. }
    specialize (Hnn cs r0 Hr0 ltac:(lia) Hfit). lia.
Qed.

Lemma resampler_byte_stream_witness :
  let r0 := mk 1 48000 48000 (repeat 0 48) 0 0 [] 8 in
  let cs := [mkCall (mkOutput 7 [1; 2]) true (repeat 1 20);
             mkCall (mkOutput 8 [3; 4]) true (repeat 2 24);
             mkCall (mkOutput 9 []) true (repeat 3 12)] in
  emitted_bytes (snd (run r0 cs)) ++ buffered (fst (run r0 cs)) = resampled_bytes cs /\
  Z.of_nat (length (buffered (fst (run r0 cs)))) = bufferSize (fst (run r0 cs)).
Proof.
  intros r0 cs.
  apply (resampler_byte_stream 2 1 1 48000 48000 r0 cs).
  - reflexivity.
  - reflexivity.
  - vm_compute. repeat split; intros _; discriminate.
Defined.

(** A copy that does not reach a region of the buffer leaves it alone:
    [dist] is the distance from the write offset forward to the region. *)
Lemma store_keeps_region (buf buf' out : list Z) (off voff n : Z) :
  0 <= off < Z.of_nat (length buf) ->
  0 <= voff -> 0 <= n -> voff + n <= Z.of_nat (length buf) ->
  (voff - off) mod Z.of_nat (length buf) + n <= Z.of_nat (length buf) ->
  Z.of_nat (length out) <= (voff - off) mod Z.of_nat (length buf) ->
  store buf off out = inr buf' ->
  Bytes.subarray buf' voff (voff + n) = Bytes.subarray buf voff (voff + n).
Proof.
  intros Hoff Hv Hn Hin Hdist Hlen Hstore.
  pose proof (Z.mod_pos_bound (voff - off) (Z.of_nat (length buf)) ltac:(lia)) as Hb.
  destruct (store_nth buf out off Hoff ltac:(lia)) as (buf2 & Hstore2 & Hl & Hnth).
  rewrite Hstore in Hstore2. injection Hstore2 as <-.
  assert (Hl1 : Z.of_nat (length (Bytes.subarray buf' voff (voff + n))) = n)
    by (apply Bytes_subarray_whole; rewrite ?Hl; lia).
  assert (Hl2 : Z.of_nat (length (Bytes.subarray buf voff (voff + n))) = n)
    by (apply Bytes_subarray_whole; lia).
  apply (nth_ext _ _ 0 0); [lia|].
  intros k Hk.
  rewrite !Bytes_subarray_nth by (rewrite ?Hl; lia).
  replace (Z.to_nat voff + k)%nat with (Z.to_nat (voff + Z.of_nat k)) by lia.
  rewrite Hnth by lia.
  replace (voff + Z.of_nat k - off) with (Z.of_nat k + (voff - off)) by lia.
  rewrite <- Zplus_mod_idemp_r, Z.mod_small by lia.
  now replace (Z.of_nat k + (voff - off) mod Z.of_nat (length buf) <? Z.of_nat (length out))
    with false by (symmetry; apply Z.ltb_ge; lia).
Qed.

(** The bytes a call brings into the alignement buffer. *)
Lemma resampled_bytes_cons (c : call) (cs : list call) :
  resampled_bytes (c :: cs)
  = (if soxrModule c then outputChunk c else []) ++ resampled_bytes cs.
Proof. unfold resampled_bytes. simpl. now destruct (soxrModule c). Qed.

Lemma write_keeps_region (r : t) (c : call) (voff n : Z) :
  0 <= bufferOffset r < capacity r ->
  0 <= voff -> 0 <= n -> voff + n <= capacity r ->
  (voff - bufferOffset r) mod capacity r + n <= capacity r ->
  Z.of_nat (length (if soxrModule c then outputChunk c else []))
  <= (voff - bufferOffset r) mod capacity r ->
  let r1 := fst (fst (write r c)) in
  Bytes.subarray (alignementBuffer r1) voff (voff + n)
  = Bytes.subarray (alignementBuffer r) voff (voff + n) /\
  capacity r1 = capacity r /\
  0 <= bufferOffset r1 < capacity r1 /\
  (voff - bufferOffset r1) mod capacity r1
  = (voff - bufferOffset r) mod capacity r
    - Z.of_nat (length (if soxrModule c then outputChunk c else [])).
Proof.
  intros Hoff Hv Hn Hin Hdist Hlen. unfold write.
  destruct (soxrModule c); cbn [negb fst snd];
    [|cbn [length]; repeat split; try lia].
  destruct (Z.of_nat (length (outputChunk c)) =? 0) eqn:E0.
  - apply Z.eqb_eq in E0. cbn [fst snd]. unfold capacity in *.
    cbn [alignementBuffer bufferOffset]. repeat split; try lia.
  - apply Z.eqb_neq in E0. unfold capacity in *.
    pose proof (Z.mod_pos_bound (voff - bufferOffset r)
                  (Z.of_nat (length (alignementBuffer r))) ltac:(lia)) as Hb.
    destruct (store_nth (alignementBuffer r) (outputChunk c) (bufferOffset r))
      as (buf & Hstore & Hl & _); [lia | lia |].
    rewrite Hstore.
    destruct (emitLoop buf _ _ _ _) as [es [size' queue']].
    cbn [fst snd alignementBuffer bufferOffset]. rewrite Hl.
    set (cap := Z.of_nat (length (alignementBuffer r))) in *.
    set (len := Z.of_nat (length (outputChunk c))) in *.
    assert (Hrem : Z.rem (bufferOffset r + len) cap = (bufferOffset r + len) mod cap)
      by (apply Z.rem_mod_nonneg; unfold len; lia).
    rewrite Hrem.
    pose proof (Z.mod_pos_bound (bufferOffset r + len) cap ltac:(lia)) as Hb'.
    split; [|split; [reflexivity | split; [lia|]]].
    + apply (store_keeps_region (alignementBuffer r) buf (outputChunk c) (bufferOffset r));
        fold cap; fold len; try lia. exact Hstore.
    + rewrite Zminus_mod_idemp_r.
      replace (voff - (bufferOffset r + len)) with ((voff - bufferOffset r) - len) by lia.
      rewrite <- Zminus_mod_idemp_l. apply Z.mod_small. lia.
Qed.

Lemma run_keeps_region (voff n : Z) (cs : list call) :
  forall r,
    0 <= bufferOffset r < capacity r ->
    0 <= voff -> 0 <= n -> voff + n <= capacity r ->
    (voff - bufferOffset r) mod capacity r + n <= capacity r ->
    Z.of_nat (length (resampled_bytes cs)) <= (voff - bufferOffset r) mod capacity r ->
    Bytes.subarray (alignementBuffer (fst (run r cs))) voff (voff + n)
    = Bytes.subarray (alignementBuffer r) voff (voff + n).
Proof.
  induction cs as [|c tl IH]; intros r Hoff Hv Hn Hin Hdist Hlen; simpl; [reflexivity|].
  rewrite resampled_bytes_cons, length_app in Hlen.
  destruct (write_keeps_region r c voff n Hoff Hv Hn Hin Hdist ltac:(lia))
    as (Hsame & Hcap & Hoff1 & Hdist1).
  destruct (write r c) as [[r1 out1] fin]. cbn [fst snd] in *.
  specialize (IH r1 Hoff1 Hv Hn).
  rewrite Hcap in *. rewrite Hdist1 in IH.
  specialize (IH Hin ltac:(lia) ltac:(lia)).
  destruct (run r1 tl) as [r2 out2]. cbn [fst snd] in *.
  now rewrite IH.
Qed.

(** Where the emitting loop takes each chunk: [sz] is the number of bytes
    buffered when the chunk is emitted. *)
Lemma emitLoop_views (buf : list Z) (target bufOffset : Z) (queue : list Z) :
  0 < target ->
  forall size es size' queue',
    emitLoop buf target bufOffset size queue = (es, (size', queue')) ->
    Forall (fun e => exists sz,
                target <= sz <= size /\
                offset e = rollover (bufOffset - sz) 0 (Z.of_nat (length buf)) /\
                chunk (frame e) = Bytes.subarray buf (offset e) (offset e + target)) es.
Proof.
  intros Ht.
  induction queue as [|k rest IH]; intros size es size' queue' H; simpl in H.
  - injection H as <- _ _. constructor.
  - destruct (size >=? target) eqn:E.
    + rewrite Z.geb_leb in E. apply Z.leb_le in E.
      destruct (emitLoop buf target bufOffset (size - target) rest) as [es0 [s0 q0]] eqn:E0.
      injection H as <- _ _. constructor.
      * exists size. cbn [offset frame chunk]. unfold rollover.
        rewrite !Z.sub_0_r, !Z.add_0_l. repeat split; try lia.
      * specialize (IH _ _ _ _ E0). eapply Forall_impl; [|exact IH].
        intros e (sz & Hsz & He). exists sz. split; [lia | exact He].
    + injection H as <- _ _. constructor.
Qed.

Lemma write_size_nonneg (r : t) (c : call) :
  0 <= bufferSize r -> 0 <= bufferSize (fst (fst (write r c))).
Proof.
  intros Hsize. unfold write. destruct (soxrModule c); cbn [negb fst snd]; [|exact Hsize].
  destruct (Z.of_nat (length (outputChunk c)) =? 0); [exact Hsize|].
  destruct (store _ _ _) as [buf|buf]; [exact Hsize|].
  assert (Hloop : forall queue size es size' queue',
             emitLoop buf (outputChunkTargetLength r)
                      (Z.rem (bufferOffset r + Z.of_nat (length (outputChunk c)))
                             (Z.of_nat (length buf))) size queue
             = (es, (size', queue')) -> 0 <= size -> 0 <= size').
  { induction queue as [|k rest IH]; intros size es size' queue' H Hs; simpl in H.
    - injection H as _ <- _. exact Hs.
    - destruct (size >=? outputChunkTargetLength r) eqn:E.
      + rewrite Z.geb_leb in E. apply Z.leb_le in E.
        destruct (emitLoop buf _ _ (size - outputChunkTargetLength r) rest)
          as [es0 [s0 q0]] eqn:E0.
        injection H as _ <- _. apply (IH _ _ _ _ E0). lia.
      + injection H as _ <- _. exact Hs. }
  destruct (emitLoop buf _ _ _ _) as [es [size' queue']] eqn:E.
  cbn [fst snd bufferSize]. apply (Hloop _ _ _ _ _ E). lia.
Qed.

Lemma run_size_nonneg (cs : list call) :
  forall r, 0 <= bufferSize r -> 0 <= bufferSize (fst (run r cs)).
Proof.
  induction cs as [|c tl IH]; intros r Hsize; simpl; [exact Hsize|].
  pose proof (write_size_nonneg r c Hsize) as H1.
  destruct (write r c) as [[r1 out1] fin]. cbn [fst snd] in *.
  specialize (IH r1 H1). destruct (run r1 tl) as [r2 out2]. exact IH.
Qed.

(** X16.  How long an emitted view can be kept.  The chunks are handed
    downstream as views on the alignement buffer, not as copies.  For a
    resampler as constructed, with a buffer that is not empty, at any point
    of a run: when the data the soxr module returns for a chunk fits beside
    the bytes buffered, every view the call emits still shows, after any
    number of further calls, the bytes it was emitted with, as long as these
    calls bring together no more bytes than the room there was left in the
    buffer when the views were emitted (the capacity less the bytes buffered
    with the new data). *)
Theorem resampler_view_lifetime
        (SAMPLES MAXLAT channels inRate outRate : Z) (r0 : t)
        (cs1 : list call) (c : call) (cs2 : list call) :
  create SAMPLES MAXLAT channels inRate outRate = Some r0 ->
  0 < capacity r0 ->
  let r := fst (run r0 cs1) in
  bufferSize r + Z.of_nat (length (outputChunk c)) <= capacity r0 ->
  Z.of_nat (length (resampled_bytes cs2))
  <= capacity r0 - (bufferSize r + Z.of_nat (length (outputChunk c))) ->
  Forall (fun e =>
            Bytes.subarray (alignementBuffer (fst (run (fst (fst (write r c))) cs2)))
                           (offset e) (offset e + outputChunkTargetLength r0)
            = chunk (frame e))
         (snd (fst (write r c))).
Proof.
  intros Hcreate Hpos r Hfit Hlater.
  destruct (create_spec _ _ _ _ _ _ Hcreate) as (_ & _ & Ht & _ & Hdiv & _ & Hs & _).
  set (cap := capacity r0) in *. set (target := outputChunkTargetLength r0) in *.
  pose proof (create_aligned _ _ _ _ _ _ Hcreate Hpos) as Hr0. fold cap target in Hr0.
  destruct (run_aligned cap target cs1 Ht Hpos Hdiv r0 Hr0) as (Hr & _). fold r in Hr.
  assert (Hsize : 0 <= bufferSize r) by (apply run_size_nonneg; lia).
  destruct (write_aligned cap target r c Ht Hpos Hdiv Hr) as (Hr1 & Hwhole).
  destruct Hr as (Hc & Htl & Hoff & Hal). unfold capacity in Hc.
  assert (Hviews : Forall (fun e => exists sz,
                              target <= sz
                              <= bufferSize r + Z.of_nat (length (outputChunk c)) /\
                              offset e = (bufferOffset (fst (fst (write r c))) - sz) mod cap /\
                              chunk (frame e)
                              = Bytes.subarray (alignementBuffer (fst (fst (write r c))))
                                               (offset e) (offset e + target))
                          (snd (fst (write r c)))).
  { unfold write. destruct (soxrModule c); cbn [negb fst snd]; [|constructor].
    destruct (Z.of_nat (length (outputChunk c)) =? 0); [constructor|].
    pose proof (store_length (alignementBuffer r) (bufferOffset r) (outputChunk c)) as Hl.
    destruct (store _ _ _) as [buf|buf]; [constructor|].
    destruct (emitLoop buf _ _ _ _) as [es [size' queue']] eqn:E.
    cbn [fst snd alignementBuffer bufferOffset].
    apply emitLoop_views in E; [|rewrite Htl; exact Ht]. rewrite Htl in E.
    eapply Forall_impl; [|exact E].
    intros e (sz & Hsz & Hoffe & Hchunk). exists sz.
    unfold rollover in Hoffe. rewrite !Z.sub_0_r, Z.add_0_l, Hl, Hc in Hoffe.
    rewrite Hl, Hc. repeat split; try lia; assumption. }
  destruct Hr1 as (Hc1 & _ & Hoff1 & _).
  set (r1 := fst (fst (write r c))) in *.
  rewrite Forall_forall in *. intros e He.
  destruct (Hviews e He) as (sz & Hsz & Hoffe & Hchunk).
  destruct (Hwhole e He) as (Hv0 & Hv1 & _).
  assert (Hdist : (offset e - bufferOffset r1) mod cap = (- sz) mod cap).
  { rewrite Hoffe, Zminus_mod_idemp_l. f_equal. lia. }
  assert (Hd : (- sz) mod cap = if sz =? cap then 0 else cap - sz).
  { destruct (sz =? cap) eqn:E.
    - apply Z.eqb_eq in E. subst sz. rewrite <- (Z.mod_add _ 1) by lia.
      replace (- cap + 1 * cap) with 0 by lia. apply Z.mod_0_l. lia.
    - apply Z.eqb_neq in E. rewrite <- (Z.mod_add _ 1) by lia.
      rewrite Z.mul_1_l. replace (cap - sz) with (- sz + cap) by lia.
      apply Z.mod_small. lia. }
  rewrite Hchunk.
  apply run_keeps_region; rewrite ?Hc1; try lia.
  - rewrite Hdist, Hd. destruct (sz =? cap) eqn:E; [apply Z.eqb_eq in E|]; lia.
  - rewrite Hdist, Hd. destruct (sz =? cap) eqn:E; [apply Z.eqb_eq in E|]; lia.
Qed.

Lemma resampler_view_lifetime_witness :
  let r0 := mk 1 48000 48000 (repeat 0 48) 0 0 [] 8 in
  let cs1 := [mkCall (mkOutput 7 [1; 2]) true (repeat 1 8)] in
  let c := mkCall (mkOutput 8 [3; 4]) true (repeat 2 8) in
  let cs2 := [mkCall (mkOutput 9 []) true (repeat 3 8);
              mkCall (mkOutput 10 []) true (repeat 4 8);
              mkCall (mkOutput 11 []) true (repeat 5 8);
              mkCall (mkOutput 12 []) true (repeat 6 8);
              mkCall (mkOutput 13 []) true (repeat 7 8)] in
  Forall (fun e =>
            Bytes.subarray
              (alignementBuffer (fst (run (fst (fst (write (fst (run r0 cs1)) c))) cs2)))
              (offset e) (offset e + 8)
            = chunk (frame e))
         (snd (fst (write (fst (run r0 cs1)) c))).
Proof.
  intros r0 cs1 c cs2.
  apply (resampler_view_lifetime 2 1 1 48000 48000 r0 cs1 c cs2).
  - reflexivity.
  - reflexivity.
  - vm_compute. discriminate.
  - vm_compute. discriminate.
Defined.

End ResamplerBytes.
